(** * A chained hash table with automatic rehashing (Hash_tables.py)

    Shallow embedding of the class [HashTable] and a verification of its
    documented properties.

    Modelling conventions.
    - Python integers are [Z]; [&] is [Z.land], [%] and [//] with a positive
      divisor are [Z.modulo] and [Z.div] (both round towards minus infinity,
      as Python does).
    - Keys are a type [K] whose distinct elements are unequal under Python's
      [==]; [self_equal k] tells whether [k == k].  It is false for
      [float('nan')], a hashable key that equals nothing, itself included.
      So [k == key] is [self_equal k && (k = key)]: a partial equivalence
      that [hash] respects, which is what Python asks of hashable keys.
      The built-in [hash] is a parameter [hash : K -> option Z], [None]
      meaning that [hash(key)] raises [TypeError] (an unhashable key).
    - Stored values are Python objects: either the singleton [None]
      ([PyNone]) or some other object ([PyObj v]).
    - [load_factor] is a float: a finite one is the rational it denotes, the
      others are the infinities and NaN.  The only arithmetic done with it
      is [int(size * load_factor)], always with a [size] that has passed the
      power-of-two check.  For such a size the float product is exact
      unless it overflows; the conversion of [size] to a float raises
      [OverflowError] from [2^1024] on, a product of magnitude [2^1024] or
      more is an infinity, [int] of an infinity raises [OverflowError] and
      [int] of a NaN raises [ValueError].
    - The object is mutated in place, exceptions leave earlier mutations in
      place: a method is a function from the state to an outcome and the
      state at the moment of return or raise.
    - [put] and [_resize] call each other; the recursion is described with a
      fuel argument, shown below to be always sufficient.  The interpreter's
      recursion and memory limits are outside the model. *)

From Stdlib Require Import ZArith QArith Lia.
From stdpp Require Import base decidable option list numbers countable gmap.

Local Open Scope Z_scope.

(** ** Python values and exceptions *)

Inductive value (V : Type) : Type :=
  | PyNone
  | PyObj (v : V).
Arguments PyNone {V}.
Arguments PyObj {V} v.

#[global] Instance value_eq_dec {V} `{EqDecision V} : EqDecision (value V).
Proof. solve_decision. Defined.

Definition is_not_None {V} (x : value V) : bool :=
  match x with PyNone => false | PyObj _ => true end.

Inductive exn : Type :=
  | TypeError          (* hash() of an unhashable key *)
  | ValueError         (* size that is not a power of two; int() of a NaN *)
  | IndexError         (* list index out of range *)
  | ZeroDivisionError  (* modulo by zero *)
  | OverflowError.     (* int too large for a float; int() of an infinity *)

Inductive outcome (A : Type) : Type :=
  | Ok (a : A)
  | Raise (e : exn).
Arguments Ok {A} a.
Arguments Raise {A} e.

(** ** Floats *)

Inductive pyfloat : Type :=
  | Finite (q : Q)
  | Inf (negative : bool)
  | NaN.

(** Magnitudes from [2^1024] on are not finite floats. *)
Definition float_limit : Z := 2 ^ 1024.
Arguments float_limit : simpl never.

(** [int(x)] of a rational: truncation towards zero. *)
Definition int_of_Q (q : Q) : Z := Z.quot (Qnum q) (Z.pos (Qden q)).

(** [int(size * load_factor)]: the integer is converted to a float, the
    floats are multiplied, the product is truncated. *)
Definition compute_threshold (size : Z) (load_factor : pyfloat) : outcome Z :=
  if float_limit <=? Z.abs size then Raise OverflowError
  else match load_factor with
       | NaN => Raise ValueError
       | Inf _ => if size =? 0 then Raise ValueError else Raise OverflowError
       | Finite q =>
           let p := (inject_Z size * q)%Q in
           if float_limit * Z.pos (Qden p) <=? Z.abs (Qnum p)
           then Raise OverflowError
           else Ok (int_of_Q p)
       end.

(** The value of [int(size * q)] and the condition under which the float
    computation delivers it. *)
Definition threshold_value (sz : Z) (q : Q) : Z :=
  Z.quot (sz * Qnum q) (Z.pos (Qden q)).

Definition threshold_fits (sz : Z) (q : Q) : Prop :=
  Z.abs sz < float_limit /\ Z.abs (sz * Qnum q) < float_limit * Z.pos (Qden q).

(** [l[i]] for a Python list: a negative index counts from the end, an
    index outside [-len, len) raises [IndexError].  The result carries the
    position that [l[i]] denotes, because the callers keep the element as
    an alias of that slot and write through it. *)
Definition list_getitem {A} (l : list A) (i : Z) : outcome (nat * A) :=
  let j := if i <? 0 then i + Z.of_nat (length l) else i in
  if j <? 0 then Raise IndexError
  else match l !! Z.to_nat j with
       | Some x => Ok (Z.to_nat j, x)
       | None => Raise IndexError
       end.

(** [(n & (n - 1)) == 0 and n != 0] *)
Definition _is_power_of_two (n : Z) : bool :=
  (Z.land n (n - 1) =? 0) && negb (n =? 0).

Definition pow2 (n : Z) : Prop := exists e : nat, n = 2 ^ Z.of_nat e.

(** ** The container *)

Record HashTable (K V : Type) : Type := mkHashTable {
  size : Z;
  load_factor : pyfloat;
  threshold : Z;
  count : Z;
  table : list (list (K * value V))
}.
Arguments mkHashTable {K V} size load_factor threshold count table.
Arguments size {K V} self : rename.
Arguments load_factor {K V} self : rename.
Arguments threshold {K V} self : rename.
Arguments count {K V} self : rename.
Arguments table {K V} self : rename.

(** ** A concrete key universe

    Integers, which are hashable; lists, which are not; and NaN floats,
    which are hashable and equal to nothing.  [hash_int] is CPython's hash
    of an [int]: the value reduced modulo the Mersenne prime [2^61 - 1]
    with the sign kept, and [-2] in place of [-1].  A NaN object is
    identified by an integer, which is also taken as its hash (CPython
    hashes a NaN by the identity of the object). *)

Inductive pykey : Type :=
  | KInt (n : Z)
  | KList (l : list Z)
  | KNaN (id : Z).

#[global] Instance pykey_eq_dec : EqDecision pykey.
Proof. solve_decision. Defined.

#[global] Instance pykey_countable : Countable pykey.
Proof.
  refine (inj_countable'
            (fun k => match k with
                      | KInt n => inl (inl n)
                      | KList l => inl (inr l)
                      | KNaN id => inr id
                      end)
            (fun s => match s with
                      | inl (inl n) => KInt n
                      | inl (inr l) => KList l
                      | inr id => KNaN id
                      end) _).
  by intros [].
Defined.

Definition hash_int (n : Z) : Z :=
  let h := Z.sgn n * (Z.abs n mod (2 ^ 61 - 1)) in
  if h =? -1 then -2 else h.

Definition pyhash (k : pykey) : option Z :=
  match k with
  | KInt n => Some (hash_int n)
  | KList _ => None
  | KNaN id => Some id
  end.

(** [k == k] *)
Definition py_self_equal (k : pykey) : bool :=
  match k with
  | KInt _ => true
  | KList _ => true
  | KNaN _ => false
  end.

(** [HashTable()], [HashTable(initial_size=4)], and the table left by
    putting the keys 0 to 6 with themselves as values into [HashTable()]
    and deleting the keys 0 to 3. *)
Definition default_table : HashTable pykey Z :=
  mkHashTable 8 (Finite (3 # 4)) 6 0 (replicate 8 []).

Definition small_table : HashTable pykey Z :=
  mkHashTable 4 (Finite (3 # 4)) 3 0 (replicate 4 []).

Definition sparse_table : HashTable pykey Z :=
  mkHashTable 16 (Finite (3 # 4)) 12 3
    ([[]; []; []; []; [(KInt 4, PyObj 4)]; [(KInt 5, PyObj 5)]; [(KInt 6, PyObj 6)]]
       ++ replicate 9 []).

Definition entry_of (n : Z) : pykey * value Z := (KInt n, PyObj n).

(** [HashTable(initial_size=1)]: one chain and threshold 0, so that the
    first [put] already grows it. *)
Definition single_table : HashTable pykey Z :=
  mkHashTable 1 (Finite (3 # 4)) 0 0 [[]].

(** A finite load factor near the largest float, [-2^1019]: the product
    with 8 and with 16 is finite, the product with 32 is not.
    [steep_table] is [HashTable(8, -2.0**1019)], [steep_one_table] is that
    table after the put of the key 1, which grows it to 16 buckets, and
    [torn_table] is what the next put, of the key 17, leaves of it: that
    put raises [OverflowError] inside [_resize], after [size] was set to
    32. *)
Definition steep : pyfloat := Finite (- 2 ^ 1019 # 1).

Definition steep_table : HashTable pykey Z :=
  mkHashTable 8 steep (- 2 ^ 1022) 0 (replicate 8 []).

Definition steep_one_table : HashTable pykey Z :=
  mkHashTable 16 steep (- 2 ^ 1023) 1
    ([[]; [(KInt 1, PyObj 1)]] ++ replicate 14 []).

Definition torn_table : HashTable pykey Z :=
  mkHashTable 32 steep (- 2 ^ 1023) 1
    ([[]; [(KInt 1, PyObj 1)]] ++ replicate 14 []).

Section HashTable.

Context {K V : Type} `{Countable K}.
Variable hash : K -> option Z.
Variable self_equal : K -> bool.

Abbreviation entry := (K * value V)%type.
Abbreviation chain := (list (K * value V)).

(** Methods: state in, outcome and state out; [None] is "out of fuel". *)
Definition M (A : Type) : Type :=
  HashTable K V -> option (outcome A * HashTable K V).

Definition ret {A} (a : A) : M A := fun self => Some (Ok a, self).
Definition raise {A} (e : exn) : M A := fun self => Some (Raise e, self).
Definition bind {A B} (m : M A) (f : A -> M B) : M B :=
  fun self =>
    match m self with
    | Some (Ok a, self') => f a self'
    | Some (Raise e, self') => Some (Raise e, self')
    | None => None
    end.
Definition lift {A} (r : outcome A) : M A := fun self => Some (r, self).
Definition modify (f : HashTable K V -> HashTable K V) : M unit :=
  fun self => Some (Ok tt, f self).

Notation "'let*' x ':=' m 'in' k" := (bind m (fun x => k))
  (at level 10, x name, m at level 100, k at level 200).
Notation "m ';;' k" := (bind m (fun _ => k))
  (at level 100, k at level 200, right associativity).

(** [for x in l: body x], stopping at the first exception. *)
Fixpoint for_each {A} (body : A -> M unit) (l : list A) : M unit :=
  match l with
  | [] => ret tt
  | x :: l' => body x ;; for_each body l'
  end.

(** The constructor.  [[[] for _ in range(size)]] is [replicate].  When
    [int(...)] raises, no object is returned. *)
Definition __init__ (initial_size : Z) (load_factor : pyfloat)
  : outcome (HashTable K V) :=
  if negb (_is_power_of_two initial_size) then Raise ValueError
  else match compute_threshold initial_size load_factor with
       | Raise e => Raise e
       | Ok t => Ok {| size := initial_size;
                       load_factor := load_factor;
                       threshold := t;
                       count := 0;
                       table := replicate (Z.to_nat initial_size) [] |}
       end.

(** [hash(key) % self.size] *)
Definition _hash (self : HashTable K V) (key : K) : outcome Z :=
  match hash key with
  | None => Raise TypeError
  | Some h => if size self =? 0 then Raise ZeroDivisionError
              else Ok (h mod size self)
  end.

(** [k == key] *)
Definition key_eq (k key : K) : bool := self_equal k && bool_decide (k = key).

(** The scan [for i, (k, v) in enumerate(bucket): if k == key: ...]:
    position and value of the first entry whose key equals [key]. *)
Fixpoint chain_find (key : K) (bucket : chain) : option (nat * value V) :=
  match bucket with
  | [] => None
  | (k, v) :: rest =>
      if key_eq k key then Some (O, v)
      else match chain_find key rest with
           | Some (i, v') => Some (S i, v')
           | None => None
           end
  end.

Definition set_size (n : Z) (self : HashTable K V) : HashTable K V :=
  {| size := n; load_factor := load_factor self;
     threshold := threshold self; count := count self; table := table self |}.
Definition set_table (t : list chain) (self : HashTable K V) : HashTable K V :=
  {| size := size self; load_factor := load_factor self;
     threshold := threshold self; count := count self; table := t |}.
Definition set_count (c : Z) (self : HashTable K V) : HashTable K V :=
  {| size := size self; load_factor := load_factor self;
     threshold := threshold self; count := c; table := table self |}.

(** [bucket] aliases [self.table[index]]: a write to the bucket is a write
    to that slot of the table. *)
Definition set_bucket (slot : nat) (b : chain) (self : HashTable K V)
  : HashTable K V :=
  set_table (<[slot := b]> (table self)) self.

(** [_resize], with the method [self.put] it calls as a parameter.  The
    new size is stored before the threshold is computed, so an exception
    of [int(...)] leaves the new size with the old threshold, table and
    count. *)
Definition _resize_with (put : K -> value V -> M unit) (new_size : Z) : M unit :=
  if negb (_is_power_of_two new_size) then raise ValueError
  else fun self =>
    let old_table := table self in
    let self1 := set_size new_size self in
    match compute_threshold (size self1) (load_factor self1) with
    | Raise e => Some (Raise e, self1)
    | Ok t =>
        let self2 :=
          {| size := new_size;
             load_factor := load_factor self;
             threshold := t;
             count := 0;
             table := replicate (Z.to_nat new_size) [] |} in
        for_each (fun bucket =>
          for_each (fun '(key, value) => put key value) bucket) old_table self2
    end.

(** Lines 72-83 of [put]: locate the bucket, update or append. *)
Definition put_entry (key : K) (value : value V) : M unit :=
  let* index := (fun self => lift (_hash self key) self) in
  let* sb := (fun self => lift (list_getitem (table self) index) self) in
  let '(slot, bucket) := sb in
  match chain_find key bucket with
  | Some (i, _) => modify (set_bucket slot (<[i := (key, value)]> bucket))
  | None =>
      modify (set_bucket slot (bucket ++ [(key, value)])) ;;
      modify (fun self => set_count (count self + 1) self)
  end.

Fixpoint put_fuel (fuel : nat) (key : K) (value : value V) : M unit :=
  match fuel with
  | O => fun _ => None
  | S fuel' =>
      (fun self =>
         if threshold self <=? count self
         then _resize_with (put_fuel fuel') (size self * 2) self
         else ret tt self) ;;
      put_entry key value
  end.

Definition _resize (fuel : nat) (new_size : Z) : M unit :=
  _resize_with (put_fuel fuel) new_size.

(** The generator [items()], as the finite sequence it yields. *)
Definition items (self : HashTable K V) : list entry := concat (table self).
Definition keys (self : HashTable K V) : list K := (items self).*1.
Definition values (self : HashTable K V) : list (value V) := (items self).*2.

(** [put]: the fuel is one more than the number of stored entries. *)
Definition put (key : K) (value : value V) : M unit :=
  fun self => put_fuel (S (length (items self))) key value self.

Definition get (self : HashTable K V) (key : K) (default : value V)
  : outcome (value V) :=
  match _hash self key with
  | Raise e => Raise e
  | Ok index =>
      match list_getitem (table self) index with
      | Raise e => Raise e
      | Ok (_, bucket) =>
          match chain_find key bucket with
          | Some (_, v) => Ok v
          | None => Ok default
          end
      end
  end.

Definition delete_fuel (fuel : nat) (key : K) : M (value V) :=
  let* index := (fun self => lift (_hash self key) self) in
  let* sb := (fun self => lift (list_getitem (table self) index) self) in
  let '(slot, bucket) := sb in
  match chain_find key bucket with
  | Some (i, v) =>
      modify (set_bucket slot (base.delete i bucket)) ;; (* del bucket[i] *)
      modify (fun self => set_count (count self - 1) self) ;;
      (fun self =>
         if (8 <? size self) && (count self <? threshold self / 4)
         then _resize fuel (Z.max 8 (size self / 2)) self
         else ret tt self) ;;
      ret v
  | None => ret PyNone
  end.

Definition delete (key : K) : M (value V) :=
  fun self => delete_fuel (length (items self)) key self.

(** [self.get(key) is not None] *)
Definition __contains__ (self : HashTable K V) (key : K) : outcome bool :=
  match get self key PyNone with
  | Ok v => Ok (is_not_None v)
  | Raise e => Raise e
  end.

Definition __len__ (self : HashTable K V) : Z := count self.

(** ** Operation sequences and the reference mapping *)

Inductive op : Type :=
  | Put (key : K) (v : value V)
  | Delete (key : K).

Definition op_key (o : op) : K :=
  match o with Put key _ => key | Delete key => key end.

Definition apply_op (o : op) : M unit :=
  match o with
  | Put key v => put key v
  | Delete key => delete key ;; ret tt
  end.

Definition run (ops : list op) : M unit := for_each apply_op ops.

(** The same sequence replayed on a finite map (a Python [dict], which
    finds a key by identity before it tries [==]). *)
Definition replay_op (m : gmap K (value V)) (o : op) : gmap K (value V) :=
  match o with
  | Put key v => <[key := v]> m
  | Delete key => base.delete key m
  end.

Definition replay_from (m : gmap K (value V)) (ops : list op) : gmap K (value V) :=
  foldl replay_op m ops.

Definition replay (ops : list op) : gmap K (value V) := replay_from ∅ ops.

(** [for key, value in kvs: self.put(key, value)] *)
Definition put_all (kvs : list entry) : M unit :=
  for_each (fun '(key, value) => put key value) kvs.

(** ** States of a container's lifetime

    A state is reachable when it is the state left by the constructor or
    by a [put] or [delete] on a reachable state, whether the call returned
    or raised. *)
Inductive reachable (initial_size : Z) (lf : pyfloat) : HashTable K V -> Prop :=
  | reach_init self :
      __init__ initial_size lf = Ok self -> reachable initial_size lf self
  | reach_put self key v r self' :
      reachable initial_size lf self ->
      put key v self = Some (r, self') ->
      reachable initial_size lf self'
  | reach_delete self key r self' :
      reachable initial_size lf self ->
      delete key self = Some (r, self') ->
      reachable initial_size lf self'.

(** No resize is left half done: the table has [size] chains.  A resize
    that fails in [int(...)] has stored the new size and not the new
    table. *)
Definition intact (self : HashTable K V) : Prop :=
  Z.of_nat (length (table self)) = size self.

(** ** The representation invariant *)

(** The keys of a list that are equal to themselves. *)
Definition self_equal_keys (l : list K) : list K :=
  filter (fun k => self_equal k = true) l.

(** A chain in slot [i] of a table of [sz] buckets: no self-equal key
    twice, and every key is hashable with index [i]. *)
Definition chain_ok (sz : Z) (i : nat) (b : chain) : Prop :=
  NoDup (self_equal_keys b.*1) /\
  forall k v, (k, v) ∈ b -> exists h, hash k = Some h /\ h mod sz = Z.of_nat i.

(** The number of chains, which is [size] unless a resize has failed. *)
Definition chains (self : HashTable K V) : Z := Z.of_nat (length (table self)).

(** Every reachable state satisfies [Inv]: the threshold, the count and
    the position of every entry are those of a table of [chains self]
    buckets, and [size] is that number or, after a resize that failed in
    [int(...)], a larger power of two whose threshold cannot be
    computed. *)
Record Inv (self : HashTable K V) : Prop := {
  inv_pow2 : pow2 (size self);
  inv_len : pow2 (chains self);
  inv_thr : compute_threshold (chains self) (load_factor self) = Ok (threshold self);
  inv_size : intact self \/
             (chains self < size self /\
              compute_threshold (size self) (load_factor self) = Raise OverflowError);
  inv_count : count self = Z.of_nat (length (items self));
  inv_chain : forall i b, table self !! i = Some b -> chain_ok (chains self) i b
}.

(** [key] is found by a scan of the stored entries: it is stored and equal
    to itself. *)
Definition matched (self : HashTable K V) (key : K) : Prop :=
  self_equal key = true /\ key ∈ keys self.

(** The entries after a [put] that returned, in terms of those before:
    the value of a matched key is replaced, an unmatched key is added. *)
Definition put_result (key : K) (v : value V) (self self' : HashTable K V) : Prop :=
  (matched self key ->
   count self' = count self /\
   forall k' v', (k', v') ∈ items self' <->
                 if decide (k' = key) then v' = v else (k', v') ∈ items self) /\
  (~ matched self key ->
   count self' = count self + 1 /\ items self' ≡ₚ (key, v) :: items self).

(** What a [put] with a hashable key does on an intact table, for a given
    amount of fuel: it returns, or a resize fails in [int(...)]. *)
Definition put_spec (fuel : nat) : Prop :=
  forall self key v h,
    Inv self -> intact self -> hash key = Some h ->
    (length (items self) < fuel)%nat ->
    exists r self',
      put_fuel fuel key v self = Some (r, self') /\
      Inv self' /\
      load_factor self' = load_factor self /\
      (exists j : nat, size self' = size self * 2 ^ Z.of_nat j) /\
      (r = Ok tt /\ intact self' /\ put_result key v self self' \/
       r = Raise OverflowError /\ ~ intact self' /\ threshold self <= count self) /\
      (count self < threshold self ->
       r = Ok tt /\ size self' = size self /\ threshold self' = threshold self) /\
      (threshold self <= count self ->
       forall t, compute_threshold (size self * 2) (load_factor self) = Ok t ->
                 count self <= t ->
                 r = Ok tt /\ size self' = size self * 2 /\ threshold self' = t) /\
      (threshold self <= count self ->
       compute_threshold (size self * 2) (load_factor self) = Raise OverflowError ->
       r = Raise OverflowError /\ self' = set_size (size self * 2) self).

(** A [put] on [self] does not run into the limits of floats: either it
    does not grow the table, or the threshold of the doubled size can be
    computed and leaves room for the entries that are re-inserted. *)
Definition put_fits (self : HashTable K V) : Prop :=
  count self < threshold self \/
  exists t, compute_threshold (size self * 2) (load_factor self) = Ok t /\
            count self <= t.

(** ** Powers of two *)

Lemma pow2_pos n : pow2 n -> 0 < n.
Proof. intros [e ->]. apply Z.pow_pos_nonneg; lia. Qed.

Lemma pow2_double n : pow2 n -> pow2 (n * 2).
Proof.
  intros [e ->]. exists (S e).
  rewrite Nat2Z.inj_succ, Z.pow_succ_r by lia. lia.
Qed.

Lemma pow2_mul n (j : nat) : pow2 n -> pow2 (n * 2 ^ Z.of_nat j).
Proof.
  intros [e ->]. exists (e + j)%nat.
  by rewrite Nat2Z.inj_add, Z.pow_add_r by lia.
Qed.

Lemma pow2_half n : pow2 n -> 8 < n -> pow2 (n / 2) /\ 8 <= n / 2 /\ n = 2 * (n / 2).
Proof.
  intros [e ->] Hgt.
  destruct e as [|e]; [simpl in Hgt; lia|].
  rewrite Nat2Z.inj_succ, Z.pow_succ_r in * by lia.
  replace (2 * 2 ^ Z.of_nat e / 2) with (2 ^ Z.of_nat e)
    by (rewrite Z.mul_comm, Z.div_mul; lia).
  split; [by exists e|]. split; [|lia].
  destruct (decide (e < 3)%nat) as [Hlt|Hge].
  - assert (2 ^ Z.of_nat e <= 2 ^ 2) by (apply Z.pow_le_mono_r; lia). lia.
  - change 8 with (2 ^ 3). apply Z.pow_le_mono_r; lia.
Qed.

(** Two powers of two in strict order are at least a factor two apart. *)
Lemma pow2_lt_double a b : pow2 a -> pow2 b -> a < b -> a * 2 <= b.
Proof.
  intros [e ->] [f ->] Hlt.
  assert (Z.of_nat e < Z.of_nat f) as Hef.
  { destruct (decide (Z.of_nat e < Z.of_nat f)); [done|].
    assert (2 ^ Z.of_nat f <= 2 ^ Z.of_nat e) by (apply Z.pow_le_mono_r; lia). lia. }
  replace (2 ^ Z.of_nat e * 2) with (2 ^ (Z.of_nat e + 1))
    by (rewrite Z.pow_add_r by lia; lia).
  apply Z.pow_le_mono_r; lia.
Qed.

Lemma pow2_ge_1 (j : nat) : 1 <= 2 ^ Z.of_nat j.
Proof. apply (Z.pow_le_mono_r 2 0); lia. Qed.

Lemma _is_power_of_two_pow2 n : pow2 n -> _is_power_of_two n = true.
Proof.
  intros Hn. pose proof (pow2_pos _ Hn) as Hpos. destruct Hn as [e ->].
  unfold _is_power_of_two. apply andb_true_intro. split.
  - apply Z.eqb_eq.
    replace (2 ^ Z.of_nat e - 1) with (Z.ones (Z.of_nat e))
      by (rewrite Z.ones_equiv; lia).
    rewrite Z.land_ones by lia. apply Z.mod_same. lia.
  - apply negb_true_iff, Z.eqb_neq. lia.
Qed.

Lemma _is_power_of_two_sound n : _is_power_of_two n = true -> pow2 n.
Proof.
  unfold _is_power_of_two. intros [Hland Hnz]%andb_prop.
  apply Z.eqb_eq in Hland. apply negb_true_iff, Z.eqb_neq in Hnz.
  assert (0 < n) as Hpos.
  { destruct (decide (n < 0)) as [Hneg|]; [|lia].
    assert (Z.land n (n - 1) < 0) by (apply Z.land_neg; lia). lia. }
  pose proof (Z.log2_spec n Hpos) as [Hlo Hhi].
  pose proof (Z.log2_nonneg n) as Hk.
  exists (Z.to_nat (Z.log2 n)). rewrite Z2Nat.id by done.
  destruct (decide (n = 2 ^ Z.log2 n)) as [|Hne]; [done|exfalso].
  assert (Z.log2 (n - 1) = Z.log2 n) as Hlog
    by (apply Z.log2_unique; [done|lia]).
  assert (Z.testbit (Z.land n (n - 1)) (Z.log2 n) = true) as Hbit.
  { rewrite Z.land_spec, Z.bit_log2 by done.
    rewrite <- Hlog. rewrite Z.bit_log2; [done|lia]. }
  rewrite Hland, Z.bits_0 in Hbit. done.
Qed.

(** ** The threshold *)

Lemma compute_threshold_Finite sz q :
  (threshold_fits sz q /\
   compute_threshold sz (Finite q) = Ok (threshold_value sz q)) \/
  (~ threshold_fits sz q /\
   compute_threshold sz (Finite q) = Raise OverflowError).
Proof.
  unfold compute_threshold, threshold_fits, threshold_value, int_of_Q.
  change (Qden (inject_Z sz * q)) with (Qden q).
  change (Qnum (inject_Z sz * q)) with (sz * Qnum q).
  destruct (Z.leb_spec float_limit (Z.abs sz)) as [Hbig|Hsmall];
    [right; split; [lia|done]|].
  destruct (Z.leb_spec (float_limit * Z.pos (Qden q)) (Z.abs (sz * Qnum q)))
    as [Hinf|Hfin]; [right; split; [lia|done]|].
  left. done.
Qed.

Lemma compute_threshold_Ok sz lf t :
  compute_threshold sz lf = Ok t ->
  exists q, lf = Finite q /\ threshold_fits sz q /\ t = threshold_value sz q.
Proof.
  destruct lf as [q|neg|].
  - destruct (compute_threshold_Finite sz q) as [[Hfit ->]|[_ ->]]; [|done].
    intros [= <-]. by exists q.
  - unfold compute_threshold.
    destruct (float_limit <=? Z.abs sz); [done|]. by destruct (sz =? 0).
  - unfold compute_threshold. by destruct (float_limit <=? Z.abs sz).
Qed.

Lemma threshold_fits_mono sz sz' q :
  0 < sz' <= sz -> threshold_fits sz q -> threshold_fits sz' q.
Proof.
  unfold threshold_fits. intros Hle [Hs Hp]. split; [lia|].
  eapply Z.le_lt_trans; [|exact Hp].
  rewrite !Z.abs_mul. apply Z.mul_le_mono_nonneg_r; lia.
Qed.

(** A smaller size with the same load factor has a threshold too. *)
Lemma compute_threshold_smaller sz sz' lf t :
  compute_threshold sz lf = Ok t -> 0 < sz' <= sz ->
  exists t', compute_threshold sz' lf = Ok t'.
Proof.
  intros (q & -> & Hfit & _)%compute_threshold_Ok Hle.
  destruct (compute_threshold_Finite sz' q) as [[_ ->]|[Hno _]]; [by eauto|].
  destruct Hno. by apply (threshold_fits_mono sz).
Qed.

(** With a load factor that has given a threshold once, the only way for
    [int(size * load_factor)] to fail is [OverflowError]. *)
Lemma compute_threshold_error sz sz' lf t e :
  compute_threshold sz lf = Ok t -> compute_threshold sz' lf = Raise e ->
  e = OverflowError.
Proof.
  intros (q & -> & _)%compute_threshold_Ok.
  destruct (compute_threshold_Finite sz' q) as [[_ ->]|[_ ->]]; congruence.
Qed.

(** A size that overflows keeps overflowing when it grows. *)
Lemma compute_threshold_bigger sz sz' lf :
  compute_threshold sz lf = Raise OverflowError -> 0 < sz <= sz' ->
  compute_threshold sz' lf = Raise OverflowError \/
  compute_threshold sz' lf = Raise ValueError.
Proof.
  intros Hover Hle. destruct (compute_threshold sz' lf) as [t'|e] eqn:Hc'.
  - destruct (compute_threshold_smaller sz' sz lf t' Hc' Hle) as [t Ht]. congruence.
  - destruct lf as [q|neg|].
    + destruct (compute_threshold_Finite sz' q) as [[_ Heq]|[_ Heq]]; left; congruence.
    + unfold compute_threshold in Hc'.
      destruct (float_limit <=? Z.abs sz'); [left; congruence|].
      destruct (sz' =? 0); [right|left]; congruence.
    + unfold compute_threshold in Hc'.
      destruct (float_limit <=? Z.abs sz'); [left|right]; congruence.
Qed.

Lemma threshold_value_pos sz q :
  0 < sz -> 0 < threshold_value sz q -> 0 < Qnum q.
Proof.
  unfold threshold_value. intros Hsz Ht.
  destruct (decide (0 < Qnum q)) as [|Hneg]; [done|exfalso].
  assert (0 <= (- (sz * Qnum q)) ÷ Z.pos (Qden q)) by (apply Z.quot_pos; nia).
  rewrite Z.quot_opp_l in * by lia. lia.
Qed.

Lemma threshold_value_mono sz sz' q :
  0 <= Qnum q -> 0 < sz <= sz' ->
  threshold_value sz q <= threshold_value sz' q.
Proof.
  unfold threshold_value. intros Hq Hle.
  rewrite !Z.quot_div_nonneg by nia. apply Z.div_le_mono; [done|nia].
Qed.

(** When the shrink condition holds, the halved table has room for all
    remaining entries, so the rehash into it does not grow again. *)
Lemma threshold_value_half sz q c :
  0 <= c -> 0 < sz -> sz = 2 * (sz / 2) ->
  c < threshold_value sz q / 4 ->
  c <= threshold_value (sz / 2) q.
Proof.
  unfold threshold_value.
  set (p := Qnum q). set (d := Z.pos (Qden q)). set (s := sz / 2).
  intros Hc Hsz Heven Hlt. assert (0 < d) as Hd by done.
  assert (4 <= (sz * p) ÷ d) as HT.
  { assert (1 <= (sz * p) ÷ d / 4) by lia.
    destruct (decide (4 <= (sz * p) ÷ d)); [done|].
    assert ((sz * p) ÷ d / 4 <= 0); [|lia].
    destruct (decide (0 <= (sz * p) ÷ d)).
    - rewrite Z.div_small; lia.
    - apply Z.lt_le_incl, Z.div_lt_upper_bound; lia. }
  assert (0 <= sz * p) as Hnum.
  { destruct (decide (0 <= sz * p)) as [|Hneg]; [done|exfalso].
    assert (0 <= (- (sz * p)) ÷ d) by (apply Z.quot_pos; lia).
    rewrite Z.quot_opp_l in * by lia. lia. }
  assert (0 <= s * p) as Hnum' by nia.
  rewrite Z.quot_div_nonneg in * by lia.
  assert (4 * (c + 1) <= sz * p / d) as H4.
  { assert (c + 1 <= sz * p / d / 4) by lia.
    pose proof (Z.mul_div_le (sz * p / d) 4). lia. }
  pose proof (Z.mul_div_le (sz * p) d Hd) as Hfloor.
  assert (c + 1 <= s * p / d); [|lia].
  apply Z.div_le_lower_bound; [done|]. nia.
Qed.

Lemma threshold_quarter_le t c : 0 <= c -> c < t / 4 -> c <= t /\ 0 < t.
Proof.
  intros Hc Hlt. assert (1 <= t / 4) by lia.
  destruct (decide (4 <= t)) as [|Hsmall].
  - pose proof (Z.mul_div_le t 4). lia.
  - exfalso. destruct (decide (0 <= t)).
    + rewrite Z.div_small in *; lia.
    + assert (t / 4 < 0) by (apply Z.div_lt_upper_bound; lia). lia.
Qed.

(** The shrink target has a threshold with room for the remaining entries:
    either the threshold in force is that of the current size, or it is
    that of a smaller size. *)
Lemma shrink_has_room sz base lf t c :
  compute_threshold base lf = Ok t ->
  0 <= c -> c < t / 4 ->
  0 < sz -> sz = 2 * (sz / 2) ->
  0 < base -> (base = sz \/ base <= sz / 2) ->
  forall t', compute_threshold (sz / 2) lf = Ok t' -> c <= t'.
Proof.
  intros (q & -> & _ & ->)%compute_threshold_Ok Hc Hlt Hsz Heven Hbase Hcase t' Ht'.
  apply compute_threshold_Ok in Ht' as (q' & [= <-] & _ & ->).
  destruct Hcase as [->|Hle].
  - by apply threshold_value_half.
  - destruct (threshold_quarter_le _ _ Hc Hlt) as [Hct Htpos].
    pose proof (threshold_value_pos base q Hbase Htpos).
    pose proof (threshold_value_mono base (sz / 2) q ltac:(lia) ltac:(lia)). lia.
Qed.

(** With a load factor of at least one half the threshold is not negative
    and grows by at least one when the size doubles. *)
Lemma threshold_value_double sz q :
  (1 # 2 <= q)%Q -> 0 < sz ->
  0 <= threshold_value sz q /\
  threshold_value sz q + 1 <= threshold_value (sz * 2) q.
Proof.
  unfold threshold_value, Qle. simpl.
  set (p := Qnum q). set (d := Z.pos (Qden q)).
  intros Hlf Hsz. assert (0 < d) as Hd by done.
  assert (0 <= sz * p) as Ha by nia.
  rewrite !Z.quot_div_nonneg by nia.
  pose proof (Z.mul_div_le (sz * p) d Hd) as Hfloor.
  pose proof (Z.div_pos (sz * p) d Ha Hd) as Ht.
  split; [done|].
  apply Z.div_le_lower_bound; [done|].
  destruct (decide (sz * p / d = 0)) as [Hz|Hnz]; [rewrite Hz; nia|nia].
Qed.

Lemma compute_threshold_keeps_overflowing sz sz' s0 t0 lf :
  compute_threshold s0 lf = Ok t0 ->
  compute_threshold sz lf = Raise OverflowError -> 0 < sz <= sz' ->
  compute_threshold sz' lf = Raise OverflowError.
Proof.
  intros H0 Hover Hle.
  destruct (compute_threshold sz' lf) as [t'|e] eqn:Hc'.
  - destruct (compute_threshold_smaller sz' sz lf t' Hc' Hle) as [t Ht]. congruence.
  - by rewrite (compute_threshold_error s0 sz' lf t0 e H0 Hc').
Qed.

(** ** Scanning a chain *)

Lemma key_eq_true k key : key_eq k key = true <-> self_equal key = true /\ k = key.
Proof.
  unfold key_eq. rewrite andb_true_iff, bool_decide_eq_true. split.
  - intros [Hs ->]. done.
  - intros [Hs ->]. done.
Qed.

Lemma self_equal_keys_app l1 l2 :
  self_equal_keys (l1 ++ l2) = self_equal_keys l1 ++ self_equal_keys l2.
Proof. apply filter_app. Qed.

Lemma elem_of_self_equal_keys k l :
  k ∈ self_equal_keys l <-> self_equal k = true /\ k ∈ l.
Proof. unfold self_equal_keys. by rewrite list_elem_of_filter. Qed.

Lemma chain_find_None key (b : chain) :
  chain_find key b = None <-> self_equal key = false \/ key ∉ b.*1.
Proof.
  induction b as [|[k v] b IH]; simpl.
  - split; [intros _; right; apply not_elem_of_nil|done].
  - rewrite not_elem_of_cons. destruct (key_eq k key) eqn:Hk.
    + apply key_eq_true in Hk as [Hs ->]. split; [done|].
      intros [?|[? _]]; congruence.
    + destruct (chain_find key b) as [[i v']|].
      * split; [done|]. intros Hor. enough (Some (i, v') = None) by done.
        apply IH. destruct Hor as [Hs|[_ Hn]]; [by left|by right].
      * split; [|done]. intros _. destruct (proj1 IH eq_refl) as [?|Hn]; [by left|].
        destruct (self_equal key) eqn:Hs; [|by left]. right. split; [|done].
        intros ->. assert (key_eq k k = true) by by apply key_eq_true. congruence.
Qed.

Lemma chain_find_Some key (b : chain) i v :
  chain_find key b = Some (i, v) ->
  self_equal key = true /\
  exists l1 l2, b = l1 ++ (key, v) :: l2 /\ length l1 = i /\ key ∉ l1.*1.
Proof.
  revert i. induction b as [|[k v0] b IH]; intros i; simpl; [done|].
  destruct (key_eq k key) eqn:Hk.
  - apply key_eq_true in Hk as [Hs ->]. intros [= <- <-]. split; [done|].
    exists [], b. split_and!; [done..|]. apply not_elem_of_nil.
  - destruct (chain_find key b) as [[j v']|] eqn:Hf; [|done].
    intros [= <- <-]. destruct (IH j eq_refl) as (Hs & l1 & l2 & -> & <- & Hn).
    split; [done|].
    exists ((k, v0) :: l1), l2. split_and!; [done..|].
    simpl. rewrite not_elem_of_cons. split; [|done].
    intros ->. assert (key_eq k k = true) by by apply key_eq_true. congruence.
Qed.

(** In a list without repeated self-equal keys, a self-equal key occurs
    at most once. *)
Lemma self_equal_key_unique (l1 l2 : chain) key v :
  NoDup (self_equal_keys (l1 ++ (key, v) :: l2).*1) -> self_equal key = true ->
  (key ∉ l1.*1) /\ (key ∉ l2.*1) /\ NoDup (self_equal_keys (l1 ++ l2).*1).
Proof.
  rewrite !fmap_app, fmap_cons, !self_equal_keys_app. simpl. intros Hnd Hs.
  unfold self_equal_keys at 2 in Hnd. rewrite filter_cons_True in Hnd by done.
  fold (self_equal_keys l2.*1) in Hnd.
  apply NoDup_app in Hnd as (Hnd1 & Hdisj & [Hn2 Hnd2]%NoDup_cons). split_and!.
  - intros Hin. apply (Hdisj key); [by apply elem_of_self_equal_keys|by left].
  - intros Hin. apply Hn2. by apply elem_of_self_equal_keys.
  - apply NoDup_app. split_and!; [done| |done].
    intros x Hx Hx2. apply (Hdisj x Hx). by right.
Qed.

Lemma chain_find_elem key v (b : chain) :
  NoDup (self_equal_keys b.*1) -> self_equal key = true ->
  (key, v) ∈ b <-> exists i, chain_find key b = Some (i, v).
Proof.
  intros Hnd Hs. split.
  - intros Hin. destruct (chain_find key b) as [[i v']|] eqn:Hf.
    + exists i. f_equal. f_equal.
      destruct (chain_find_Some _ _ _ _ Hf) as (_ & l1 & l2 & -> & _ & _).
      destruct (self_equal_key_unique _ _ _ _ Hnd Hs) as (Hn1 & Hn2 & _).
      apply elem_of_app in Hin as [Hin|Hin].
      { destruct Hn1. by apply (list_elem_of_fmap_2 fst) in Hin. }
      apply elem_of_cons in Hin as [[= ->]|Hin]; [done|].
      destruct Hn2. by apply (list_elem_of_fmap_2 fst) in Hin.
    + apply chain_find_None in Hf as [?|Hf]; [congruence|]. destruct Hf.
      by apply (list_elem_of_fmap_2 fst) in Hin.
  - intros [i Hf]. destruct (chain_find_Some _ _ _ _ Hf) as (_ & l1 & l2 & -> & _).
    apply elem_of_app. right. apply elem_of_cons. by left.
Qed.

(** A chain after [bucket[i] = (key, value)] at the position of [key]. *)
Lemma chain_update_ok sz slot key v (b : chain) i v0 h :
  chain_ok sz slot b -> chain_find key b = Some (i, v0) ->
  hash key = Some h -> h mod sz = Z.of_nat slot ->
  chain_ok sz slot (<[i := (key, v)]> b) /\
  length (<[i := (key, v)]> b) = length b /\
  (<[i := (key, v)]> b).*1 = b.*1 /\
  forall k' v', (k', v') ∈ <[i := (key, v)]> b <->
                if decide (k' = key) then v' = v else (k', v') ∈ b.
Proof.
  intros [Hnd Hh] Hf Hk Hm.
  destruct (chain_find_Some _ _ _ _ Hf) as (Hs & l1 & l2 & -> & <- & _).
  replace (<[length l1 := (key, v)]> (l1 ++ (key, v0) :: l2))
    with (l1 ++ (key, v) :: l2)
    by (rewrite insert_app_r_alt, Nat.sub_diag by lia; done).
  destruct (self_equal_key_unique _ _ _ _ Hnd Hs) as (Hn1 & Hn2 & _).
  assert ((l1 ++ (key, v) :: l2).*1 = (l1 ++ (key, v0) :: l2).*1) as Hkeys
    by by rewrite !fmap_app, !fmap_cons.
  split_and!.
  - split; [by rewrite Hkeys|].
    intros k' v' [Hin|[[= -> ->]|Hin]%elem_of_cons]%elem_of_app; [|by eauto|].
    + apply (Hh k' v'). apply elem_of_app. by left.
    + apply (Hh k' v'). apply elem_of_app. right. apply elem_of_cons. by right.
  - by rewrite !length_app.
  - done.
  - intros k' v'. case_decide as Hd; rewrite !elem_of_app, !elem_of_cons.
    + subst k'. split; [|intros ->; by auto].
      intros [Hin|[[= ->]|Hin]]; [|done|].
      * destruct Hn1. by apply (list_elem_of_fmap_2 fst) in Hin.
      * destruct Hn2. by apply (list_elem_of_fmap_2 fst) in Hin.
    + split; (intros [?|[[= ? ?]|?]]; [by left|done|by right; right]).
Qed.

(** A chain after [bucket.append((key, value))] for a key the scan did not
    find. *)
Lemma chain_append_ok sz slot key v (b : chain) h :
  chain_ok sz slot b -> chain_find key b = None ->
  hash key = Some h -> h mod sz = Z.of_nat slot ->
  chain_ok sz slot (b ++ [(key, v)]).
Proof.
  intros [Hnd Hh] Hf%chain_find_None Hk Hm. split.
  - rewrite fmap_app, self_equal_keys_app. simpl.
    destruct (self_equal key) eqn:Hs.
    + destruct Hf as [?|Hf]; [congruence|].
      unfold self_equal_keys at 2. rewrite filter_cons_True by done.
      apply NoDup_app. split_and!; [done| |apply NoDup_singleton].
      intros x [_ Hx]%elem_of_self_equal_keys ->%list_elem_of_singleton. done.
    + unfold self_equal_keys at 2. rewrite filter_cons_False by congruence.
      by rewrite filter_nil, app_nil_r.
  - intros k' v' [Hin|[= -> ->]%list_elem_of_singleton]%elem_of_app; by eauto.
Qed.

(** A chain after [del bucket[i]] at the position of [key]. *)
Lemma chain_delete_ok sz slot key (b : chain) i v0 :
  chain_ok sz slot b -> chain_find key b = Some (i, v0) ->
  chain_ok sz slot (base.delete i b) /\
  S (length (base.delete i b)) = length b /\
  forall k' v', (k', v') ∈ base.delete i b <-> k' ≠ key /\ (k', v') ∈ b.
Proof.
  intros [Hnd Hh] Hf.
  destruct (chain_find_Some _ _ _ _ Hf) as (Hs & l1 & l2 & -> & <- & _).
  rewrite delete_middle.
  destruct (self_equal_key_unique _ _ _ _ Hnd Hs) as (Hn1 & Hn2 & Hnd').
  split_and!.
  - split; [done|].
    intros k' v' [Hin|Hin]%elem_of_app; apply (Hh k' v'), elem_of_app;
      [by left|right; apply elem_of_cons; by right].
  - rewrite !length_app. simpl. lia.
  - intros k' v'. rewrite !elem_of_app, elem_of_cons. split.
    + intros [Hin|Hin]; (split; [|by auto]); intros ->.
      * destruct Hn1. by apply (list_elem_of_fmap_2 fst) in Hin.
      * destruct Hn2. by apply (list_elem_of_fmap_2 fst) in Hin.
    + intros [Hne [?|[[= ? ?]|?]]]; [by left|done|by right].
Qed.

(** ** The table as a sequence of chains *)

Lemma elem_of_concat {A} (x : A) (t : list (list A)) :
  x ∈ concat t <-> exists i b, t !! i = Some b /\ x ∈ b.
Proof.
  induction t as [|c t IH]; simpl.
  - split; [by intros ?%elem_of_nil|by intros (i & b & ? & _)].
  - rewrite elem_of_app, IH. split.
    + intros [Hc|(i & b & Hi & Hb)]; [by exists O, c|by exists (S i), b].
    + intros ([|i] & b & Hi & Hb); simpl in Hi; [left; congruence|right; eauto].
Qed.

Lemma length_concat_insert {A} (t : list (list A)) i b b' :
  t !! i = Some b ->
  (length (concat (<[i := b']> t)) + length b = length (concat t) + length b')%nat.
Proof.
  revert i. induction t as [|c t IH]; intros [|i] Hi; simpl in *; try done.
  - injection Hi as ->. rewrite !length_app. lia.
  - rewrite !length_app. specialize (IH i Hi). lia.
Qed.

Lemma concat_insert_append {A} (t : list (list A)) i b x :
  t !! i = Some b ->
  concat (<[i := b ++ [x]]> t) ≡ₚ x :: concat t.
Proof.
  revert i. induction t as [|c t IH]; intros [|i] Hi; simpl in *; try done.
  - injection Hi as ->. rewrite <- app_assoc. simpl.
    by rewrite <- Permutation_middle.
  - rewrite (IH i Hi). by rewrite Permutation_middle.
Qed.

Lemma concat_replicate_nil {A} n : concat (replicate n (@nil A)) = [].
Proof. induction n; simpl; done. Qed.

Lemma length_concat_sum {A} (t : list (list A)) :
  length (concat t) = sum_list (length <$> t).
Proof.
  induction t as [|b t IH]; simpl; [done|]. by rewrite length_app, IH.
Qed.

Lemma keys_insert_same (t : list chain) slot (b b' : chain) :
  t !! slot = Some b -> b'.*1 = b.*1 ->
  (concat (<[slot := b']> t)).*1 = (concat t).*1.
Proof.
  revert slot. induction t as [|c t IH]; intros [|slot] Hb Heq; simpl in *; try done.
  - injection Hb as ->. by rewrite !fmap_app, Heq.
  - by rewrite !fmap_app, (IH slot Hb Heq).
Qed.

Lemma elem_of_items self x :
  x ∈ items self <-> exists i b, table self !! i = Some b /\ x ∈ b.
Proof. apply elem_of_concat. Qed.

Lemma elem_of_keys self key :
  key ∈ keys self <-> exists v, (key, v) ∈ items self.
Proof.
  unfold keys. rewrite list_elem_of_fmap. split.
  - intros ([k v] & -> & Hin). by exists v.
  - intros [v Hin]. by exists (key, v).
Qed.

Lemma keys_dec self key : key ∈ keys self \/ key ∉ keys self.
Proof. destruct (decide (key ∈ keys self)); auto. Qed.

Lemma matched_dec self key : matched self key \/ ~ matched self key.
Proof.
  unfold matched. destruct (self_equal key); [|right; by intros [? _]].
  destruct (keys_dec self key); [by left|right; by intros [_ ?]].
Qed.


(** ** Consequences of the invariant *)

Lemma pow2_divide a b : pow2 a -> pow2 b -> a <= b -> (a | b).
Proof.
  intros [e ->] [f ->] Hle.
  assert (Z.of_nat e <= Z.of_nat f) as Hef.
  { destruct (decide (Z.of_nat e <= Z.of_nat f)); [done|].
    assert (2 ^ Z.of_nat f < 2 ^ Z.of_nat e) by (apply Z.pow_lt_mono_r; lia). lia. }
  exists (2 ^ (Z.of_nat f - Z.of_nat e)).
  rewrite <- Z.pow_add_r by lia. f_equal. lia.
Qed.

Lemma Inv_chains_le self : Inv self -> 0 < chains self <= size self.
Proof.
  intros HI. pose proof (pow2_pos _ (inv_len _ HI)).
  destruct (inv_size _ HI) as [Hi|[Hlt _]]; [unfold intact, chains in *|]; lia.
Qed.

Lemma Inv_intact_iff self :
  Inv self ->
  intact self <->
  exists t, compute_threshold (size self) (load_factor self) = Ok t.
Proof.
  intros HI. split.
  - intros Hi. exists (threshold self). rewrite <- Hi. apply HI.
  - intros [t Ht]. destruct (inv_size _ HI) as [Hi|[_ Hover]]; [done|congruence].
Qed.

Lemma Inv_not_intact self :
  Inv self -> ~ intact self ->
  chains self < size self /\
  compute_threshold (size self) (load_factor self) = Raise OverflowError.
Proof. intros HI Hn. by destruct (inv_size _ HI). Qed.

Lemma intact_dec self : intact self \/ ~ intact self.
Proof. unfold intact. lia. Qed.

Lemma Inv_entry_slot self k v i b :
  Inv self -> table self !! i = Some b -> (k, v) ∈ b ->
  exists h, hash k = Some h /\ h mod chains self = Z.of_nat i.
Proof. intros HI Hi Hin. by apply (proj2 (inv_chain _ HI i b Hi) k v). Qed.

Lemma Inv_stored_hashable self k v :
  Inv self -> (k, v) ∈ items self -> is_Some (hash k).
Proof.
  intros HI (i & b & Hi & Hin)%elem_of_items.
  destruct (Inv_entry_slot _ _ _ _ _ HI Hi Hin) as (h & Hh & _). by exists h.
Qed.

(** The bucket that the operations look at for a hashable key: the chain
    where the key is stored if it is stored at all, unless the index is
    beyond the chains. *)
Lemma Inv_bucket self key h :
  Inv self -> hash key = Some h ->
  let index := h mod size self in
  0 <= index < size self /\
  _hash self key = Ok index /\
  (chains self <= index -> list_getitem (table self) index = Raise IndexError) /\
  (index < chains self ->
   exists b,
     list_getitem (table self) index = Ok (Z.to_nat index, b) /\
     table self !! Z.to_nat index = Some b /\
     chain_ok (chains self) (Z.to_nat index) b /\
     h mod chains self = index /\
     forall v, (key, v) ∈ items self <-> (key, v) ∈ b).
Proof.
  intros HI Hk index.
  pose proof (pow2_pos _ (inv_pow2 _ HI)) as Hpos.
  pose proof (Inv_chains_le _ HI) as Hle.
  assert (0 <= index < size self) as Hidx by (apply Z.mod_pos_bound; lia).
  assert ((index <? 0) = false) as Hneg by (apply Z.ltb_ge; lia).
  split; [done|]. split_and!.
  - unfold _hash. rewrite Hk.
    destruct (Z.eqb_spec (size self) 0); [lia|done].
  - intros Hout. unfold list_getitem. cbv zeta. rewrite !Hneg.
    rewrite lookup_ge_None_2; [done|]. unfold chains in Hout. lia.
  - intros Hin.
    destruct (lookup_lt_is_Some_2 (table self) (Z.to_nat index)) as [b Hb].
    { unfold chains in Hin. lia. }
    assert (h mod chains self = index) as Hm.
    { rewrite <- (Z.mod_mod_divide h (size self) (chains self)).
      - apply Z.mod_small. fold index. lia.
      - apply pow2_divide; [apply HI|apply HI|lia]. }
    exists b. split_and!.
    + unfold list_getitem. cbv zeta. by rewrite !Hneg, Hb.
    + done.
    + by apply (inv_chain _ HI).
    + done.
    + intros v. rewrite elem_of_items. split; [|by eauto].
      intros (i & c & Hi & Hc).
      destruct (Inv_entry_slot _ _ _ _ _ HI Hi Hc) as (h' & Hh' & Hm').
      rewrite Hk in Hh'. injection Hh' as <-.
      assert (i = Z.to_nat index) as -> by lia.
      congruence.
Qed.

Lemma intact_in_range self h :
  Inv self -> intact self -> h mod size self < chains self.
Proof.
  intros HI Hi. pose proof (pow2_pos _ (inv_pow2 _ HI)).
  unfold intact, chains in *. rewrite Hi. apply Z.mod_pos_bound. lia.
Qed.

Lemma Inv_set_bucket self slot b b' c :
  Inv self -> table self !! slot = Some b ->
  chain_ok (chains self) slot b' ->
  c + Z.of_nat (length b) = count self + Z.of_nat (length b') ->
  let self' := set_count c (set_bucket slot b' self) in
  Inv self' /\
  forall x, x ∈ items self' <->
            x ∈ b' \/ exists j bj, j ≠ slot /\ table self !! j = Some bj /\ x ∈ bj.
Proof.
  intros HI Hb Hok Hc self'.
  assert (slot < length (table self))%nat as Hlt by by eapply lookup_lt_Some.
  assert (chains self' = chains self) as Hch
    by (unfold chains; simpl; by rewrite length_insert).
  split.
  - split; rewrite ?Hch.
    + apply HI.
    + apply HI.
    + apply HI.
    + unfold intact. fold (chains self'). rewrite Hch. apply HI.
    + unfold items. simpl.
      pose proof (length_concat_insert (table self) slot b b' Hb).
      pose proof (inv_count _ HI) as Hcnt. unfold items in Hcnt. lia.
    + intros i bi. simpl. destruct (decide (i = slot)) as [->|Hne].
      * rewrite list_lookup_insert_eq by done. by intros [= <-].
      * rewrite list_lookup_insert_ne by done. apply HI.
  - intros x. rewrite elem_of_items. simpl. split.
    + intros (i & bi & Hi & Hin). destruct (decide (i = slot)) as [->|Hne].
      * rewrite list_lookup_insert_eq in Hi by done. left. congruence.
      * rewrite list_lookup_insert_ne in Hi by done. right. eauto.
    + intros [Hin|(j & bj & Hne & Hj & Hin)].
      * exists slot, b'. by rewrite list_lookup_insert_eq.
      * exists j, bj. by rewrite list_lookup_insert_ne.
Qed.

Lemma Inv_other_slot self key h j bj v :
  Inv self -> hash key = Some h -> j ≠ Z.to_nat (h mod chains self) ->
  table self !! j = Some bj -> (key, v) ∉ bj.
Proof.
  intros HI Hk Hne Hj Hin.
  destruct (Inv_entry_slot _ _ _ _ _ HI Hj Hin) as (h' & Hh' & Hm).
  rewrite Hk in Hh'. injection Hh' as <-. lia.
Qed.

(** Replacing the chain of [key] by one that maps [key] to [v] and agrees
    with the old one elsewhere. *)
Lemma set_bucket_put self key v h b b' c :
  Inv self -> hash key = Some h ->
  let slot := Z.to_nat (h mod chains self) in
  table self !! slot = Some b ->
  chain_ok (chains self) slot b' ->
  c + Z.of_nat (length b) = count self + Z.of_nat (length b') ->
  (forall k' v', (k', v') ∈ b' <->
                 if decide (k' = key) then v' = v else (k', v') ∈ b) ->
  let self' := set_count c (set_bucket slot b' self) in
  Inv self' /\
  forall k' v', (k', v') ∈ items self' <->
                if decide (k' = key) then v' = v else (k', v') ∈ items self.
Proof.
  intros HI Hk slot Hb Hok Hc Hb' self'.
  destruct (Inv_set_bucket self slot b b' c HI Hb Hok Hc) as [HI' Hit].
  split; [done|]. intros k' v'. fold self' in Hit. rewrite Hit, Hb'.
  destruct (decide (k' = key)) as [->|Hd].
  - split; [|by left]. intros [?|(j & bj & Hne & Hj & Hin)]; [done|].
    by destruct (Inv_other_slot self key h j bj v' HI Hk Hne Hj).
  - rewrite elem_of_items. split.
    + intros [?|(j & bj & Hne & Hj & Hin)]; eauto.
    + intros (j & bj & Hj & Hin). destruct (decide (j = slot)) as [->|Hne].
      * left. congruence.
      * right. eauto.
Qed.

(** Replacing the chain of [key] by one without [key] that agrees with the
    old one elsewhere. *)
Lemma set_bucket_remove self key h b b' c :
  Inv self -> hash key = Some h ->
  let slot := Z.to_nat (h mod chains self) in
  table self !! slot = Some b ->
  chain_ok (chains self) slot b' ->
  c + Z.of_nat (length b) = count self + Z.of_nat (length b') ->
  (forall k' v', (k', v') ∈ b' <-> k' ≠ key /\ (k', v') ∈ b) ->
  let self' := set_count c (set_bucket slot b' self) in
  Inv self' /\
  forall k' v', (k', v') ∈ items self' <-> k' ≠ key /\ (k', v') ∈ items self.
Proof.
  intros HI Hk slot Hb Hok Hc Hb' self'.
  destruct (Inv_set_bucket self slot b b' c HI Hb Hok Hc) as [HI' Hit].
  split; [done|]. intros k' v'. fold self' in Hit. rewrite Hit, Hb'.
  rewrite elem_of_items. split.
  - intros [[Hne Hin]|(j & bj & Hne & Hj & Hin)]; [by eauto|].
    split; [|by eauto]. intros ->.
    by destruct (Inv_other_slot self key h j bj v' HI Hk Hne Hj).
  - intros (Hd & j & bj & Hj & Hin). destruct (decide (j = slot)) as [->|Hne].
    + left. split; [done|congruence].
    + right. eauto.
Qed.

(** A scan of the right chain finds exactly the matched keys. *)
Lemma chain_find_matched self key h b :
  Inv self -> hash key = Some h ->
  table self !! Z.to_nat (h mod chains self) = Some b ->
  (matched self key <-> exists i v, chain_find key b = Some (i, v)) /\
  (forall i v, chain_find key b = Some (i, v) -> (key, v) ∈ items self) /\
  (forall v, self_equal key = true -> (key, v) ∈ items self ->
             exists i, chain_find key b = Some (i, v)).
Proof.
  intros HI Hk Hb.
  assert (forall v, (key, v) ∈ items self <-> (key, v) ∈ b) as Hkey.
  { intros v. rewrite elem_of_items. split; [|by eauto].
    intros (i & c & Hi & Hc).
    destruct (decide (i = Z.to_nat (h mod chains self))) as [->|Hne]; [congruence|].
    by destruct (Inv_other_slot self key h i c v HI Hk Hne Hi). }
  pose proof (proj1 (inv_chain _ HI _ _ Hb)) as Hnd.
  assert (forall i v, chain_find key b = Some (i, v) -> (key, v) ∈ items self) as Hfound.
  { intros i v Hf. apply Hkey.
    destruct (chain_find_Some _ _ _ _ Hf) as (_ & l1 & l2 & -> & _).
    apply elem_of_app. right. apply elem_of_cons. by left. }
  split_and!; [|done|].
  - split.
    + intros [Hs [v Hin%Hkey]%elem_of_keys].
      apply (chain_find_elem _ _ _ Hnd Hs) in Hin as [i Hf]. eauto.
    + intros (i & v & Hf). split; [by destruct (chain_find_Some _ _ _ _ Hf)|].
      apply elem_of_keys. exists v. by apply (Hfound i).
  - intros v Hs Hin%Hkey. by apply (chain_find_elem _ _ _ Hnd Hs).
Qed.

(** ** The update-or-append part of [put] *)

Lemma put_entry_unhashable self key v :
  hash key = None -> put_entry key v self = Some (Raise TypeError, self).
Proof. intros Hk. unfold put_entry, bind, lift, _hash. by rewrite Hk. Qed.

Lemma put_entry_out_of_range self key v h :
  Inv self -> hash key = Some h -> chains self <= h mod size self ->
  put_entry key v self = Some (Raise IndexError, self).
Proof.
  intros HI Hk Hout.
  destruct (Inv_bucket self key h HI Hk) as (_ & Hhash & Hget & _).
  unfold put_entry, bind, lift. by rewrite Hhash, Hget.
Qed.

Lemma put_entry_ok self key v h :
  Inv self -> hash key = Some h -> h mod size self < chains self ->
  exists self',
    put_entry key v self = Some (Ok tt, self') /\
    Inv self' /\
    size self' = size self /\
    load_factor self' = load_factor self /\
    threshold self' = threshold self /\
    chains self' = chains self /\
    put_result key v self self' /\
    (exists slot b b',
       table self !! slot = Some b /\
       table self' = <[slot := b']> (table self) /\
       (b'.*1 = b.*1 \/ b' = b ++ [(key, v)])).
Proof.
  intros HI Hk Hin.
  destruct (Inv_bucket self key h HI Hk) as (Hidx & Hhash & _ & Hrange).
  destruct (Hrange Hin) as (b & Hget & Hb & Hok & Hm & Hkey).
  assert (h mod chains self = Z.of_nat (Z.to_nat (h mod size self))) as Hm' by lia.
  assert (Z.to_nat (h mod size self) = Z.to_nat (h mod chains self)) as Hslot
    by by rewrite Hm.
  rewrite Hslot in Hb.
  destruct (chain_find_matched self key h b HI Hk Hb) as (Hmatch & _ & _).
  unfold put_entry, bind, lift. rewrite Hhash, Hget, Hslot.
  destruct (chain_find key b) as [[i v0]|] eqn:Hf.
  - rewrite Hslot in Hm'.
    destruct (chain_update_ok _ _ key v b i v0 h (inv_chain _ HI _ _ Hb) Hf Hk Hm')
      as (Hok' & Hlen & Hkeys & Hb').
    destruct (set_bucket_put self key v h b _ (count self) HI Hk Hb Hok')
      as [HI' Hit]; [lia|done|].
    eexists. split; [reflexivity|]. split_and!; [| | | | | |by eauto 10].
    + destruct HI'. by split.
    + done.
    + done.
    + done.
    + unfold chains. simpl. by rewrite length_insert.
    + split; [by intros _|]. intros Hn. destruct Hn. apply Hmatch. eauto.
  - rewrite Hslot in Hm'.
    pose proof (chain_append_ok _ _ key v b h (inv_chain _ HI _ _ Hb) Hf Hk Hm')
      as Hok'.
    destruct (Inv_set_bucket self (Z.to_nat (h mod chains self)) b
                (b ++ [(key, v)]) (count self + 1) HI Hb Hok') as [HI' _].
    { rewrite length_app. simpl. lia. }
    eexists. split; [reflexivity|]. split_and!; [done..| | |by eauto 10].
    + unfold chains. simpl. by rewrite length_insert.
    + split.
      * intros (i & v0 & ?)%Hmatch. done.
      * intros _. split; [done|]. unfold items. simpl.
        by apply concat_insert_append.
Qed.


(** ** Loops *)

Lemma for_each_app {A} (body : A -> M unit) l1 l2 self :
  for_each body (l1 ++ l2) self = (for_each body l1 ;; for_each body l2) self.
Proof.
  revert self. induction l1 as [|x l1 IH]; intros self; simpl; [reflexivity|].
  unfold bind. destruct (body x self) as [[[[]|e] self1]|]; [|reflexivity..].
  rewrite IH. reflexivity.
Qed.

Lemma for_each_concat {A} (body : A -> M unit) (t : list (list A)) self :
  for_each (fun b => for_each body b) t self = for_each body (concat t) self.
Proof.
  revert self. induction t as [|b t IH]; intros self; simpl; [done|].
  rewrite for_each_app. unfold bind.
  destruct (for_each body b self) as [[[[]|e] self1]|]; [|done..].
  apply IH.
Qed.

(** ** No self-equal key is stored twice *)

Lemma NoDup_concat_keys (t : list chain) :
  (forall i b, t !! i = Some b -> NoDup (self_equal_keys b.*1)) ->
  (forall i j bi bj k, t !! i = Some bi -> t !! j = Some bj ->
                       k ∈ bi.*1 -> k ∈ bj.*1 -> i = j) ->
  NoDup (self_equal_keys (concat t).*1).
Proof.
  induction t as [|c t IH]; intros Hnd Hslot; simpl; [apply NoDup_nil_2|].
  rewrite fmap_app, self_equal_keys_app. apply NoDup_app. split_and!.
  - by apply (Hnd O c).
  - intros k [_ Hc]%elem_of_self_equal_keys [_ Hin]%elem_of_self_equal_keys.
    apply list_elem_of_fmap in Hin as ([k' v] & -> & Hin).
    apply elem_of_concat in Hin as (j & bj & Hj & Hin).
    assert (O = S j) by
      (apply (Hslot O (S j) c bj k'); [done..|by apply (list_elem_of_fmap_2 fst) in Hin]).
    done.
  - apply IH.
    + intros i b Hi. by apply (Hnd (S i) b).
    + intros i j bi bj k Hi Hj Hki Hkj.
      assert (S i = S j) by by apply (Hslot (S i) (S j) bi bj k).
      lia.
Qed.

Lemma NoDup_keys self : Inv self -> NoDup (self_equal_keys (keys self)).
Proof.
  intros HI. apply NoDup_concat_keys.
  - intros i b Hi. by apply (inv_chain _ HI i b Hi).
  - intros i j bi bj k Hi Hj ([k1 v1] & -> & Hin1)%list_elem_of_fmap
      ([k2 v2] & Hk & Hin2)%list_elem_of_fmap. simpl in Hk. subst k2.
    destruct (Inv_entry_slot _ _ _ _ _ HI Hi Hin1) as (h1 & Hh1 & Hm1).
    destruct (Inv_entry_slot _ _ _ _ _ HI Hj Hin2) as (h2 & Hh2 & Hm2).
    simpl in *. rewrite Hh1 in Hh2. injection Hh2 as <-. lia.
Qed.

(** A self-equal key has one value. *)
Lemma items_functional self k v1 v2 :
  Inv self -> self_equal k = true ->
  (k, v1) ∈ items self -> (k, v2) ∈ items self -> v1 = v2.
Proof.
  intros HI Hs H1 H2.
  destruct (Inv_stored_hashable _ _ _ HI H1) as [h Hk].
  pose proof (Inv_chains_le _ HI) as Hle.
  destruct (lookup_lt_is_Some_2 (table self) (Z.to_nat (h mod chains self)))
    as [b Hb].
  { pose proof (Z.mod_pos_bound h (chains self)). unfold chains in *. lia. }
  destruct (chain_find_matched self k h b HI Hk Hb) as (_ & _ & Hfind).
  destruct (Hfind v1 Hs H1) as [i1 Hf1]. destruct (Hfind v2 Hs H2) as [i2 Hf2].
  congruence.
Qed.

Lemma keys_perm self self' :
  items self' ≡ₚ items self -> keys self' ≡ₚ keys self.
Proof. intros Hp. unfold keys. by rewrite Hp. Qed.

Lemma matched_perm self self' key :
  items self' ≡ₚ items self -> matched self' key <-> matched self key.
Proof. intros Hp%keys_perm. unfold matched. by rewrite Hp. Qed.

Lemma put_result_perm key v self self1 self' :
  items self1 ≡ₚ items self -> count self1 = count self ->
  put_result key v self1 self' -> put_result key v self self'.
Proof.
  intros Hp Hc [Hm Hn]. split.
  - intros Hmatch%(matched_perm _ _ _ Hp). destruct (Hm Hmatch) as [Hc' Hit].
    split; [lia|]. intros k' v'. rewrite Hit.
    destruct (decide (k' = key)); [reflexivity|]. by rewrite Hp.
  - intros Hmatch. destruct Hn as [Hc' Hit].
    { by rewrite (matched_perm _ _ _ Hp). }
    split; [lia|]. by rewrite Hit, Hp.
Qed.

(** After a [put] of a self-equal key that returned, the entries are those
    of a mapping updated at the key. *)
Lemma put_result_self_equal key v self self' :
  put_result key v self self' -> self_equal key = true ->
  (forall k' v', (k', v') ∈ items self' <->
                 if decide (k' = key) then v' = v else (k', v') ∈ items self) /\
  count self' = count self + (if decide (key ∈ keys self) then 0 else 1).
Proof.
  intros [Hm Hn] Hs. destruct (decide (key ∈ keys self)) as [Hin|Hnin].
  - destruct Hm as [Hc Hit]; [done|]. split; [done|lia].
  - destruct Hn as [Hc Hit]; [by intros [_ ?]|]. split; [|done].
    intros k' v'. rewrite Hit, elem_of_cons.
    destruct (decide (k' = key)) as [->|Hne].
    + split; [|intros ->; by left]. intros [[= ->]|Hin]; [done|].
      destruct Hnin. apply elem_of_keys. eauto.
    + split; [|by right]. by intros [[= ? ?]|?].
Qed.

(** ** [put] and [_resize] *)

Lemma Inv_fresh new_size lf t :
  pow2 new_size -> compute_threshold new_size lf = Ok t ->
  let self : HashTable K V :=
    {| size := new_size; load_factor := lf; threshold := t;
       count := 0; table := replicate (Z.to_nat new_size) [] |} in
  Inv self /\ intact self /\ items self = [].
Proof.
  intros Hp Ht self. pose proof (pow2_pos _ Hp).
  assert (chains self = new_size) as Hch
    by (unfold chains; simpl; rewrite length_replicate; lia).
  assert (items self = []) as Hit
    by (unfold items; simpl; by rewrite concat_replicate_nil).
  split_and!; [|done|done].
  split; rewrite ?Hch, ?Hit; try done.
  - by left.
  - intros i b [-> _]%lookup_replicate. split; [apply NoDup_nil_2|].
    by intros k v ?%elem_of_nil.
Qed.

Lemma Inv_set_size self new_size :
  Inv self -> pow2 new_size ->
  compute_threshold new_size (load_factor self) = Raise OverflowError ->
  Inv (set_size new_size self) /\ ~ intact (set_size new_size self).
Proof.
  intros HI Hp Hover. pose proof (pow2_pos _ Hp).
  assert (chains self < new_size) as Hlt.
  { destruct (decide (chains self < new_size)); [done|].
    destruct (compute_threshold_smaller _ new_size _ _ (inv_thr _ HI)); [lia|].
    congruence. }
  split.
  - split; try apply HI; [done|]. right. done.
  - unfold intact. simpl. unfold chains in Hlt. lia.
Qed.

(** A table whose last resize failed cannot grow. *)
Lemma torn_cannot_grow self :
  Inv self -> ~ intact self ->
  compute_threshold (size self * 2) (load_factor self) = Raise OverflowError.
Proof.
  intros HI [_ Hover]%Inv_not_intact; [|done].
  pose proof (pow2_pos _ (inv_pow2 _ HI)).
  apply (compute_threshold_keeps_overflowing (size self) _ _ _ _ (inv_thr _ HI) Hover).
  lia.
Qed.

Lemma rehash_loop fuel (L : list entry) :
  put_spec fuel ->
  NoDup (self_equal_keys L.*1) ->
  (forall k v, (k, v) ∈ L -> is_Some (hash k)) ->
  (length L <= fuel)%nat ->
  forall rest done self,
    done ++ rest = L ->
    Inv self -> intact self ->
    items self ≡ₚ done ->
    exists r self',
      for_each (fun '(key, value) => put_fuel fuel key value) rest self
        = Some (r, self') /\
      Inv self' /\
      load_factor self' = load_factor self /\
      (exists j : nat, size self' = size self * 2 ^ Z.of_nat j) /\
      (r = Ok tt /\ intact self' /\ items self' ≡ₚ L \/
       r = Raise OverflowError /\ ~ intact self') /\
      (Z.of_nat (length L) <= threshold self ->
       r = Ok tt /\ size self' = size self /\ threshold self' = threshold self).
Proof.
  intros Hput Hnd Hhash Hfuel.
  induction rest as [|[k v] rest IH]; intros done self HL HI Hi Hit.
  - rewrite app_nil_r in HL. subst done. exists (Ok tt), self. simpl.
    split_and!; [done..| |by left|done]. exists O. simpl. lia.
  - assert ((k, v) ∈ L) as HinL.
    { rewrite <- HL. apply elem_of_app. right. apply elem_of_cons. by left. }
    destruct (Hhash k v HinL) as [h Hk].
    assert (length L = length done + S (length rest))%nat as HlenL
      by (rewrite <- HL, length_app; done).
    assert (length (items self) = length done) as Hlen by by rewrite Hit.
    pose proof (inv_count _ HI) as Hc.
    destruct (Hput self k v h HI Hi Hk) as
      (r1 & self1 & Hrun & HI1 & Hlf1 & [j1 Hsz1] & Hres & Hsame1 & _); [lia|].
    destruct Hres as [(-> & Hi1 & Hres)|(-> & Hi1 & _)].
    + assert (~ matched self k) as Hfresh.
      { intros [Hs Hin]. unfold keys in Hin. rewrite Hit in Hin.
        rewrite <- HL, fmap_app, fmap_cons, self_equal_keys_app in Hnd. simpl in Hnd.
        unfold self_equal_keys at 2 in Hnd. rewrite filter_cons_True in Hnd by done.
        apply NoDup_app in Hnd as (_ & Hdisj & _).
        apply (Hdisj k); [by apply elem_of_self_equal_keys|by left]. }
      destruct (proj2 Hres Hfresh) as [Hc1 Hit1].
      destruct (IH (done ++ [(k, v)]) self1) as
        (r & self' & Hrun' & HI' & Hlf' & [j' Hsz'] & Hres' & Hsame');
        [by rewrite <- app_assoc|done|done| |].
      { rewrite Hit1, Hit. by rewrite Permutation_cons_append. }
      exists r, self'. split_and!.
      * simpl. unfold bind. by rewrite Hrun.
      * done.
      * congruence.
      * exists (j1 + j')%nat.
        rewrite Hsz', Hsz1, Nat2Z.inj_add, Z.pow_add_r by lia. lia.
      * done.
      * intros Hthr. destruct Hsame1 as (_ & Hs1 & Ht1); [lia|].
        rewrite <- Hs1, <- Ht1. apply Hsame'. lia.
    + exists (Raise OverflowError), self1. split_and!.
      * simpl. unfold bind. by rewrite Hrun.
      * done.
      * done.
      * by exists j1.
      * by right.
      * intros Hthr. destruct Hsame1 as (? & _); [lia|done].
Qed.

Lemma _resize_with_spec fuel self new_size :
  put_spec fuel -> Inv self -> pow2 new_size ->
  (length (items self) <= fuel)%nat ->
  exists r self',
    _resize_with (put_fuel fuel) new_size self = Some (r, self') /\
    Inv self' /\
    load_factor self' = load_factor self /\
    (exists j : nat, size self' = new_size * 2 ^ Z.of_nat j) /\
    (r = Ok tt /\ intact self' /\ items self' ≡ₚ items self /\
     count self' = count self \/
     r = Raise OverflowError /\ ~ intact self') /\
    (compute_threshold new_size (load_factor self) = Raise OverflowError ->
     r = Raise OverflowError /\ self' = set_size new_size self) /\
    (forall t, compute_threshold new_size (load_factor self) = Ok t ->
               count self <= t ->
               r = Ok tt /\ size self' = new_size /\ threshold self' = t).
Proof.
  intros Hput HI Hp Hfuel. unfold _resize_with.
  rewrite (_is_power_of_two_pow2 _ Hp). simpl.
  destruct (compute_threshold new_size (load_factor self)) as [t|e] eqn:Ht.
  - rewrite for_each_concat. fold (items self).
    destruct (Inv_fresh new_size (load_factor self) t Hp Ht) as (HI0 & Hi0 & Hit0).
    destruct (rehash_loop fuel (items self) Hput (NoDup_keys _ HI)) with
      (rest := items self) (done := @nil entry)
      (self := mkHashTable (K := K) (V := V) new_size (load_factor self) t 0
                 (replicate (Z.to_nat new_size) []))
      as (r & self' & Hrun & HI' & Hlf & Hj & Hres & Hsame);
      [|done|done|done|done|by rewrite Hit0|].
    { intros k v Hin. by apply (Inv_stored_hashable self k v). }
    exists r, self'. split_and!; [done..| | |].
    + destruct Hres as [(-> & Hi' & Hit')|?]; [left|by right].
      split_and!; [done..|].
      rewrite (inv_count _ HI'), (inv_count _ HI). by rewrite Hit'.
    + done.
    + intros t' [= <-] Hc. apply Hsame. simpl. rewrite <- (inv_count _ HI). done.
  - assert (e = OverflowError) as ->
      by apply (compute_threshold_error _ _ _ _ _ (inv_thr _ HI) Ht).
    destruct (Inv_set_size self new_size HI Hp Ht) as [HI' Hi'].
    exists (Raise OverflowError), (set_size new_size self).
    split_and!; [done..| |by right|done|done].
    exists O. simpl. lia.
Qed.

(** The growth check at the head of [put]. *)
Lemma grow_spec fuel self :
  put_spec fuel -> Inv self -> (length (items self) <= fuel)%nat ->
  exists r self1,
    (if threshold self <=? count self
     then _resize_with (put_fuel fuel) (size self * 2) self
     else ret tt self) = Some (r, self1) /\
    Inv self1 /\
    load_factor self1 = load_factor self /\
    (count self < threshold self -> r = Ok tt /\ self1 = self) /\
    (threshold self <= count self ->
     (exists j : nat, size self1 = size self * 2 * 2 ^ Z.of_nat j) /\
     (r = Ok tt /\ intact self1 /\ items self1 ≡ₚ items self /\
      count self1 = count self \/
      r = Raise OverflowError /\ ~ intact self1) /\
     (compute_threshold (size self * 2) (load_factor self) = Raise OverflowError ->
      r = Raise OverflowError /\ self1 = set_size (size self * 2) self) /\
     (forall t, compute_threshold (size self * 2) (load_factor self) = Ok t ->
                count self <= t ->
                r = Ok tt /\ size self1 = size self * 2 /\ threshold self1 = t)).
Proof.
  intros Hput HI Hfuel.
  destruct (Z.leb_spec (threshold self) (count self)) as [Hge|Hlt].
  - destruct (_resize_with_spec fuel self (size self * 2) Hput HI)
      as (r & self1 & Hrun & HI1 & Hlf1 & Hj & Hres & Hover & Hfit);
      [by apply pow2_double, HI|done|].
    exists r, self1. split_and!; [done..|lia|]. intros _. done.
  - exists (Ok tt), self. split_and!; [done..|lia].
Qed.

Lemma put_fuel_ok fuel : put_spec fuel.
Proof.
  induction fuel as [|fuel IH]; intros self key v h HI Hi Hk Hfuel; [lia|].
  simpl. unfold bind at 1.
  destruct (grow_spec fuel self IH HI) as (r & self1 & -> & HI1 & Hlf1 & Hlt & Hge);
    [lia|].
  destruct (Z.lt_ge_cases (count self) (threshold self)) as [Hc|Hc].
  - destruct (Hlt Hc) as [-> ->].
    destruct (put_entry_ok self key v h HI Hk (intact_in_range _ _ HI Hi))
      as (self' & -> & HI' & Hsz' & Hlf' & Hthr' & Hch' & Hres' & _).
    exists (Ok tt), self'. split_and!; [done..| | |done|lia|lia].
    + exists O. simpl. lia.
    + left. split_and!; [done| |done]. unfold intact in *. fold (chains self').
      fold (chains self) in Hi. lia.
  - destruct (Hge Hc) as ([j Hj] & Hres & Hover & Hfit).
    destruct Hres as [(-> & Hi1 & Hit1 & Hc1)|(-> & Hi1)].
    + destruct (put_entry_ok self1 key v h HI1 Hk (intact_in_range _ _ HI1 Hi1))
        as (self' & -> & HI' & Hsz' & Hlf' & Hthr' & Hch' & Hres' & _).
      exists (Ok tt), self'. split_and!; [done|done|congruence| | |lia| |].
      * exists (S j). rewrite Hsz', Hj, Nat2Z.inj_succ, Z.pow_succ_r by lia. lia.
      * left. split_and!; [done| |by apply (put_result_perm key v self self1)].
        unfold intact in *. fold (chains self'). fold (chains self1) in Hi1. lia.
      * intros _ t Ht Hct. destruct (Hfit t Ht Hct) as (_ & Hs1 & Ht1).
        split_and!; [done|congruence|congruence].
      * intros _ Ho. by destruct (Hover Ho).
    + exists (Raise OverflowError), self1. split_and!; [done..| | |lia| |].
      * exists (S j). rewrite Hj, Nat2Z.inj_succ, Z.pow_succ_r by lia. lia.
      * by right.
      * intros _ t Ht Hct. by destruct (Hfit t Ht Hct).
      * intros _ Ho. by destruct (Hover Ho).
Qed.


(** [put] on any state that satisfies the invariant, with any key. *)
Lemma put_fuel_spec fuel self key v :
  Inv self -> (length (items self) < fuel)%nat ->
  exists r self',
    put_fuel fuel key v self = Some (r, self') /\
    Inv self' /\
    load_factor self' = load_factor self /\
    (exists j : nat, size self' = size self * 2 ^ Z.of_nat j) /\
    (r = Ok tt -> forall h, hash key = Some h -> h mod size self' < chains self') /\
    (count self < threshold self ->
     size self' = size self /\ threshold self' = threshold self /\
     chains self' = chains self /\
     (hash key = None -> r = Raise TypeError /\ self' = self) /\
     (forall h, hash key = Some h -> chains self <= h mod size self ->
                r = Raise IndexError /\ self' = self) /\
     (forall h, hash key = Some h -> h mod size self < chains self ->
                r = Ok tt /\ put_result key v self self')) /\
    (threshold self <= count self ->
     (exists j : nat, size self' = size self * 2 * 2 ^ Z.of_nat j) /\
     (compute_threshold (size self * 2) (load_factor self) = Raise OverflowError ->
      r = Raise OverflowError /\ self' = set_size (size self * 2) self) /\
     (r = Raise OverflowError /\ ~ intact self' \/
      intact self' /\
      (hash key = None ->
       r = Raise TypeError /\ items self' ≡ₚ items self /\
       count self' = count self) /\
      (forall h, hash key = Some h -> r = Ok tt /\ put_result key v self self')) /\
     (forall t, compute_threshold (size self * 2) (load_factor self) = Ok t ->
                count self <= t ->
                size self' = size self * 2 /\ threshold self' = t /\
                r ≠ Raise OverflowError)).
Proof.
  intros HI Hfuel. destruct fuel as [|fuel]; [lia|].
  simpl. unfold bind at 1.
  destruct (grow_spec fuel self (put_fuel_ok fuel) HI)
    as (r & self1 & -> & HI1 & Hlf1 & Hlt & Hge); [lia|].
  destruct (Z.lt_ge_cases (count self) (threshold self)) as [Hc|Hc].
  - destruct (Hlt Hc) as [-> ->]. clear Hlt Hge HI1 Hlf1.
    destruct (hash key) as [h|] eqn:Hk.
    + destruct (Z.lt_ge_cases (h mod size self) (chains self)) as [Hin|Hout].
      * destruct (put_entry_ok self key v h HI Hk Hin)
          as (self' & -> & HI' & Hsz' & Hlf' & Hthr' & Hch' & Hres' & _).
        exists (Ok tt), self'. split_and!; [done..| | | |lia].
        -- exists O. simpl. lia.
        -- intros _ h' [= <-]. rewrite Hsz', Hch'. done.
        -- intros _. split_and!; [done..| |]; intros h' [= <-] ?; [lia|done].
      * rewrite (put_entry_out_of_range self key v h HI Hk Hout).
        exists (Raise IndexError), self. split_and!; [done..| |done| |lia].
        -- exists O. simpl. lia.
        -- intros _. split_and!; [done..| |]; intros h' [= <-] ?; [done|lia].
    + rewrite (put_entry_unhashable self key v Hk).
      exists (Raise TypeError), self. split_and!; [done..| |done| |lia].
      * exists O. simpl. lia.
      * intros _. split_and!; done.
  - destruct (Hge Hc) as ([j Hj] & Hres & Hover & Hfit). clear Hlt Hge.
    assert (exists j' : nat, size self1 = size self * 2 ^ Z.of_nat j') as Hj'.
    { exists (S j). rewrite Hj, Nat2Z.inj_succ, Z.pow_succ_r by lia. lia. }
    destruct Hres as [(-> & Hi1 & Hit1 & Hc1)|(-> & Hi1)].
    + destruct (hash key) as [h|] eqn:Hk.
      * destruct (put_entry_ok self1 key v h HI1 Hk (intact_in_range _ _ HI1 Hi1))
          as (self' & -> & HI' & Hsz' & Hlf' & Hthr' & Hch' & Hres' & _).
        assert (intact self') as Hi'.
        { unfold intact in *. fold (chains self'). fold (chains self1) in Hi1. lia. }
        exists (Ok tt), self'. split_and!; [done|done|congruence| | |lia|].
        -- destruct Hj' as [j' ?]. exists j'. congruence.
        -- intros _ h' _. by apply intact_in_range.
        -- intros _. split_and!.
           ++ exists j. congruence.
           ++ intros Ho. by destruct (Hover Ho).
           ++ right. split_and!; [done|done|].
              intros h' _. split; [done|].
              by apply (put_result_perm key v self self1).
           ++ intros t Ht Hct. destruct (Hfit t Ht Hct) as (_ & Hs1 & Ht1).
              split_and!; [congruence|congruence|done].
      * rewrite (put_entry_unhashable self1 key v Hk).
        exists (Raise TypeError), self1. split_and!; [done..|lia|].
        intros _. split_and!.
        -- by exists j.
        -- intros Ho. by destruct (Hover Ho).
        -- right. split_and!; done.
        -- intros t Ht Hct. destruct (Hfit t Ht Hct) as (_ & Hs1 & Ht1). done.
    + exists (Raise OverflowError), self1. split_and!; [done..|lia|].
      intros _. split_and!.
      * by exists j.
      * done.
      * by left.
      * intros t Ht Hct. by destruct (Hfit t Ht Hct).
Qed.

(** ** [get] and [__contains__] *)

Lemma get_unhashable self key default :
  hash key = None -> get self key default = Raise TypeError.
Proof. intros Hk. unfold get, _hash. by rewrite Hk. Qed.

Lemma get_out_of_range self key default h :
  Inv self -> hash key = Some h -> chains self <= h mod size self ->
  get self key default = Raise IndexError.
Proof.
  intros HI Hk Hout.
  destruct (Inv_bucket self key h HI Hk) as (_ & Hhash & Hget & _).
  unfold get. by rewrite Hhash, Hget.
Qed.

Lemma get_in_range self key default h :
  Inv self -> hash key = Some h -> h mod size self < chains self ->
  (forall v, self_equal key = true -> (key, v) ∈ items self ->
             get self key default = Ok v) /\
  (~ matched self key -> get self key default = Ok default) /\
  (forall r, get self key default = r ->
             r = Ok default \/ exists v, r = Ok v /\ (key, v) ∈ items self).
Proof.
  intros HI Hk Hin.
  destruct (Inv_bucket self key h HI Hk) as (_ & Hhash & _ & Hrange).
  destruct (Hrange Hin) as (b & Hget & Hb & _ & Hm & _).
  rewrite <- Hm in Hb.
  destruct (chain_find_matched self key h b HI Hk Hb) as (Hmatch & Hfound & Hfind).
  unfold get. rewrite Hhash, Hget. split_and!.
  - intros v Hs Hv. destruct (Hfind v Hs Hv) as [i ->]. done.
  - intros Hn. destruct (chain_find key b) as [[i v]|] eqn:Hf; [|done].
    destruct Hn. apply Hmatch. eauto.
  - intros r <-. destruct (chain_find key b) as [[i v]|] eqn:Hf; [|by left].
    right. exists v. split; [done|]. by apply (Hfound i).
Qed.

Lemma get_present self key v default h :
  Inv self -> intact self -> hash key = Some h -> self_equal key = true ->
  (key, v) ∈ items self -> get self key default = Ok v.
Proof.
  intros HI Hi Hk Hs Hin.
  by apply (get_in_range self key default h HI Hk (intact_in_range _ _ HI Hi)).
Qed.

Lemma get_absent self key default h :
  Inv self -> intact self -> hash key = Some h -> ~ matched self key ->
  get self key default = Ok default.
Proof.
  intros HI Hi Hk Hn.
  by apply (get_in_range self key default h HI Hk (intact_in_range _ _ HI Hi)).
Qed.

(** ** [delete] *)

Lemma delete_fuel_spec fuel self key :
  Inv self -> (length (items self) <= fuel)%nat ->
  exists r self',
    delete_fuel fuel key self = Some (r, self') /\
    Inv self' /\
    load_factor self' = load_factor self /\
    (size self' = size self \/
     8 < size self /\ size self' = size self / 2 /\ 8 <= size self') /\
    (hash key = None -> r = Raise TypeError /\ self' = self) /\
    (forall h, hash key = Some h -> chains self <= h mod size self ->
               r = Raise IndexError /\ self' = self) /\
    (forall h, hash key = Some h -> h mod size self < chains self ->
       (~ matched self key -> r = Ok PyNone /\ self' = self) /\
       (matched self key ->
        count self' = count self - 1 /\
        (forall k' v', (k', v') ∈ items self' <->
                       k' ≠ key /\ (k', v') ∈ items self) /\
        (exists v0, (key, v0) ∈ items self /\
                    (r = Ok v0 \/
                     r = Raise OverflowError /\ ~ intact self /\ ~ intact self')) /\
        (8 < size self -> count self - 1 < threshold self / 4 ->
         size self' = size self / 2) /\
        (~ (8 < size self /\ count self - 1 < threshold self / 4) ->
         size self' = size self /\ threshold self' = threshold self /\
         chains self' = chains self) /\
        (intact self -> intact self') /\
        (count self - 1 < threshold self / 4 -> count self' <= threshold self'))).
Proof.
  intros HI Hfuel.
  destruct (hash key) as [h|] eqn:Hk; cycle 1.
  { exists (Raise TypeError), self. split_and!; [|done|done|by left|done..].
    unfold delete_fuel, bind, lift, _hash. by rewrite Hk. }
  destruct (Inv_bucket self key h HI Hk) as (_ & Hhash & Hout & Hrange).
  destruct (Z.lt_ge_cases (h mod size self) (chains self)) as [Hin|Hge]; cycle 1.
  { exists (Raise IndexError), self. split_and!; [|done|done|by left|done|..].
    - unfold delete_fuel, bind, lift. by rewrite Hhash, (Hout Hge).
    - done.
    - intros h' [= <-] ?. lia. }
  destruct (Hrange Hin) as (b & Hget & Hb & Hok & Hm & Hkey).
  assert (Z.to_nat (h mod size self) = Z.to_nat (h mod chains self)) as Hslot
    by by rewrite Hm.
  rewrite Hslot in Hb, Hok.
  destruct (chain_find_matched self key h b HI Hk Hb) as (Hmatch & Hfound & _).
  destruct (chain_find key b) as [[i v0]|] eqn:Hf; cycle 1.
  { exists (Ok PyNone), self. split_and!; [|done|done|by left|done|..].
    - unfold delete_fuel, bind, lift. by rewrite Hhash, Hget, Hf.
    - intros h' [= <-] ?. lia.
    - intros h' _ _. split; [done|]. intros (i & v0 & ?)%Hmatch. done. }
  assert (matched self key) as Hmatched by (apply Hmatch; eauto).
  destruct (chain_delete_ok _ _ key b i v0 Hok Hf) as (Hok' & Hlen & Hb').
  destruct (set_bucket_remove self key h b _ (count self - 1) HI Hk Hb Hok')
    as [HI1 Hit1]; [lia|done|].
  set (self1 := set_count (count self - 1)
                  (set_bucket (Z.to_nat (h mod chains self)) (base.delete i b) self))
    in *.
  assert (chains self1 = chains self) as Hch1.
  { unfold chains. simpl. by rewrite length_insert. }
  assert (delete_fuel fuel key self =
          ((fun self => if (8 <? size self) && (count self <? threshold self / 4)
                        then _resize fuel (Z.max 8 (size self / 2)) self
                        else ret tt self) ;; ret v0) self1) as ->.
  { unfold delete_fuel, bind, lift. rewrite Hhash, Hget, Hslot, Hf. reflexivity. }
  unfold bind.
  change (size self1) with (size self). change (threshold self1) with (threshold self).
  change (count self1) with (count self - 1).
  pose proof (inv_count _ HI) as Hcnt. pose proof (inv_count _ HI1) as Hcnt1.
  change (count self1) with (count self - 1) in Hcnt1.
  pose proof (Hfound i v0 eq_refl) as Hstored.
  destruct ((8 <? size self) && (count self - 1 <? threshold self / 4)) eqn:Hshrink.
  - apply andb_prop in Hshrink as [Hbig%Z.ltb_lt Hfew%Z.ltb_lt].
    destruct (pow2_half _ (inv_pow2 _ HI) Hbig) as (Hp & H8 & Heven).
    rewrite Z.max_r by done.
    destruct (_resize_with_spec fuel self1 (size self / 2) (put_fuel_ok fuel) HI1 Hp)
      as (r & self' & Hrun & HI' & Hlf' & _ & Hres & Hover & Hexact); [lia|].
    unfold _resize. rewrite Hrun.
    change (load_factor self1) with (load_factor self) in *.
    change (count self1) with (count self - 1) in *.
    pose proof (Inv_chains_le _ HI) as Hle.
    assert (forall t', compute_threshold (size self / 2) (load_factor self) = Ok t' ->
                       count self - 1 <= t') as Hroom.
    { apply (shrink_has_room (size self) (chains self) _ (threshold self));
        [apply HI|lia|done|lia|done|lia|].
      destruct (inv_size _ HI) as [Hi|[Hlt _]]; [left; apply Hi|right].
      assert (chains self * 2 <= size self); [|lia].
      apply pow2_lt_double; [apply HI|apply HI|done]. }
    destruct (compute_threshold (size self / 2) (load_factor self)) as [t'|e] eqn:Ht'.
    + destruct (Hexact t' eq_refl (Hroom t' eq_refl)) as (-> & Hsz' & Hthr').
      destruct Hres as [(_ & Hi' & Hit' & Hc')|[? _]]; [|done].
      exists (Ok v0), self'. split_and!; [done|done|done|right; lia|done|..].
      * intros h' [= <-] ?. lia.
      * intros h' _ _. split; [done|]. intros _. split_and!.
        -- done.
        -- intros k' v'. rewrite Hit'. apply Hit1.
        -- exists v0. split; [done|by left].
        -- done.
        -- intros Hn. destruct Hn. done.
        -- done.
        -- intros _. rewrite Hc', Hthr'. by apply Hroom.
    + assert (e = OverflowError) as ->
        by apply (compute_threshold_error _ _ _ _ _ (inv_thr _ HI) Ht').
      destruct (Hover eq_refl) as [-> ->].
      assert (~ intact self) as Hni.
      { intros Hi. destruct (compute_threshold_smaller (size self) (size self / 2)
                               (load_factor self) (threshold self)) as [t' Ht2];
          [|lia|congruence].
        rewrite <- Hi. apply HI. }
      exists (Raise OverflowError), (set_size (size self / 2) self1).
      split_and!; [done|done|done|right; simpl; lia|done|..].
      * intros h' [= <-] ?. lia.
      * intros h' _ _. split; [done|]. intros _. split_and!.
        -- done.
        -- apply Hit1.
        -- exists v0. split; [done|]. right. split_and!; [done..|].
           by apply (Inv_set_size self1 (size self / 2) HI1 Hp).
        -- done.
        -- intros Hn. destruct Hn. done.
        -- done.
        -- intros _. simpl.
           apply (threshold_quarter_le (threshold self) (count self - 1)); [lia|done].
  - exists (Ok v0), self1. split_and!; [done|done|done|by left|done|..].
    + intros h' [= <-] ?. lia.
    + intros h' _ _. split; [done|]. intros _. split_and!.
      * done.
      * apply Hit1.
      * exists v0. split; [done|by left].
      * intros Hbig Hfew. apply andb_false_iff in Hshrink as [?%Z.ltb_ge|?%Z.ltb_ge]; lia.
      * done.
      * unfold intact. fold (chains self1) (chains self). by rewrite Hch1.
      * intros Hfew. simpl.
        apply (threshold_quarter_le (threshold self) (count self - 1)); [lia|done].
Qed.

(** ** Every state of a container's lifetime satisfies the invariant *)

Lemma __init___Inv initial_size lf self :
  __init__ initial_size lf = Ok self ->
  Inv self /\ intact self /\ size self = initial_size /\ load_factor self = lf /\
  compute_threshold initial_size lf = Ok (threshold self) /\
  count self = 0 /\ items self = [].
Proof.
  unfold __init__. destruct (_is_power_of_two initial_size) eqn:Hp; [|done].
  simpl. destruct (compute_threshold initial_size lf) as [t|e] eqn:Ht; [|done].
  intros [= <-]. apply _is_power_of_two_sound in Hp.
  destruct (Inv_fresh initial_size lf t Hp Ht) as (HI & Hi & Hit).
  split_and!; done.
Qed.

Lemma put_Inv self key v r self' :
  Inv self -> put key v self = Some (r, self') ->
  Inv self' /\ load_factor self' = load_factor self /\
  exists j : nat, size self' = size self * 2 ^ Z.of_nat j.
Proof.
  intros HI Hrun. unfold put in Hrun.
  destruct (put_fuel_spec _ self key v HI (Nat.lt_succ_diag_r _))
    as (r0 & s & Hs & HI' & Hlf & Hj & _).
  rewrite Hs in Hrun. injection Hrun as <- <-. done.
Qed.

Lemma delete_Inv self key r self' :
  Inv self -> delete key self = Some (r, self') ->
  Inv self' /\ load_factor self' = load_factor self /\
  (size self' = size self \/
   8 < size self /\ size self' = size self / 2 /\ 8 <= size self').
Proof.
  intros HI Hrun. unfold delete in Hrun.
  destruct (delete_fuel_spec _ self key HI (Nat.le_refl _))
    as (r0 & s & Hs & HI' & Hlf & Hsz & _).
  rewrite Hs in Hrun. injection Hrun as <- <-. done.
Qed.

Lemma reachable_Inv initial_size lf self :
  reachable initial_size lf self -> Inv self /\ load_factor self = lf.
Proof.
  induction 1 as [self Hinit|self key v r self' _ [HI Hlf] Hrun
                 |self key r self' _ [HI Hlf] Hrun].
  - by destruct (__init___Inv _ _ _ Hinit) as (? & _ & _ & ? & _).
  - destruct (put_Inv _ _ _ _ _ HI Hrun) as (? & ? & _). split; [done|congruence].
  - destruct (delete_Inv _ _ _ _ HI Hrun) as (? & ? & _). split; [done|congruence].
Qed.


(** ** More fuel never changes a result *)

Lemma for_each_mono {A} (f g : A -> M unit) (l : list A) :
  (forall x self r, f x self = Some r -> g x self = Some r) ->
  forall self r, for_each f l self = Some r -> for_each g l self = Some r.
Proof.
  intros Hfg. induction l as [|x l IH]; intros self r; simpl; [done|].
  unfold bind. destruct (f x self) as [[o self1]|] eqn:Hf; [|done].
  rewrite (Hfg _ _ _ Hf). destruct o as [[]|e]; [apply IH|done].
Qed.

Lemma _resize_with_mono (p p' : K -> value V -> M unit) new_size :
  (forall key v self r, p key v self = Some r -> p' key v self = Some r) ->
  forall self r,
    _resize_with p new_size self = Some r -> _resize_with p' new_size self = Some r.
Proof.
  intros Hp self r. unfold _resize_with.
  destruct (negb (_is_power_of_two new_size)); [done|]. cbv zeta.
  destruct (compute_threshold _ _); [|done].
  apply for_each_mono. intros b.
  apply for_each_mono. intros [key v]. apply Hp.
Qed.

Lemma put_fuel_S fuel key v self :
  put_fuel (S fuel) key v self =
  match (if threshold self <=? count self
         then _resize_with (put_fuel fuel) (size self * 2) self
         else ret tt self) with
  | Some (Ok _, self1) => put_entry key v self1
  | Some (Raise e, self1) => Some (Raise e, self1)
  | None => None
  end.
Proof. reflexivity. Qed.

Lemma put_fuel_mono fuel fuel' key v self r :
  (fuel <= fuel')%nat ->
  put_fuel fuel key v self = Some r -> put_fuel fuel' key v self = Some r.
Proof.
  revert fuel' key v self r.
  induction fuel as [|fuel IH]; intros fuel' key v self r Hle; [done|].
  destruct fuel' as [|fuel']; [lia|]. rewrite !put_fuel_S.
  destruct (threshold self <=? count self); [|done].
  destruct (_resize_with (put_fuel fuel) (size self * 2) self) as [p|] eqn:Hr;
    [|done].
  rewrite (_resize_with_mono (put_fuel fuel) (put_fuel fuel') _
             (fun key v self r => IH fuel' key v self r ltac:(lia)) _ _ Hr).
  done.
Qed.

Lemma put_fuel_enough fuel key v self :
  Inv self -> (length (items self) < fuel)%nat ->
  put_fuel fuel key v self = put key v self.
Proof.
  intros HI Hfuel. unfold put.
  destruct (put_fuel_spec _ self key v HI (Nat.lt_succ_diag_r _))
    as (r & s & Hs & _).
  rewrite Hs. apply (put_fuel_mono _ fuel) in Hs; [done|lia].
Qed.

Lemma delete_fuel_mono fuel fuel' key self r :
  (fuel <= fuel')%nat ->
  delete_fuel fuel key self = Some r -> delete_fuel fuel' key self = Some r.
Proof.
  intros Hle. unfold delete_fuel, bind, lift, modify, _resize.
  destruct (_hash self key) as [index|e]; [|done].
  destruct (list_getitem (table self) index) as [[slot b]|e]; [|done].
  destruct (chain_find key b) as [[i v]|]; [|done].
  match goal with |- context [if ?c then _ else _] => destruct c end; [|done].
  match goal with |- context [_resize_with (put_fuel fuel) ?n ?s] =>
    destruct (_resize_with (put_fuel fuel) n s) as [p|] eqn:Hr; [|done];
    rewrite (_resize_with_mono (put_fuel fuel) (put_fuel fuel') _
               (fun key v self r => put_fuel_mono fuel fuel' key v self r Hle) _ _ Hr)
  end.
  done.
Qed.

Lemma delete_fuel_enough fuel key self :
  Inv self -> (length (items self) <= fuel)%nat ->
  delete_fuel fuel key self = delete key self.
Proof.
  intros HI Hfuel. unfold delete.
  destruct (delete_fuel_spec _ self key HI (Nat.le_refl _)) as (r & s & Hs & _).
  rewrite Hs. by apply (delete_fuel_mono (length (items self))).
Qed.

(** ** The calls as the callers see them *)

(** A [put] that returned. *)
Lemma put_returns self key v self' :
  Inv self -> put key v self = Some (Ok tt, self') ->
  Inv self' /\
  load_factor self' = load_factor self /\
  put_result key v self self' /\
  (exists h, hash key = Some h /\ h mod size self' < chains self') /\
  (intact self -> intact self') /\
  (count self < threshold self ->
   size self' = size self /\ threshold self' = threshold self /\
   chains self' = chains self).
Proof.
  intros HI Hrun. unfold put in Hrun.
  destruct (put_fuel_spec _ self key v HI (Nat.lt_succ_diag_r _))
    as (r & s & Hs & HI' & Hlf & _ & Hrange & Hlt & Hge).
  rewrite Hs in Hrun. injection Hrun as -> ->.
  destruct (Z.lt_ge_cases (count self) (threshold self)) as [Hc|Hc].
  - destruct (Hlt Hc) as (Hsz & Hthr & Hch & Hnone & Hout & Hin).
    destruct (hash key) as [h|] eqn:Hk; [|by destruct Hnone].
    destruct (Z.lt_ge_cases (h mod size self) (chains self)) as [Hr|Hr];
      [|by destruct (Hout h eq_refl Hr)].
    destruct (Hin h eq_refl Hr) as [_ Hres].
    split_and!; [done..| | |done].
    + exists h. split; [done|]. by apply Hrange.
    + unfold intact. fold (chains self) (chains self'). lia.
  - destruct (Hge Hc) as (_ & _ & [[? _]|(Hi' & Hnone & Hsome)] & _); [done|].
    destruct (hash key) as [h|] eqn:Hk; [|by destruct Hnone].
    destruct (Hsome h eq_refl) as [_ Hres].
    split_and!; [done..| |done|lia].
    exists h. split; [done|]. by apply Hrange.
Qed.

(** A [put] with a hashable key on a table that is intact and can take
    it. *)
Lemma put_ok self key v h :
  Inv self -> intact self -> put_fits self -> hash key = Some h ->
  exists self',
    put key v self = Some (Ok tt, self') /\
    Inv self' /\ intact self' /\
    load_factor self' = load_factor self /\
    put_result key v self self' /\
    (count self < threshold self ->
     size self' = size self /\ threshold self' = threshold self) /\
    (threshold self <= count self ->
     size self' = size self * 2 /\
     compute_threshold (size self * 2) (load_factor self) = Ok (threshold self')).
Proof.
  intros HI Hi Hfits Hk.
  destruct (put_fuel_ok _ self key v h HI Hi Hk (Nat.lt_succ_diag_r _))
    as (r & self' & Hrun & HI' & Hlf & _ & Hres & Hlt & Hge & _).
  assert (r = Ok tt) as ->.
  { destruct Hfits as [Hc|(t & Ht & Hc)]; [by destruct (Hlt Hc)|].
    destruct (Z.lt_ge_cases (count self) (threshold self)) as [Hc'|Hc'];
      [by destruct (Hlt Hc')|by destruct (Hge Hc' t Ht Hc)]. }
  destruct Hres as [(_ & Hi' & Hres)|[? _]]; [|done].
  exists self'. split_and!; [done..| |].
  - intros Hc. by destruct (Hlt Hc) as (_ & ? & ?).
  - intros Hc. destruct Hfits as [?|(t & Ht & Hct)]; [lia|].
    destruct (Hge Hc t Ht Hct) as (_ & ? & ?). split; [done|congruence].
Qed.

(** A [delete] with a hashable key on an intact table. *)
Lemma delete_ok self key h :
  Inv self -> intact self -> hash key = Some h ->
  exists r self',
    delete key self = Some (Ok r, self') /\
    Inv self' /\ intact self' /\
    load_factor self' = load_factor self /\
    (~ matched self key -> r = PyNone /\ self' = self) /\
    (matched self key ->
     (key, r) ∈ items self /\
     count self' = count self - 1 /\
     (forall k' v', (k', v') ∈ items self' <-> k' ≠ key /\ (k', v') ∈ items self) /\
     (8 < size self -> count self - 1 < threshold self / 4 ->
      size self' = size self / 2 /\ 8 <= size self') /\
     (~ (8 < size self /\ count self - 1 < threshold self / 4) ->
      size self' = size self /\ threshold self' = threshold self)).
Proof.
  intros HI Hi Hk. unfold delete.
  destruct (delete_fuel_spec _ self key HI (Nat.le_refl _))
    as (r & self' & Hrun & HI' & Hlf & Hsz & _ & _ & Hin).
  destruct (Hin h Hk (intact_in_range _ _ HI Hi)) as [Hno Hyes].
  destruct (matched_dec self key) as [Hm|Hm].
  - destruct (Hyes Hm) as (Hc & Hit & (v0 & Hv0 & Hr) & Hhalf & Hsame & Hi').
    destruct Hr as [->|(_ & ? & _)]; [|done].
    exists v0, self'. split_and!; [done|done|by apply Hi'|done|done|].
    intros _. split_and!; [done..| |].
    + intros Hbig Hfew. split; [by apply Hhalf|].
      destruct Hsz as [Heq|(_ & _ & ?)]; [|done].
      destruct (pow2_half _ (inv_pow2 _ HI) Hbig) as (_ & H8 & _).
      rewrite Heq. specialize (Hhalf Hbig Hfew). lia.
    + intros Hn. by destruct (Hsame Hn) as (? & ? & _).
  - destruct (Hno Hm) as [-> ->]. exists PyNone, self.
    split_and!; [done..|]. by intros ?.
Qed.

(** [get] depends only on the entries of the key, once the lookup is in
    range. *)
Lemma get_same_items self self' key default h :
  Inv self -> Inv self' -> hash key = Some h ->
  (h mod size self < chains self <-> h mod size self' < chains self') ->
  (forall v, (key, v) ∈ items self' <-> (key, v) ∈ items self) ->
  get self' key default = get self key default.
Proof.
  intros HI HI' Hk Hrange Hsame.
  destruct (Z.lt_ge_cases (h mod size self) (chains self)) as [Hin|Hout].
  - destruct (get_in_range self key default h HI Hk Hin) as (Hp & Ha & _).
    destruct (get_in_range self' key default h HI' Hk (proj1 Hrange Hin))
      as (Hp' & Ha' & _).
    destruct (matched_dec self key) as [[Hs [w Hw]%elem_of_keys]|Hn].
    + rewrite (Hp w Hs Hw). apply Hp'; [done|]. by apply Hsame.
    + rewrite (Ha Hn). apply Ha'. intros [Hs [w Hw%Hsame]%elem_of_keys].
      apply Hn. split; [done|]. apply elem_of_keys. by exists w.
  - rewrite (get_out_of_range self key default h HI Hk Hout).
    apply (get_out_of_range self' key default h HI' Hk).
    destruct (Z.lt_ge_cases (h mod size self') (chains self')) as [Hin'|?]; [|done].
    apply Hrange in Hin'. lia.
Qed.

(** [key in self] is true exactly when [key] is stored with a value other
    than [None]. *)
Lemma __contains___spec self key h :
  Inv self -> intact self -> hash key = Some h -> self_equal key = true ->
  exists b, __contains__ self key = Ok b /\
            (b = true <-> exists v, (key, PyObj v) ∈ items self).
Proof.
  intros HI Hi Hk Hs. unfold __contains__.
  destruct (keys_dec self key) as [[v Hin]%elem_of_keys|Hnin].
  - rewrite (get_present self key v PyNone h HI Hi Hk Hs Hin).
    exists (is_not_None v). split; [done|]. destruct v as [|v]; simpl.
    + split; [done|]. intros [v' Hin'].
      pose proof (items_functional _ _ _ _ HI Hs Hin Hin'). done.
    + split; [by eauto|done].
  - rewrite (get_absent self key PyNone h HI Hi Hk); [|by intros [_ ?]].
    exists false. split; [done|]. split; [done|]. intros [v Hin]. destruct Hnin.
    apply elem_of_keys. by eauto.
Qed.

(** ** Sequences of operations *)

Lemma run_reachable initial_size lf ops :
  forall self r self',
    reachable initial_size lf self ->
    run ops self = Some (r, self') ->
    reachable initial_size lf self'.
Proof.
  induction ops as [|o ops IH]; intros self r self' Hreach; simpl.
  - by intros [= <- <-].
  - unfold run. simpl. unfold bind at 1.
    destruct (apply_op o self) as [[ro self1]|] eqn:Ho; [|done].
    assert (reachable initial_size lf self1) as Hreach1.
    { destruct o as [key v|key]; simpl in Ho.
      - by eapply reach_put.
      - unfold bind in Ho.
        destruct (delete key self) as [[rd sd]|] eqn:Hd; [|done].
        assert (sd = self1) as <- by (destruct rd; by injection Ho).
        by eapply reach_delete. }
    destruct ro as [[]|e]; [by apply IH|]. by intros [= <- <-].
Qed.

Lemma reachable_size_lb initial_size lf self :
  reachable initial_size lf self -> Z.min 8 initial_size <= size self.
Proof.
  induction 1 as [self Hinit|self key v r self' Hreach IH Hrun
                 |self key r self' Hreach IH Hrun].
  - destruct (__init___Inv _ _ _ Hinit) as (_ & _ & -> & _). lia.
  - destruct (reachable_Inv _ _ _ Hreach) as [HI _].
    destruct (put_Inv _ _ _ _ _ HI Hrun) as (_ & _ & j & ->).
    pose proof (pow2_pos _ (inv_pow2 _ HI)).
    pose proof (pow2_ge_1 j). nia.
  - destruct (reachable_Inv _ _ _ Hreach) as [HI _].
    destruct (delete_Inv _ _ _ _ HI Hrun) as (_ & _ & [->|(Hbig & -> & ?)]); [done|].
    lia.
Qed.


(** Puts of new keys into a table with enough room below the threshold. *)
Lemma put_all_below kvs :
  NoDup kvs.*1 ->
  Forall (fun kv => is_Some (hash kv.1)) kvs ->
  forall self,
    Inv self -> intact self ->
    (forall k, k ∈ kvs.*1 -> k ∉ keys self) ->
    count self + Z.of_nat (length kvs) <= threshold self ->
    exists self',
      put_all kvs self = Some (Ok tt, self') /\
      Inv self' /\ intact self' /\
      size self' = size self /\
      load_factor self' = load_factor self /\
      threshold self' = threshold self /\
      count self' = count self + Z.of_nat (length kvs) /\
      items self' ≡ₚ items self ++ kvs.
Proof.
  induction kvs as [|[k v] kvs IH]; intros Hnd Hhash self HI Hi Hnew Hroom.
  - exists self. simpl. split_and!; [done..|lia|by rewrite app_nil_r].
  - simpl in *. apply NoDup_cons in Hnd as [Hk Hnd].
    apply Forall_cons in Hhash as [[h Hh] Hhash].
    destruct (put_ok self k v h HI Hi) as
      (self1 & Hrun & HI1 & Hi1 & Hlf1 & [_ Hres] & Hsame & _); [left; lia|done|].
    destruct Hsame as [Hsz1 Hthr1]; [lia|].
    destruct Hres as [Hcnt1 Hit1].
    { intros [_ Hin]. by apply (Hnew k); [left|]. }
    destruct (IH Hnd Hhash self1 HI1 Hi1) as
      (self' & Hrun' & HI' & Hi' & Hsz' & Hlf' & Hthr' & Hcnt' & Hit').
    { intros k' Hin. unfold keys. rewrite Hit1. simpl.
      apply not_elem_of_cons. split; [by intros ->|].
      apply Hnew. by right. }
    { lia. }
    exists self'. split_and!.
    + unfold put_all. simpl. unfold bind. rewrite Hrun. exact Hrun'.
    + done.
    + done.
    + congruence.
    + congruence.
    + congruence.
    + lia.
    + rewrite Hit', Hit1. simpl. by rewrite Permutation_middle.
Qed.

(** ** The load never exceeds the threshold when the load factor is at
    least one half *)

Lemma Inv_threshold_value self q :
  Inv self -> load_factor self = Finite q ->
  threshold self = threshold_value (chains self) q.
Proof.
  intros HI Hlf. pose proof (inv_thr _ HI) as Ht. rewrite Hlf in Ht.
  destruct (compute_threshold_Ok _ _ _ Ht) as (q' & [= <-] & _ & ?). done.
Qed.

Lemma put_result_count key v self self' :
  put_result key v self self' -> count self' <= count self + 1.
Proof.
  intros [Hm Hn]. destruct (matched_dec self key) as [H1|H1].
  - destruct (Hm H1). lia.
  - destruct (Hn H1). lia.
Qed.

Lemma put_load_bound self key v r self' q :
  load_factor self = Finite q -> (1 # 2 <= q)%Q ->
  Inv self -> count self <= threshold self ->
  put key v self = Some (r, self') ->
  count self' <= threshold self'.
Proof.
  intros Hlf Hq HI Hle Hrun. unfold put in Hrun.
  destruct (put_fuel_spec _ self key v HI (Nat.lt_succ_diag_r _))
    as (r0 & s & Hs & HI' & _ & _ & _ & Hlt & Hge).
  rewrite Hs in Hrun. injection Hrun as <- <-.
  destruct (Z.lt_ge_cases (count self) (threshold self)) as [Hc|Hc].
  - destruct (Hlt Hc) as (_ & Hthr & _ & Hnone & Hout & Hin). rewrite Hthr.
    destruct (hash key) as [h|] eqn:Hk; [|by destruct Hnone as [_ ->]].
    destruct (Z.lt_ge_cases (h mod size self) (chains self)) as [Hr|Hr].
    + destruct (Hin h eq_refl Hr) as [_ Hres%put_result_count]. lia.
    + by destruct (Hout h eq_refl Hr) as [_ ->].
  - destruct (Hge Hc) as (_ & Hover & Hres & Hfit).
    destruct (compute_threshold (size self * 2) (load_factor self)) as [t|e] eqn:Ht.
    + destruct (intact_dec self) as [Hi|Hni];
        [|by rewrite (torn_cannot_grow _ HI Hni) in Ht].
      assert (count self + 1 <= t) as Hroom.
      { rewrite Hlf in Ht.
        destruct (compute_threshold_Ok _ _ _ Ht) as (q' & [= <-] & _ & ->).
        pose proof (Inv_threshold_value self q HI Hlf) as Hthr.
        unfold intact in Hi. fold (chains self) in Hi. rewrite Hi in Hthr.
        destruct (threshold_value_double (size self) q Hq (pow2_pos _ (inv_pow2 _ HI))).
        lia. }
      destruct (Hfit t eq_refl) as (_ & Hthr' & Hno); [lia|]. rewrite Hthr'.
      destruct Hres as [[? _]|(_ & Hnone & Hsome)]; [done|].
      destruct (hash key) as [h|] eqn:Hk.
      * destruct (Hsome h eq_refl) as [_ Hres%put_result_count]. lia.
      * destruct Hnone as (_ & _ & ->); [done|lia].
    + assert (e = OverflowError) as ->
        by apply (compute_threshold_error _ _ _ _ _ (inv_thr _ HI) Ht).
      by destruct (Hover eq_refl) as [_ ->].
Qed.

Lemma delete_load_bound self key r self' :
  Inv self -> count self <= threshold self ->
  delete key self = Some (r, self') ->
  count self' <= threshold self'.
Proof.
  intros HI Hle Hrun. unfold delete in Hrun.
  destruct (delete_fuel_spec _ self key HI (Nat.le_refl _))
    as (r0 & s & Hs & _ & _ & _ & Hnone & Hout & Hin).
  rewrite Hs in Hrun. injection Hrun as <- <-.
  destruct (hash key) as [h|] eqn:Hk; [|by destruct Hnone as [_ ->]].
  destruct (Z.lt_ge_cases (h mod size self) (chains self)) as [Hr|Hr];
    [|by destruct (Hout h eq_refl Hr) as [_ ->]].
  destruct (Hin h eq_refl Hr) as [Hno Hyes].
  destruct (matched_dec self key) as [Hm|Hm]; [|by destruct (Hno Hm) as [_ ->]].
  destruct (Hyes Hm) as (Hc & _ & _ & _ & Hsame & _ & Hfew).
  destruct (Z.lt_ge_cases (count self - 1) (threshold self / 4)) as [Hlt|Hge].
  - by apply Hfew.
  - destruct Hsame as (_ & -> & _); lia.
Qed.

Lemma reachable_load_bound initial_size q self :
  (1 # 2 <= q)%Q ->
  reachable initial_size (Finite q) self ->
  count self <= threshold self.
Proof.
  intros Hq.
  induction 1 as [self Hinit|self key v r self' Hreach IH Hrun
                 |self key r self' Hreach IH Hrun].
  - destruct (__init___Inv _ _ _ Hinit) as (HI & Hi & Hsz & Hlf0 & _ & -> & _).
    rewrite (Inv_threshold_value self q HI Hlf0).
    pose proof (Inv_chains_le _ HI).
    destruct (threshold_value_double (chains self) q Hq); [lia|done].
  - destruct (reachable_Inv _ _ _ Hreach) as [HI Hlf0].
    by apply (put_load_bound self key v r self' q).
  - destruct (reachable_Inv _ _ _ Hreach) as [HI Hlf0].
    by apply (delete_load_bound self key r self').
Qed.

(** ** The table as a mapping *)

Lemma put_refines key v self self' (m : gmap K (value V)) :
  put_result key v self self' -> self_equal key = true ->
  (forall k w, (k, w) ∈ items self <-> m !! k = Some w) ->
  forall k w, (k, w) ∈ items self' <-> <[key := v]> m !! k = Some w.
Proof.
  intros Hres Hs Hm k w.
  destruct (put_result_self_equal key v self self' Hres Hs) as [Hit _].
  rewrite Hit. destruct (decide (k = key)) as [->|Hne].
  - rewrite lookup_insert_eq. split; congruence.
  - rewrite lookup_insert_ne by done. apply Hm.
Qed.

Lemma delete_refines key self self' (m : gmap K (value V)) :
  self_equal key = true ->
  (~ matched self key -> self' = self) ->
  (matched self key ->
   forall k' v', (k', v') ∈ items self' <-> k' ≠ key /\ (k', v') ∈ items self) ->
  (forall k w, (k, w) ∈ items self <-> m !! k = Some w) ->
  forall k w, (k, w) ∈ items self' <-> base.delete key m !! k = Some w.
Proof.
  intros Hs Hno Hyes Hm k w. destruct (matched_dec self key) as [H1|H1].
  - rewrite (Hyes H1). destruct (decide (k = key)) as [->|Hne].
    + rewrite lookup_delete_eq. split; [by intros [? _]|done].
    + rewrite lookup_delete_ne by done. rewrite <- Hm. split; [by intros [_ ?]|done].
  - rewrite (Hno H1). destruct (decide (k = key)) as [->|Hne].
    + rewrite lookup_delete_eq. split; [|done]. intros Hin. destruct H1.
      split; [done|]. apply elem_of_keys. by exists w.
    + rewrite lookup_delete_ne by done. apply Hm.
Qed.

(** One operation with a hashable, self-equal key on an intact table. *)
Lemma apply_op_refines o self (m : gmap K (value V)) :
  is_Some (hash (op_key o)) -> self_equal (op_key o) = true ->
  Inv self -> intact self ->
  (forall k w, (k, w) ∈ items self <-> m !! k = Some w) ->
  exists r self',
    apply_op o self = Some (r, self') /\
    Inv self' /\
    (r = Ok tt /\ intact self' /\
     (forall k w, (k, w) ∈ items self' <-> replay_op m o !! k = Some w) \/
     r = Raise OverflowError /\ ~ intact self' /\ ~ put_fits self).
Proof.
  intros [h Hk] Hs HI Hi Hm. destruct o as [key v|key]; simpl in *.
  - destruct (put_fuel_ok _ self key v h HI Hi Hk (Nat.lt_succ_diag_r _))
      as (r & self' & Hrun & HI' & Hlf & _ & Hres & Hlt & Hge & _).
    exists r, self'. split_and!; [done..|].
    destruct Hres as [(-> & Hi' & Hres)|(-> & Hni & Hc)].
    + left. split_and!; [done..|]. by apply (put_refines key v self self').
    + right. split_and!; [done..|]. intros [?|(t & Ht & Hct)]; [lia|].
      by destruct (Hge Hc t Ht Hct).
  - destruct (delete_ok self key h HI Hi Hk)
      as (r & self' & Hrun & HI' & Hi' & _ & Hno & Hyes).
    exists (Ok tt), self'. unfold bind. rewrite Hrun. split_and!; [done..|].
    left. split_and!; [done..|].
    apply (delete_refines key self self' m Hs); [by intros []%Hno| |done].
    intros Hmatch. by destruct (Hyes Hmatch) as (_ & _ & ? & _).
Qed.

Lemma run_refines ops :
  Forall (fun o => is_Some (hash (op_key o)) /\ self_equal (op_key o) = true) ops ->
  forall self m,
    Inv self -> intact self ->
    (forall k v, (k, v) ∈ items self <-> m !! k = Some v) ->
    exists r self',
      run ops self = Some (r, self') /\
      Inv self' /\
      (r = Ok tt /\ intact self' /\
       (forall k v, (k, v) ∈ items self' <-> replay_from m ops !! k = Some v) \/
       r = Raise OverflowError /\ ~ intact self').
Proof.
  induction 1 as [|o ops [Hk Hs] _ IH]; intros self m HI Hi Hm.
  - exists (Ok tt), self. split_and!; [done..|]. by left.
  - unfold run. simpl. unfold bind at 1.
    destruct (apply_op_refines o self m Hk Hs HI Hi Hm)
      as (r1 & self1 & -> & HI1 & [(-> & Hi1 & Hm1)|(-> & Hni & _)]).
    + apply (IH self1 (replay_op m o) HI1 Hi1 Hm1).
    + exists (Raise OverflowError), self1. split_and!; [done..|]. by right.
Qed.

(** ** A default-constructed table does not meet the limits of floats
    within [2^1000] operations *)

Lemma default_put_fits n self :
  Inv self -> intact self -> load_factor self = Finite (3 # 4) ->
  count self <= threshold self -> size self <= 8 + 4 * n -> n <= 2 ^ 1000 ->
  put_fits self.
Proof.
  intros HI Hi Hlf Hle Hsz Hn.
  destruct (Z.lt_ge_cases (count self) (threshold self)) as [Hc|Hc]; [by left|].
  right. rewrite Hlf. pose proof (pow2_pos _ (inv_pow2 _ HI)) as Hpos.
  destruct (compute_threshold_Finite (size self * 2) (3 # 4)) as [[_ Ht]|[Hno _]].
  - eexists. split; [exact Ht|].
    pose proof (Inv_threshold_value self _ HI Hlf) as Hthr.
    unfold intact in Hi. fold (chains self) in Hi. rewrite Hi in Hthr.
    destruct (threshold_value_double (size self) (3 # 4)); [done|done|]. lia.
  - destruct Hno. unfold threshold_fits, float_limit. simpl. lia.
Qed.

Lemma default_step o n self (m : gmap K (value V)) :
  is_Some (hash (op_key o)) -> self_equal (op_key o) = true ->
  Inv self -> intact self -> load_factor self = Finite (3 # 4) ->
  count self <= threshold self -> count self <= n -> size self <= 8 + 4 * n ->
  n <= 2 ^ 1000 ->
  (forall k w, (k, w) ∈ items self <-> m !! k = Some w) ->
  exists self',
    apply_op o self = Some (Ok tt, self') /\
    Inv self' /\ intact self' /\ load_factor self' = Finite (3 # 4) /\
    count self' <= threshold self' /\ count self' <= n + 1 /\
    size self' <= 8 + 4 * (n + 1) /\
    (forall k w, (k, w) ∈ items self' <-> replay_op m o !! k = Some w).
Proof.
  intros Hk Hs HI Hi Hlf Hle Hcn Hsz Hn Hm.
  pose proof (default_put_fits n self HI Hi Hlf Hle Hsz Hn) as Hfits.
  destruct (apply_op_refines o self m Hk Hs HI Hi Hm)
    as (r & self' & Hrun & HI' & [(-> & Hi' & Hm')|(_ & _ & ?)]); [|done].
  exists self'. split; [done|]. destruct Hk as [h Hk].
  pose proof (pow2_pos _ (inv_pow2 _ HI)) as Hpos.
  destruct o as [key v|key]; simpl in *.
  - destruct (put_ok self key v h HI Hi Hfits Hk)
      as (s & Hs' & _ & _ & Hlf' & Hres & Hlt & Hge).
    rewrite Hrun in Hs'. injection Hs' as <-.
    split_and!; [done|done|congruence| | | |done].
    + by apply (put_load_bound self key v (Ok tt) self' (3 # 4)).
    + pose proof (put_result_count key v self self' Hres). lia.
    + destruct (Z.lt_ge_cases (count self) (threshold self)) as [Hc|Hc].
      * destruct (Hlt Hc) as [-> _]. lia.
      * destruct (Hge Hc) as [-> _].
        pose proof (Inv_threshold_value self _ HI Hlf) as Hthr.
        unfold intact in Hi. fold (chains self) in Hi. rewrite Hi in Hthr.
        unfold threshold_value in Hthr. simpl in Hthr.
        rewrite Z.quot_div_nonneg in Hthr by lia.
        pose proof (Z.mod_pos_bound (size self * 3) 4).
        pose proof (Z.div_mod (size self * 3) 4). lia.
  - unfold bind in Hrun.
    destruct (delete key self) as [[rd sd]|] eqn:Hdel; [|done].
    assert (sd = self') as -> by (destruct rd; by injection Hrun).
    destruct (delete_Inv self key rd self' HI Hdel) as (_ & Hlf' & Hsz').
    destruct (delete_ok self key h HI Hi Hk)
      as (r & s & Hs' & _ & _ & _ & Hno & Hyes).
    rewrite Hdel in Hs'. injection Hs' as -> <-.
    split_and!; [done|done|congruence| | | |done].
    + by apply (delete_load_bound self key (Ok r) self').
    + destruct (matched_dec self key) as [H1|H1].
      * destruct (Hyes H1) as (_ & -> & _). lia.
      * destruct (Hno H1) as [_ ->]. lia.
    + destruct Hsz' as [->|(_ & -> & _)]; [lia|].
      pose proof (Z.mul_div_le (size self) 2). lia.
Qed.

Lemma run_default ops :
  Forall (fun o => is_Some (hash (op_key o)) /\ self_equal (op_key o) = true) ops ->
  forall n self (m : gmap K (value V)),
    Inv self -> intact self -> load_factor self = Finite (3 # 4) ->
    count self <= threshold self -> count self <= n -> size self <= 8 + 4 * n ->
    n + Z.of_nat (length ops) <= 2 ^ 1000 ->
    (forall k w, (k, w) ∈ items self <-> m !! k = Some w) ->
    exists self',
      run ops self = Some (Ok tt, self') /\
      Inv self' /\ intact self' /\
      (forall k w, (k, w) ∈ items self' <-> replay_from m ops !! k = Some w).
Proof.
  induction 1 as [|o ops [Hk Hs] _ IH]; intros n self m HI Hi Hlf Hle Hcn Hsz Hn Hm.
  - by exists self.
  - simpl in Hn. unfold run. simpl. unfold bind at 1.
    destruct (default_step o n self m Hk Hs HI Hi Hlf Hle Hcn Hsz) as
      (self1 & -> & HI1 & Hi1 & Hlf1 & Hle1 & Hcn1 & Hsz1 & Hm1); [lia|done|].
    apply (IH (n + 1) self1 (replay_op m o)); try done. lia.
Qed.

(** Deletes that stay above the shrink threshold. *)
Lemma delete_run_no_shrink (ks : list K) :
  NoDup ks ->
  forall self,
    Inv self -> intact self ->
    (forall k, k ∈ ks -> matched self k) ->
    threshold self / 4 <= count self - Z.of_nat (length ks) ->
    exists self',
      run (Delete <$> ks) self = Some (Ok tt, self') /\
      Inv self' /\ intact self' /\
      size self' = size self /\
      load_factor self' = load_factor self /\
      threshold self' = threshold self /\
      count self' = count self - Z.of_nat (length ks) /\
      (forall k, k ∈ keys self' <-> k ∈ keys self /\ k ∉ ks).
Proof.
  induction 1 as [|k ks Hk Hnd IH]; intros self HI Hi Hin Hroom.
  - exists self. simpl. split_and!; [done..|lia|].
    intros k. split; [|by intros [? _]]. intros ?. split; [done|apply not_elem_of_nil].
  - assert (matched self k) as Hm by (apply Hin; by left).
    destruct (proj1 (elem_of_keys self k) (proj2 Hm)) as [w Hw].
    destruct (Inv_stored_hashable self k w HI Hw) as [h Hh].
    destruct (delete_ok self k h HI Hi Hh)
      as (r & self1 & Hrun1 & HI1 & Hi1 & Hlf1 & _ & Hyes).
    destruct (Hyes Hm) as (_ & Hcnt1 & Hit1 & _ & Hsame).
    simpl in Hroom.
    destruct Hsame as [Hsz1 Hthr1]; [lia|].
    assert (forall k', k' ∈ keys self1 <-> k' ≠ k /\ k' ∈ keys self) as Hkeys1.
    { intros k'. rewrite !elem_of_keys. split.
      - intros [u [Hne Hu]%Hit1]. split; [done|by exists u].
      - intros [Hne [u Hu]]. exists u. by apply Hit1. }
    destruct (IH self1 HI1 Hi1)
      as (self' & Hrun' & HI' & Hi' & Hsz' & Hlf' & Hthr' & Hcnt' & Hkeys').
    { intros k' Hk'. destruct (Hin k') as [Hs' Hin']; [by right|]. split; [done|].
      apply Hkeys1. split; [by intros ->|done]. }
    { rewrite Hthr1, Hcnt1. lia. }
    exists self'. split_and!.
    + unfold run. rewrite fmap_cons. cbn [for_each apply_op].
      unfold bind at 1 2. rewrite Hrun1. exact Hrun'.
    + done.
    + done.
    + congruence.
    + congruence.
    + congruence.
    + simpl. lia.
    + intros k'. rewrite Hkeys', Hkeys1, not_elem_of_cons. tauto.
Qed.


(** * The documented properties *)

(** C1 (round trip, as the code has it).  In every state of a container's
    lifetime, for every hashable key that is equal to itself and every
    value: [put(key, v)] terminates, and whenever it returns, a [get(key)]
    issued immediately afterwards returns [v], whatever the default.  It
    does return when the table is intact and the put fits, that is when no
    resize has failed before and this put either does not grow the table or
    can compute the threshold of the doubled size.  (A key that is not
    equal to itself, such as a NaN, is stored but never found.) *)
Theorem put_get_roundtrip initial_size lf self key v default h :
  reachable initial_size lf self ->
  hash key = Some h ->
  self_equal key = true ->
  exists r self',
    put key v self = Some (r, self') /\
    (r = Ok tt -> get self' key default = Ok v) /\
    (intact self -> put_fits self -> r = Ok tt).
Proof.
  intros [HI _]%reachable_Inv Hk Hs.
  destruct (put_fuel_spec _ self key v HI (Nat.lt_succ_diag_r _))
    as (r & self' & Hrun & _).
  change (put key v self = Some (r, self')) in Hrun.
  exists r, self'. split; [done|]. split.
  - intros ->.
    destruct (put_returns self key v self' HI Hrun)
      as (HI' & _ & Hres & (h' & Hk' & Hr) & _).
    destruct (put_result_self_equal key v self self' Hres Hs) as [Hit _].
    apply (get_in_range self' key default h' HI' Hk' Hr); [done|].
    apply Hit. by rewrite decide_True.
  - intros Hi Hfits.
    destruct (put_ok self key v h HI Hi Hfits Hk) as (s & Hs' & _). congruence.
Qed.

(** C2 (no data loss across resize, as the code has it).  Apply a sequence
    of at most [2^1000] puts and deletes, with keys that are hashable and
    equal to themselves, to a default-constructed table.  After each
    operation, that is for every prefix of the sequence, the run has
    returned normally and the pairs yielded by [items()] are exactly the
    pairs of the reference mapping obtained by replaying the same prefix. *)
Theorem items_refine_reference_mapping (ops : list op) (n : nat) self0 :
  __init__ 8 (Finite (3 # 4)) = Ok self0 ->
  Forall (fun o => is_Some (hash (op_key o)) /\ self_equal (op_key o) = true) ops ->
  Z.of_nat (length ops) <= 2 ^ 1000 ->
  exists self,
    run (take n ops) self0 = Some (Ok tt, self) /\
    forall k v, (k, v) ∈ items self <-> replay (take n ops) !! k = Some v.
Proof.
  intros Hinit Hops Hlen.
  destruct (__init___Inv _ _ _ Hinit) as (HI0 & Hi0 & Hsz & Hlf & Hthr & Hcnt & Hempty).
  assert (compute_threshold 8 (Finite (3 # 4)) = Ok 6) as H6 by by vm_compute.
  rewrite H6 in Hthr. injection Hthr as Hthr.
  destruct (run_default (take n ops) (Forall_take _ n _ Hops) 0 self0 ∅ HI0 Hi0 Hlf)
    as (self & Hrun & _ & _ & Hit); [lia|lia|lia| | |by exists self].
  - rewrite length_take. lia.
  - intros k v. rewrite Hempty, lookup_empty. split; [by intros ?%elem_of_nil|done].
Qed.

(** C3 (size invariant, as the code has it).  In every state of a
    container's lifetime [size] is a power of two that is at least the
    smaller of 8 and the initial size, hence at least 8 whenever the initial
    size is, and [count] is the total number of entries over all chains. *)
Theorem size_count_invariant initial_size lf self :
  reachable initial_size lf self ->
  pow2 (size self) /\
  Z.min 8 initial_size <= size self /\
  (8 <= initial_size -> 8 <= size self) /\
  count self = Z.of_nat (sum_list (length <$> table self)).
Proof.
  intros Hreach. pose proof (reachable_size_lb _ _ _ Hreach) as Hlb.
  destruct (reachable_Inv _ _ _ Hreach) as [HI _].
  split_and!; [apply HI|done|lia|].
  rewrite (inv_count _ HI). unfold items. by rewrite length_concat_sum.
Qed.

(** C4 (unhashable keys, as the code has it).  With a key that cannot be
    hashed, [get], [__contains__] and [delete] raise [TypeError] and leave
    the container as it was.  [put] runs its growth check first.  When
    [count < threshold] it raises [TypeError] and the container is
    unchanged.  When [count >= threshold] the resize has run before the key
    is hashed, and the size is the old one times two or a higher power of
    two: either the table was rebuilt, with [size] chains, the threshold
    recomputed for the new size, the same load factor, the same count and
    the same entries, and [TypeError] is raised; or the resize itself
    failed with [OverflowError] in [int(...)], leaving fewer chains than
    [size].  The size is exactly doubled and [TypeError] raised when the
    threshold of the doubled size can be computed and is at least
    [count]; when it cannot be computed, only [size] has changed. *)
Theorem unhashable_key_raises initial_size lf self key v default :
  reachable initial_size lf self ->
  hash key = None ->
  get self key default = Raise TypeError /\
  __contains__ self key = Raise TypeError /\
  delete key self = Some (Raise TypeError, self) /\
  exists r self',
    put key v self = Some (r, self') /\
    load_factor self' = load_factor self /\
    (count self < threshold self -> r = Raise TypeError /\ self' = self) /\
    (threshold self <= count self ->
     (exists j : nat, size self' = size self * 2 * 2 ^ Z.of_nat j) /\
     (r = Raise TypeError /\
      Z.of_nat (length (table self')) = size self' /\
      compute_threshold (size self') (load_factor self') = Ok (threshold self') /\
      items self' ≡ₚ items self /\
      count self' = count self
      \/
      r = Raise OverflowError /\
      Z.of_nat (length (table self')) < size self') /\
     (forall t, compute_threshold (size self * 2) (load_factor self) = Ok t ->
                count self <= t ->
                r = Raise TypeError /\ size self' = size self * 2 /\
                threshold self' = t) /\
     (compute_threshold (size self * 2) (load_factor self) = Raise OverflowError ->
      r = Raise OverflowError /\ self' = set_size (size self * 2) self)).
Proof.
  intros [HI _]%reachable_Inv Hk. split_and!.
  - by apply get_unhashable.
  - unfold __contains__. by rewrite get_unhashable.
  - destruct (delete_fuel_spec _ self key HI (Nat.le_refl _))
      as (r & self' & Hrun & _ & _ & _ & Hnone & _).
    destruct (Hnone Hk) as [-> ->]. done.
  - destruct (put_fuel_spec _ self key v HI (Nat.lt_succ_diag_r _))
      as (r & self' & Hrun & HI' & Hlf & _ & _ & Hlt & Hge).
    exists r, self'. split_and!; [done|done| |].
    + intros Hc. destruct (Hlt Hc) as (_ & _ & _ & Hnone & _). by apply Hnone.
    + intros Hc. destruct (Hge Hc) as (Hj & Hover & Hres & Hfit).
      split_and!; [done| | |done].
      * destruct Hres as [[-> Hni]|(Hi' & Hnone & _)].
        -- right. split; [done|].
           by destruct (Inv_not_intact self' HI' Hni) as [? _].
        -- left. destruct (Hnone Hk) as (-> & Hit & Hcnt).
           split_and!; [done|done| |done|done].
           rewrite <- Hi'. apply HI'.
      * intros t Ht Hct. destruct (Hfit t Ht Hct) as (Hsz & Hthr & Hno).
        split_and!; [|done|done].
        destruct Hres as [[-> _]|(_ & Hnone & _)]; [done|]. by apply Hnone.
Qed.

(** C5 (growth trigger).  Put seven distinct hashable keys into a
    default-constructed table (size 8, load factor 0.75, threshold 6): after
    the first six the size is still 8, and the seventh makes it 16. *)
Theorem growth_trigger (kvs : list entry) self0 :
  __init__ 8 (Finite (3 # 4)) = Ok self0 ->
  NoDup kvs.*1 ->
  Forall (fun kv => is_Some (hash kv.1)) kvs ->
  length kvs = 7%nat ->
  exists self6 self7,
    put_all (take 6 kvs) self0 = Some (Ok tt, self6) /\
    size self6 = 8 /\
    put_all (drop 6 kvs) self6 = Some (Ok tt, self7) /\
    size self7 = 16.
Proof.
  intros Hinit Hnd Hhash Hlen.
  destruct (__init___Inv _ _ _ Hinit) as (HI0 & Hi0 & Hsz0 & Hlf0 & Hthr0 & Hcnt0 & Hempty).
  assert (compute_threshold 8 (Finite (3 # 4)) = Ok 6) as H6 by by vm_compute.
  assert (compute_threshold (8 * 2) (Finite (3 # 4)) = Ok 12) as H12 by by vm_compute.
  rewrite H6 in Hthr0. injection Hthr0 as Hthr0.
  rewrite <- (take_drop 6 kvs) in Hnd, Hhash.
  rewrite fmap_app in Hnd. apply NoDup_app in Hnd as (Hnd6 & _ & _).
  apply Forall_app in Hhash as [Hhash6 Hhash7].
  destruct (put_all_below (take 6 kvs) Hnd6 Hhash6 self0 HI0 Hi0)
    as (self6 & Hrun6 & HI6 & Hi6 & Hsz6 & Hlf6 & Hthr6 & Hcnt6 & _).
  { intros k _. unfold keys. rewrite Hempty. apply not_elem_of_nil. }
  { rewrite length_take. lia. }
  rewrite length_take in Hcnt6.
  destruct (drop 6 kvs) as [|[k v] rest] eqn:Hdrop.
  { apply (f_equal length) in Hdrop. rewrite length_drop in Hdrop. simpl in Hdrop. lia. }
  assert (rest = []) as ->.
  { apply (f_equal length) in Hdrop. rewrite length_drop in Hdrop. simpl in Hdrop.
    destruct rest; [done|simpl in Hdrop; lia]. }
  apply Forall_cons in Hhash7 as [[h Hh] _].
  destruct (put_ok self6 k v h HI6 Hi6) as (self7 & Hrun7 & _ & _ & _ & _ & _ & Hdouble);
    [|done|].
  { right. exists 12. rewrite Hsz6, Hlf6, Hsz0, Hlf0. split; [done|lia]. }
  exists self6, self7. split_and!; [done|lia| |].
  - unfold put_all. simpl. unfold bind. by rewrite Hrun7.
  - destruct Hdouble as [-> _]; lia.
Qed.



(** C9 (termination, and what can go wrong).  In every state of a
    container's lifetime, whatever initial size and load factor the
    constructor accepted, every operation on a hashable key terminates:
    [put] and [delete] deliver an outcome with their standard fuel and the
    same outcome with any larger amount, so the mutual recursion of [put]
    and [_resize] is well founded; the views [keys()] and [values()] are
    finite and have one item per counted entry.  The outcome is a normal
    return, or [OverflowError] from the [int(...)] of a resize, or, on a
    table left by such a failure, [IndexError].  On an intact table [get],
    [__contains__] and [delete] return normally, and so does [put]
    whenever it fits. *)
Theorem operations_total initial_size lf self key v default h :
  reachable initial_size lf self ->
  hash key = Some h ->
  (exists r self',
     put key v self = Some (r, self') /\
     (forall fuel, (length (items self) < fuel)%nat ->
                   put_fuel fuel key v self = Some (r, self')) /\
     (r = Ok tt \/ r = Raise OverflowError \/ r = Raise IndexError) /\
     (intact self -> r ≠ Raise IndexError) /\
     (intact self -> put_fits self -> r = Ok tt)) /\
  (exists r self',
     delete key self = Some (r, self') /\
     (forall fuel, (length (items self) <= fuel)%nat ->
                   delete_fuel fuel key self = Some (r, self')) /\
     ((exists w, r = Ok w) \/ r = Raise OverflowError \/ r = Raise IndexError) /\
     (intact self -> exists w, r = Ok w)) /\
  ((exists w, get self key default = Ok w) \/
   get self key default = Raise IndexError) /\
  (intact self -> exists w, get self key default = Ok w) /\
  (intact self -> exists b, __contains__ self key = Ok b) /\
  __len__ self = Z.of_nat (length (keys self)) /\
  __len__ self = Z.of_nat (length (values self)).
Proof.
  intros [HI _]%reachable_Inv Hk.
  assert (forall d, intact self -> exists w, get self key d = Ok w) as Hget.
  { intros d Hi.
    destruct (get_in_range self key d h HI Hk (intact_in_range _ _ HI Hi))
      as (_ & _ & Hr).
    destruct (Hr _ eq_refl) as [->|(w & -> & _)]; eauto. }
  split_and!.
  - destruct (put_fuel_spec _ self key v HI (Nat.lt_succ_diag_r _))
      as (r & self' & Hrun & _ & _ & _ & _ & Hlt & Hge).
    change (put key v self = Some (r, self')) in Hrun.
    exists r, self'. split; [done|]. split_and!.
    + intros fuel Hfuel. by rewrite put_fuel_enough.
    + destruct (Z.lt_ge_cases (count self) (threshold self)) as [Hc|Hc].
      * destruct (Hlt Hc) as (_ & _ & _ & _ & Hout & Hin).
        destruct (Z.lt_ge_cases (h mod size self) (chains self)) as [Hr|Hr].
        -- left. by destruct (Hin h Hk Hr).
        -- right. right. by destruct (Hout h Hk Hr).
      * destruct (Hge Hc) as (_ & _ & [[-> _]|(_ & _ & Hsome)] & _).
        -- right. by left.
        -- left. by destruct (Hsome h Hk).
    + intros Hi ->.
      destruct (put_fuel_ok _ self key v h HI Hi Hk (Nat.lt_succ_diag_r _))
        as (r & s & Hs & _ & _ & _ & Hres & _).
      change (put key v self = Some (r, s)) in Hs. rewrite Hrun in Hs.
      injection Hs as <- <-. by destruct Hres as [[? _]|[? _]].
    + intros Hi Hfits.
      destruct (put_ok self key v h HI Hi Hfits Hk) as (s & Hs & _). congruence.
  - destruct (delete_fuel_spec _ self key HI (Nat.le_refl _))
      as (r & self' & Hrun & _ & _ & _ & _ & Hout & Hin).
    change (delete key self = Some (r, self')) in Hrun.
    exists r, self'. split; [done|]. split_and!.
    + intros fuel Hfuel. by rewrite delete_fuel_enough.
    + destruct (Z.lt_ge_cases (h mod size self) (chains self)) as [Hr|Hr].
      * destruct (Hin h Hk Hr) as [Hno Hyes].
        destruct (matched_dec self key) as [Hm|Hm].
        -- destruct (Hyes Hm) as (_ & _ & (v0 & _ & [->|[-> _]]) & _); eauto.
        -- destruct (Hno Hm) as [-> _]. eauto.
      * right. right. by destruct (Hout h Hk Hr).
    + intros Hi. destruct (delete_ok self key h HI Hi Hk) as (w & s & Hs & _).
      exists w. congruence.
  - destruct (Z.lt_ge_cases (h mod size self) (chains self)) as [Hr|Hr].
    + left. destruct (get_in_range self key default h HI Hk Hr) as (_ & _ & Hg).
      destruct (Hg _ eq_refl) as [->|(w & -> & _)]; eauto.
    + right. by apply (get_out_of_range self key default h).
  - apply Hget.
  - intros Hi. unfold __contains__. destruct (Hget PyNone Hi) as [w ->]. eauto.
  - unfold __len__, keys. rewrite length_fmap. apply HI.
  - unfold __len__, values. rewrite length_fmap. apply HI.
Qed.

(** C10 (index range, as the code has it).  In every state of a
    container's lifetime the bucket index of a hashable key,
    [hash(key) % size], lies in [[0, size)] whatever the sign of the hash
    value.  The table has [size] chains, and the lookup at that index
    returns the chain in that very slot, as long as no resize has failed;
    after a resize that raised [OverflowError] the table has fewer chains
    than [size], and the lookup raises [IndexError] for an index from the
    number of chains on. *)
Theorem bucket_index_in_range initial_size lf self key h :
  reachable initial_size lf self ->
  hash key = Some h ->
  exists index,
    _hash self key = Ok index /\
    0 <= index < size self /\
    (intact self \/
     Z.of_nat (length (table self)) < size self /\
     compute_threshold (size self) (load_factor self) = Raise OverflowError) /\
    (index < Z.of_nat (length (table self)) ->
     exists b, list_getitem (table self) index = Ok (Z.to_nat index, b) /\
               table self !! Z.to_nat index = Some b) /\
    (Z.of_nat (length (table self)) <= index ->
     list_getitem (table self) index = Raise IndexError) /\
    (intact self -> index < Z.of_nat (length (table self))).
Proof.
  intros [HI _]%reachable_Inv Hk.
  destruct (Inv_bucket self key h HI Hk) as (Hidx & Hhash & Hout & Hin).
  exists (h mod size self). split_and!; [done|lia|lia| | | |].
  - apply HI.
  - intros Hr. destruct (Hin Hr) as (b & ? & ? & _). by exists b.
  - apply Hout.
  - intros Hi. by apply intact_in_range.
Qed.


(** * Further properties of the code *)

Lemma put_result_stored key v self self' :
  put_result key v self self' -> (key, v) ∈ items self'.
Proof.
  intros [Hm Hn]. destruct (matched_dec self key) as [H1|H1].
  - destruct (Hm H1) as [_ Hit]. apply Hit. by rewrite decide_True.
  - destruct (Hn H1) as [_ Hit]. rewrite Hit. by left.
Qed.

Lemma put_result_other key v self self' k' :
  put_result key v self self' -> k' ≠ key ->
  forall w, (k', w) ∈ items self' <-> (k', w) ∈ items self.
Proof.
  intros [Hm Hn] Hne w. destruct (matched_dec self key) as [H1|H1].
  - destruct (Hm H1) as [_ Hit]. rewrite Hit. by rewrite decide_False.
  - destruct (Hn H1) as [_ Hit]. rewrite Hit, elem_of_cons.
    split; [|by right]. by intros [[= ? ?]|?].
Qed.

Lemma compute_threshold_raises sz lf e :
  compute_threshold sz lf = Raise e -> e = OverflowError \/ e = ValueError.
Proof.
  unfold compute_threshold. destruct (float_limit <=? Z.abs sz).
  - intros [= <-]. by left.
  - destruct lf as [q|neg|].
    + cbv zeta. destruct (_ <=? _); [|done]. intros [= <-]. by left.
    + destruct (sz =? 0); intros [= <-]; [by right|by left].
    + intros [= <-]. by right.
Qed.

Lemma self_equal_keys_all (l : list K) :
  Forall (fun k => self_equal k = true) l -> self_equal_keys l = l.
Proof.
  induction 1 as [|k l Hk _ IH]; [done|].
  unfold self_equal_keys. rewrite filter_cons_True by done.
  f_equal. apply IH.
Qed.

(** X1.  [_is_power_of_two] is true exactly on the powers of two
    [1, 2, 4, ...]; zero and the negative integers are rejected. *)
Theorem is_power_of_two_iff n :
  _is_power_of_two n = true <-> exists e : nat, n = 2 ^ Z.of_nat e.
Proof. split; [apply _is_power_of_two_sound|apply _is_power_of_two_pow2]. Qed.

(** X2.  The constructor checks the size first: a size that is not a power
    of two raises [ValueError].  For a power of two it computes the
    threshold [int(size * load_factor)]: if that raises ([OverflowError]
    for a product beyond the floats, [ValueError] for a NaN), so does the
    constructor; otherwise it returns an empty table of [size] chains, with
    count 0, the given load factor and that threshold. *)
Theorem init_accepts_powers_of_two initial_size lf :
  (pow2 initial_size /\
   exists t (self : HashTable K V),
     compute_threshold initial_size lf = Ok t /\
     __init__ initial_size lf = Ok self /\
     size self = initial_size /\
     load_factor self = lf /\
     threshold self = t /\
     count self = 0 /\
     Z.of_nat (length (table self)) = initial_size /\
     items self = []) \/
  (pow2 initial_size /\
   exists e,
     compute_threshold initial_size lf = Raise e /\
     (e = OverflowError \/ e = ValueError) /\
     __init__ initial_size lf = Raise e) \/
  (~ pow2 initial_size /\
   __init__ initial_size lf = Raise ValueError).
Proof.
  unfold __init__. destruct (_is_power_of_two initial_size) eqn:Hp; simpl.
  - apply _is_power_of_two_sound in Hp.
    destruct (compute_threshold initial_size lf) as [t|e] eqn:Ht.
    + left. split; [done|]. eexists t, _. split; [done|]. split; [reflexivity|].
      simpl. split_and!; try done.
      * rewrite length_replicate. pose proof (pow2_pos _ Hp). lia.
      * unfold items. simpl. apply concat_replicate_nil.
    + right. left. split; [done|]. exists e. split_and!; [done| |done].
      by apply (compute_threshold_raises initial_size lf).
  - right. right. split; [|done]. intros Hpow.
    apply _is_power_of_two_pow2 in Hpow. congruence.
Qed.

(** X3.  A [put] with a hashable key that returns changes [count] by
    exactly the number of entries it adds: nothing for a key that a scan
    finds (stored and equal to itself), one otherwise, also when the call
    grows the table; and the key is stored afterwards. *)
Theorem put_count initial_size lf self key v h :
  reachable initial_size lf self ->
  intact self ->
  put_fits self ->
  hash key = Some h ->
  exists self',
    put key v self = Some (Ok tt, self') /\
    (matched self key -> count self' = count self) /\
    (~ matched self key -> count self' = count self + 1) /\
    key ∈ keys self'.
Proof.
  intros [HI _]%reachable_Inv Hi Hfits Hk.
  destruct (put_ok self key v h HI Hi Hfits Hk)
    as (self' & Hrun & _ & _ & _ & Hres & _).
  exists self'. split; [done|]. split_and!.
  - intros Hm. by destruct (proj1 Hres Hm).
  - intros Hn. by destruct (proj2 Hres Hn).
  - apply elem_of_keys. exists v. by apply (put_result_stored key v self).
Qed.

(** X4 (update).  Two puts on the same hashable, self-equal key: the
    second one replaces the value, a following [get] returns the second
    value, and the second put leaves [count] as the first one left it. *)
Theorem put_put_update initial_size lf self key v1 v2 default h :
  reachable initial_size lf self ->
  intact self ->
  put_fits self ->
  hash key = Some h ->
  self_equal key = true ->
  exists self1,
    put key v1 self = Some (Ok tt, self1) /\
    (put_fits self1 ->
     exists self2,
       put key v2 self1 = Some (Ok tt, self2) /\
       get self2 key default = Ok v2 /\
       count self2 = count self1).
Proof.
  intros [HI _]%reachable_Inv Hi Hfits Hk Hs.
  destruct (put_ok self key v1 h HI Hi Hfits Hk)
    as (self1 & Hrun1 & HI1 & Hi1 & _ & Hres1 & _).
  exists self1. split; [done|]. intros Hfits1.
  destruct (put_ok self1 key v2 h HI1 Hi1 Hfits1 Hk)
    as (self2 & Hrun2 & HI2 & Hi2 & _ & Hres2 & _).
  exists self2. split_and!; [done| |].
  - apply (get_present self2 key v2 default h HI2 Hi2 Hk Hs).
    by apply (put_result_stored key v2 self1).
  - apply (proj1 Hres2). split; [done|]. apply elem_of_keys. exists v1.
    by apply (put_result_stored key v1 self).
Qed.

(** X5 (delete removes).  On an intact table, deleting a stored hashable,
    self-equal key returns its value; afterwards the key is no longer among
    [keys()], [get] returns the default, the membership test is false and
    [count] is one less. *)
Theorem delete_removes initial_size lf self key v default h :
  reachable initial_size lf self ->
  intact self ->
  hash key = Some h ->
  self_equal key = true ->
  (key, v) ∈ items self ->
  exists self',
    delete key self = Some (Ok v, self') /\
    (key ∉ keys self') /\
    get self' key default = Ok default /\
    __contains__ self' key = Ok false /\
    count self' = count self - 1.
Proof.
  intros [HI _]%reachable_Inv Hi Hk Hs Hin.
  destruct (delete_ok self key h HI Hi Hk)
    as (r & self' & Hrun & HI' & Hi' & _ & _ & Hyes).
  destruct Hyes as (Hr & Hcnt & Hit & _).
  { split; [done|]. apply elem_of_keys. by exists v. }
  assert (r = v) as -> by apply (items_functional self key r v HI Hs Hr Hin).
  assert (~ matched self' key) as Hnm.
  { intros [_ [w [Hne _]%Hit]%elem_of_keys]. done. }
  exists self'. split_and!; [done| | | |done].
  - intros [w [Hne _]%Hit]%elem_of_keys. done.
  - by apply (get_absent self' key default h).
  - unfold __contains__. by rewrite (get_absent self' key PyNone h).
Qed.

(** X6.  A [put] does not disturb the other keys: for every hashable key
    other than the one put, [get] returns what it returned before, also
    when the put rehashes the whole table. *)
Theorem put_preserves_other_keys initial_size lf self key v k' default h h' :
  reachable initial_size lf self ->
  intact self ->
  put_fits self ->
  hash key = Some h ->
  hash k' = Some h' ->
  k' ≠ key ->
  exists self',
    put key v self = Some (Ok tt, self') /\
    get self' k' default = get self k' default.
Proof.
  intros [HI _]%reachable_Inv Hi Hfits Hk Hk' Hne.
  destruct (put_ok self key v h HI Hi Hfits Hk)
    as (self' & Hrun & HI' & Hi' & _ & Hres & _).
  exists self'. split; [done|].
  apply (get_same_items self self' k' default h' HI HI' Hk').
  - split; intros _; by apply intact_in_range.
  - by apply (put_result_other key v self self').
Qed.

(** X7.  A [delete] does not disturb the other keys: for every hashable
    key other than the one deleted, [get] returns what it returned before,
    also when the delete shrinks and rehashes the table. *)
Theorem delete_preserves_other_keys initial_size lf self key k' default h h' :
  reachable initial_size lf self ->
  intact self ->
  hash key = Some h ->
  hash k' = Some h' ->
  k' ≠ key ->
  exists r self',
    delete key self = Some (Ok r, self') /\
    get self' k' default = get self k' default.
Proof.
  intros [HI _]%reachable_Inv Hi Hk Hk' Hne.
  destruct (delete_ok self key h HI Hi Hk)
    as (r & self' & Hrun & HI' & Hi' & _ & Hno & Hyes).
  exists r, self'. split; [done|].
  destruct (matched_dec self key) as [Hm|Hm].
  - destruct (Hyes Hm) as (_ & _ & Hit & _).
    apply (get_same_items self self' k' default h' HI HI' Hk').
    + split; intros _; by apply intact_in_range.
    + intros w. rewrite Hit. tauto.
  - by destruct (Hno Hm) as [_ ->].
Qed.

(** X8.  [get] agrees with the enumeration: on an intact table and for a
    hashable key, it returns the value paired with the key in [items()] if
    the key is equal to itself, and the default when a scan does not find
    the key (it is not stored, or not equal to itself). *)
Theorem get_agrees_with_items initial_size lf self key default h :
  reachable initial_size lf self ->
  intact self ->
  hash key = Some h ->
  (forall v, self_equal key = true -> (key, v) ∈ items self ->
             get self key default = Ok v) /\
  (~ matched self key -> get self key default = Ok default).
Proof.
  intros [HI _]%reachable_Inv Hi Hk. split.
  - intros v Hs Hin. by apply (get_present self key v default h).
  - intros Hn. by apply (get_absent self key default h).
Qed.

(** X9.  No self-equal key is ever stored twice: in every state of a
    container's lifetime the keys that [keys()] yields and that are equal
    to themselves are pairwise distinct. *)
Theorem keys_no_duplicates initial_size lf self :
  reachable initial_size lf self -> NoDup (self_equal_keys (keys self)).
Proof. intros [HI _]%reachable_Inv. by apply NoDup_keys. Qed.

(** X10.  What the membership test really computes: on an intact table,
    for a hashable, self-equal key, [key in table] is true exactly when the
    key is stored with a value other than [None]. *)
Theorem contains_iff_stored_non_None initial_size lf self key h :
  reachable initial_size lf self ->
  intact self ->
  hash key = Some h ->
  self_equal key = true ->
  exists b,
    __contains__ self key = Ok b /\
    (b = true <-> exists v, (key, PyObj v) ∈ items self).
Proof.
  intros [HI _]%reachable_Inv Hi Hk Hs. by apply (__contains___spec self key h).
Qed.

(** X11.  [_resize] refuses a size that is not a power of two: it raises
    [ValueError] before touching the table. *)
Theorem resize_rejects_bad_size fuel new_size self :
  ~ pow2 new_size ->
  _resize fuel new_size self = Some (Raise ValueError, self).
Proof.
  intros Hnp. unfold _resize, _resize_with.
  destruct (_is_power_of_two new_size) eqn:Hp; [|done].
  by apply _is_power_of_two_sound in Hp.
Qed.

(** X12.  [_resize] to a power of two whose threshold can be computed and
    is at least [count] loses nothing and invents nothing: it returns
    normally, the table has the requested size and as many chains, the
    threshold is that of the requested size, the entries, the count and the
    load factor are those of before, and on a table that was intact every
    [get] answers as before. *)
Theorem resize_preserves_content initial_size lf self fuel new_size t :
  reachable initial_size lf self ->
  pow2 new_size ->
  (length (items self) <= fuel)%nat ->
  compute_threshold new_size (load_factor self) = Ok t ->
  count self <= t ->
  exists self',
    _resize fuel new_size self = Some (Ok tt, self') /\
    items self' ≡ₚ items self /\
    count self' = count self /\
    load_factor self' = load_factor self /\
    threshold self' = t /\
    size self' = new_size /\
    Z.of_nat (length (table self')) = new_size /\
    (intact self ->
     forall k default, is_Some (hash k) ->
                       get self' k default = get self k default).
Proof.
  intros [HI _]%reachable_Inv Hp Hfuel Ht Hc.
  destruct (_resize_with_spec fuel self new_size (put_fuel_ok fuel) HI Hp Hfuel)
    as (r & self' & Hrun & HI' & Hlf & _ & Hres & _ & Hexact).
  destruct (Hexact t Ht Hc) as (-> & Hsz & Hthr).
  destruct Hres as [(_ & Hi' & Hit & Hcnt)|[? _]]; [|done].
  exists self'. split_and!; try done.
  - by rewrite <- Hsz.
  - intros Hi k default [h Hk].
    apply (get_same_items self self' k default h HI HI' Hk).
    + split; intros _; by apply intact_in_range.
    + intros w. by rewrite Hit.
Qed.

(** X13.  The load factor never changes after construction, and in every
    state of a container's lifetime [threshold] is
    [int(n * load_factor)] for the number [n] of chains, which is [size]
    on an intact table. *)
Theorem threshold_follows_size initial_size lf self :
  reachable initial_size lf self ->
  load_factor self = lf /\
  compute_threshold (Z.of_nat (length (table self))) lf = Ok (threshold self) /\
  (intact self -> compute_threshold (size self) lf = Ok (threshold self)).
Proof.
  intros [HI Hlf]%reachable_Inv. split; [done|]. rewrite <- Hlf. split.
  - apply HI.
  - intros Hi. rewrite <- Hi. apply HI.
Qed.

(** X14.  Every entry is where a lookup will search for it: in every
    state of a container's lifetime every stored key is hashable and an
    entry in chain [i] of the [n] chains has [hash(key) % n = i]; the table
    has [size] chains, unless a resize has failed in [int(...)], which
    leaves fewer chains than [size]. *)
Theorem entries_in_their_chain initial_size lf self :
  reachable initial_size lf self ->
  (Z.of_nat (length (table self)) = size self \/
   Z.of_nat (length (table self)) < size self /\
   compute_threshold (size self) (load_factor self) = Raise OverflowError) /\
  forall i b k v,
    table self !! i = Some b -> (k, v) ∈ b ->
    exists h, hash k = Some h /\
              h mod Z.of_nat (length (table self)) = Z.of_nat i.
Proof.
  intros [HI _]%reachable_Inv. split; [apply HI|].
  intros i b k v Hi Hin. by apply (Inv_entry_slot self k v i b).
Qed.

(** X15.  A [put] never shrinks the table: whatever the key and however
    the call ends, the size afterwards is the size before times a power of
    two. *)
Theorem put_never_shrinks initial_size lf self key v r self' :
  reachable initial_size lf self ->
  put key v self = Some (r, self') ->
  size self <= size self' /\
  exists j : nat, size self' = size self * 2 ^ Z.of_nat j.
Proof.
  intros [HI _]%reachable_Inv Hrun.
  destruct (put_Inv _ _ _ _ _ HI Hrun) as (_ & _ & j & Hj).
  split; [|by exists j].
  pose proof (pow2_pos _ (inv_pow2 _ HI)). pose proof (pow2_ge_1 j). nia.
Qed.

(** X16.  A [delete] never grows the table: whatever the key and however
    the call ends, the size afterwards is the size before or, from a size
    above 8, exactly half of it and still at least 8. *)
Theorem delete_never_grows initial_size lf self key r self' :
  reachable initial_size lf self ->
  delete key self = Some (r, self') ->
  size self' = size self \/
  (8 < size self /\ size self' = size self / 2 /\ 8 <= size self').
Proof.
  intros [HI _]%reachable_Inv Hrun.
  by destruct (delete_Inv _ _ _ _ HI Hrun) as (_ & _ & ?).
Qed.

(** X17.  With a finite load factor of at least one half, as the default
    0.75 is, the table is never left over its threshold: in every state of
    a container's lifetime [count <= threshold]. *)
Theorem count_within_threshold initial_size q self :
  (1 # 2 <= q)%Q ->
  reachable initial_size (Finite q) self ->
  count self <= threshold self.
Proof.
  intros Hq Hreach.
  by apply (reachable_load_bound initial_size q self).
Qed.

(** X18.  With a finite load factor of at least one half a [put] grows the
    table at most once: the size is unchanged when [count < threshold] and
    exactly doubled otherwise, however the call ends; and it returns
    normally on an intact table when it fits. *)
Theorem put_doubles_at_most_once initial_size q self key v h :
  (1 # 2 <= q)%Q ->
  reachable initial_size (Finite q) self ->
  hash key = Some h ->
  exists r self',
    put key v self = Some (r, self') /\
    (count self < threshold self -> size self' = size self) /\
    (threshold self <= count self -> size self' = size self * 2) /\
    (intact self -> put_fits self -> r = Ok tt).
Proof.
  intros Hq Hreach Hk.
  destruct (reachable_Inv _ _ _ Hreach) as [HI Hlf].
  pose proof (reachable_load_bound _ _ _ Hq Hreach) as Hle.
  destruct (put_fuel_spec _ self key v HI (Nat.lt_succ_diag_r _))
    as (r & self' & Hrun & _ & _ & _ & _ & Hlt & Hge).
  change (put key v self = Some (r, self')) in Hrun.
  exists r, self'. split; [done|]. split_and!.
  - intros Hc. by destruct (Hlt Hc).
  - intros Hc. destruct (Hge Hc) as (_ & Hover & _ & Hfit).
    destruct (compute_threshold (size self * 2) (load_factor self)) as [t|e] eqn:Ht.
    + destruct (intact_dec self) as [Hi|Hni];
        [|by rewrite (torn_cannot_grow _ HI Hni) in Ht].
      destruct (Hfit t eq_refl) as [? _]; [|done].
      rewrite Hlf in Ht.
      destruct (compute_threshold_Ok _ _ _ Ht) as (q' & [= <-] & _ & ->).
      pose proof (Inv_threshold_value self q HI Hlf) as Hthr.
      unfold intact in Hi. fold (chains self) in Hi. rewrite Hi in Hthr.
      destruct (threshold_value_double (size self) q Hq (pow2_pos _ (inv_pow2 _ HI))).
      lia.
    + assert (e = OverflowError) as ->
        by apply (compute_threshold_error _ _ _ _ _ (inv_thr _ HI) Ht).
      by destruct (Hover eq_refl) as [_ ->].
  - intros Hi Hfits.
    destruct (put_ok self key v h HI Hi Hfits Hk) as (s & Hs & _). congruence.
Qed.

(** X19.  A [put] below the threshold touches one chain only and keeps
    the order of the entries: on an intact table the size is unchanged; if
    a scan finds the key in its chain, the pair at that position is
    replaced in place and [keys()] yields the same sequence as before;
    otherwise (the key is not in the chain, or not equal to itself) the
    new pair is appended at the end of the chain. *)
Theorem put_updates_in_place_or_appends initial_size lf self key v h :
  reachable initial_size lf self ->
  intact self ->
  hash key = Some h ->
  count self < threshold self ->
  exists b self',
    table self !! Z.to_nat (h mod size self) = Some b /\
    put key v self = Some (Ok tt, self') /\
    size self' = size self /\
    ((exists i v0,
        self_equal key = true /\
        b !! i = Some (key, v0) /\
        table self' =
          <[Z.to_nat (h mod size self) := <[i := (key, v)]> b]> (table self) /\
        keys self' = keys self /\
        count self' = count self) \/
     ((self_equal key = false \/ key ∉ b.*1) /\
      table self' = <[Z.to_nat (h mod size self) := b ++ [(key, v)]]> (table self) /\
      count self' = count self + 1)).
Proof.
  intros [HI _]%reachable_Inv Hi Hk Hlt.
  destruct (Inv_bucket self key h HI Hk) as (_ & Hhash & _ & Hin).
  destruct (Hin (intact_in_range _ _ HI Hi)) as (b & Hget & Hb & _).
  exists b. unfold put. rewrite put_fuel_S.
  assert ((threshold self <=? count self) = false) as -> by (apply Z.leb_gt; lia).
  simpl. unfold put_entry, bind, lift. rewrite Hhash, Hget.
  destruct (chain_find key b) as [[i v0]|] eqn:Hf.
  - eexists. split; [done|]. split; [reflexivity|]. split; [done|]. left.
    destruct (chain_find_Some _ _ _ _ Hf) as (Hs & l1 & l2 & Hbeq & Hlen & _).
    assert (b !! i = Some (key, v0)) as Hbi
      by (rewrite Hbeq, <- Hlen; apply list_lookup_middle; done).
    exists i, v0. split_and!; [done..| |done].
    unfold keys, items. simpl. apply (keys_insert_same _ _ b); [done|].
    rewrite list_fmap_insert. apply list_insert_id.
    by rewrite list_lookup_fmap, Hbi.
  - eexists. split; [done|]. split; [reflexivity|]. split; [done|]. right.
    split_and!; [|done..]. by apply chain_find_None.
Qed.

(** X20 (shrink trigger).  Put seven distinct hashable, self-equal keys
    into a default-constructed table and delete five of them, in any
    order: the size is 16 after the puts and still 16 after four deletes,
    and the fifth delete, which leaves two entries, brings it back to 8. *)
Theorem shrink_trigger (kvs : list entry) (dels : list K) self0 :
  __init__ 8 (Finite (3 # 4)) = Ok self0 ->
  NoDup kvs.*1 ->
  Forall (fun kv => is_Some (hash kv.1)) kvs ->
  Forall (fun kv => self_equal kv.1 = true) kvs ->
  length kvs = 7%nat ->
  NoDup dels ->
  (forall k, k ∈ dels -> k ∈ kvs.*1) ->
  length dels = 5%nat ->
  exists self7 self4 self5,
    put_all kvs self0 = Some (Ok tt, self7) /\
    size self7 = 16 /\
    run (Delete <$> take 4 dels) self7 = Some (Ok tt, self4) /\
    size self4 = 16 /\
    run (Delete <$> drop 4 dels) self4 = Some (Ok tt, self5) /\
    size self5 = 8.
Proof.
  intros Hinit Hnd Hhash Hself Hlen Hndd Hsub Hlend.
  destruct (__init___Inv _ _ _ Hinit) as (HI0 & Hi0 & Hsz0 & Hlf0 & Hthr0 & Hcnt0 & Hempty).
  assert (compute_threshold 8 (Finite (3 # 4)) = Ok 6) as H6 by by vm_compute.
  assert (compute_threshold (8 * 2) (Finite (3 # 4)) = Ok 12) as H12 by by vm_compute.
  rewrite H6 in Hthr0. injection Hthr0 as Hthr0.
  assert (forall k, k ∈ kvs.*1 -> self_equal k = true) as Hselfk.
  { intros k ([k' w] & -> & Hin)%list_elem_of_fmap.
    by apply (proj1 (Forall_forall _ _) Hself (k', w)). }
  (* the seven puts *)
  rewrite <- (take_drop 6 kvs) in Hnd, Hhash, Hsub, Hselfk |- *.
  rewrite fmap_app in Hnd, Hsub, Hselfk. apply NoDup_app in Hnd as (Hnd6 & Hdisj & _).
  apply Forall_app in Hhash as [Hhash6 Hhash7].
  destruct (put_all_below (take 6 kvs) Hnd6 Hhash6 self0 HI0 Hi0)
    as (self6 & Hrun6 & HI6 & Hi6 & Hsz6 & Hlf6 & Hthr6 & Hcnt6 & Hit6).
  { intros k _. unfold keys. rewrite Hempty. apply not_elem_of_nil. }
  { rewrite length_take. lia. }
  rewrite length_take in Hcnt6. rewrite Hempty in Hit6. simpl in Hit6.
  destruct (drop 6 kvs) as [|[k7 v7] rest] eqn:Hdrop.
  { apply (f_equal length) in Hdrop. rewrite length_drop in Hdrop. simpl in Hdrop. lia. }
  assert (rest = []) as ->.
  { apply (f_equal length) in Hdrop. rewrite length_drop in Hdrop. simpl in Hdrop.
    destruct rest; [done|simpl in Hdrop; lia]. }
  apply Forall_cons in Hhash7 as [[h7 Hh7] _].
  destruct (put_ok self6 k7 v7 h7 HI6 Hi6)
    as (self7 & Hrun7 & HI7 & Hi7 & Hlf7 & Hres7 & _ & Hdouble); [|done|].
  { right. exists 12. rewrite Hsz6, Hlf6, Hsz0, Hlf0. split; [done|lia]. }
  destruct Hdouble as [Hsz7 Hthr7]; [lia|].
  rewrite Hsz6, Hlf6, Hsz0, Hlf0, H12 in Hthr7. injection Hthr7 as Hthr7.
  assert (~ matched self6 k7) as Hfresh.
  { intros [_ Hin]. unfold keys in Hin. rewrite Hit6 in Hin.
    apply (Hdisj k7 Hin). simpl. by left. }
  destruct (proj2 Hres7 Hfresh) as [Hcnt7 Hit7].
  assert (forall k, k ∈ (take 6 kvs).*1 ++ [(k7, v7)].*1 -> matched self7 k) as Hkeys7.
  { intros k Hin. split; [by apply Hselfk|].
    unfold keys. rewrite Hit7, Hit6. simpl.
    apply elem_of_app in Hin as [Hin|Hin%list_elem_of_singleton].
    - by right.
    - subst k. by left. }
  (* the first four deletes *)
  rewrite <- (take_drop 4 dels) in Hndd, Hsub.
  apply NoDup_app in Hndd as (Hndd4 & Hdisjd & _).
  destruct (delete_run_no_shrink (take 4 dels) Hndd4 self7 HI7 Hi7)
    as (self4 & Hrun4 & HI4 & Hi4 & Hsz4 & Hlf4 & Hthr4 & Hcnt4 & Hkeys4).
  { intros k Hin. apply Hkeys7, Hsub, elem_of_app. by left. }
  { rewrite <- Hthr7, length_take. change (12 / 4) with 3. lia. }
  rewrite length_take in Hcnt4.
  (* the fifth delete *)
  destruct (drop 4 dels) as [|k5 restd] eqn:Hdropd.
  { apply (f_equal length) in Hdropd. rewrite length_drop in Hdropd. simpl in Hdropd. lia. }
  assert (restd = []) as ->.
  { apply (f_equal length) in Hdropd. rewrite length_drop in Hdropd. simpl in Hdropd.
    destruct restd; [done|simpl in Hdropd; lia]. }
  assert (matched self7 k5) as [Hs5 Hk5].
  { apply Hkeys7, Hsub, elem_of_app. right. by left. }
  assert (matched self4 k5) as Hm5.
  { split; [done|]. apply Hkeys4. split; [done|].
    intros Hin. apply (Hdisjd k5 Hin). by left. }
  destruct (proj1 (elem_of_keys self4 k5) (proj2 Hm5)) as [w5 Hw5].
  destruct (Inv_stored_hashable self4 k5 w5 HI4 Hw5) as [h5 Hh5].
  destruct (delete_ok self4 k5 h5 HI4 Hi4 Hh5)
    as (r5 & self5 & Hrun5 & _ & _ & _ & _ & Hyes).
  destruct (Hyes Hm5) as (_ & _ & _ & Hhalf & _).
  destruct Hhalf as [Hsz5 _].
  { lia. }
  { rewrite Hthr4, <- Hthr7. change (12 / 4) with 3. lia. }
  exists self7, self4, self5. split_and!; [|lia|done|lia| |].
  - unfold put_all. rewrite for_each_app. unfold bind.
    fold (put_all (take 6 kvs) self0). rewrite Hrun6.
    simpl. unfold bind. by rewrite Hrun7.
  - unfold run. rewrite fmap_cons. cbn [fmap list_fmap for_each apply_op].
    unfold bind. by rewrite Hrun5.
  - rewrite Hsz5, Hsz4, Hsz7, Hsz6, Hsz0. done.
Qed.


Lemma replay_from_key (ops : list op) (m : gmap K (value V)) k v :
  replay_from m ops !! k = Some v -> is_Some (m !! k) \/ k ∈ op_key <$> ops.
Proof.
  revert m. induction ops as [|o ops IH]; intros m; simpl.
  - intros ?. left. eauto.
  - intros [Hm|Hin]%IH; [|right; by right].
    destruct o as [key w|key]; simpl in *.
    + destruct (decide (k = key)) as [->|Hne]; [right; by left|].
      rewrite lookup_insert_ne in Hm by done. by left.
    + destruct (decide (k = key)) as [->|Hne].
      * rewrite lookup_delete_eq in Hm. by destruct Hm.
      * rewrite lookup_delete_ne in Hm by done. by left.
Qed.

(** X21.  The whole observable state refines a dictionary.  A sequence of
    puts and deletes with hashable, self-equal keys on a table built with
    any accepted size and load factor either returns normally or stops
    with the [OverflowError] of a resize.  When it returns, [len] is the
    number of keys of the reference mapping replayed on the same sequence,
    and [get] with any hashable key returns the mapping's value, or the
    default where the mapping has none. *)
Theorem len_and_get_refine_reference_mapping (ops : list op) initial_size lf self0 :
  __init__ initial_size lf = Ok self0 ->
  Forall (fun o => is_Some (hash (op_key o)) /\ self_equal (op_key o) = true) ops ->
  exists r self,
    run ops self0 = Some (r, self) /\
    (r = Ok tt \/ r = Raise OverflowError) /\
    (r = Ok tt ->
     __len__ self = Z.of_nat (base.size (replay ops)) /\
     forall k default,
       is_Some (hash k) ->
       get self k default = Ok (match replay ops !! k with
                                | Some v => v
                                | None => default
                                end)).
Proof.
  intros Hinit Hops.
  destruct (__init___Inv _ _ _ Hinit) as (HI0 & Hi0 & _ & _ & _ & _ & Hempty).
  destruct (run_refines ops Hops self0 ∅ HI0 Hi0) as (r & self & Hrun & HI & Hres).
  { intros k v. rewrite Hempty, lookup_empty. split; [by intros ?%elem_of_nil|done]. }
  exists r, self. split; [done|]. split; [destruct Hres as [[? _]|[? _]]; auto|].
  intros ->. destruct Hres as [(_ & Hi & Hit)|[? _]]; [|done].
  fold (replay ops) in Hit.
  assert (forall k, k ∈ keys self -> self_equal k = true) as Hself.
  { intros k [v Hin%Hit]%elem_of_keys.
    destruct (replay_from_key ops ∅ k v Hin) as [[w Hw]|Hin'].
    - by rewrite lookup_empty in Hw.
    - apply list_elem_of_fmap in Hin' as (o & -> & Ho).
      by destruct (proj1 (Forall_forall _ _) Hops o Ho). }
  split.
  - unfold __len__. rewrite (inv_count _ HI). f_equal.
    rewrite <- length_map_to_list. apply Permutation_length.
    apply NoDup_Permutation.
    + apply (NoDup_fmap_1 fst). fold (keys self).
      rewrite <- (self_equal_keys_all (keys self)); [by apply NoDup_keys|].
      by apply Forall_forall.
    + apply NoDup_map_to_list.
    + intros [k v]. rewrite elem_of_map_to_list. apply Hit.
  - intros k default [h Hk].
    destruct (replay ops !! k) as [v|] eqn:Hlook.
    + apply Hit in Hlook. apply (get_present self k v default h HI Hi Hk); [|done].
      apply Hself, elem_of_keys. by exists v.
    + apply (get_absent self k default h HI Hi Hk).
      intros [_ [v Hin%Hit]%elem_of_keys]. congruence.
Qed.

(** X22.  A [delete] undoes a [put] of a new key: on an intact table,
    putting a hashable, self-equal key that is not stored and deleting it
    again returns the value put and leaves exactly the entries and the
    count of before (the size may have grown in between). *)
Theorem put_then_delete_restores initial_size lf self key v h :
  reachable initial_size lf self ->
  intact self ->
  put_fits self ->
  hash key = Some h ->
  self_equal key = true ->
  key ∉ keys self ->
  exists self1 self2,
    put key v self = Some (Ok tt, self1) /\
    delete key self1 = Some (Ok v, self2) /\
    (forall x, x ∈ items self2 <-> x ∈ items self) /\
    count self2 = count self.
Proof.
  intros [HI _]%reachable_Inv Hi Hfits Hk Hs Hnin.
  destruct (put_ok self key v h HI Hi Hfits Hk)
    as (self1 & Hrun1 & HI1 & Hi1 & _ & Hres1 & _).
  destruct (proj2 Hres1) as [Hcnt1 Hit1]; [by intros [_ ?]|].
  assert ((key, v) ∈ items self1) as Hin1 by (rewrite Hit1; by left).
  destruct (delete_ok self1 key h HI1 Hi1 Hk)
    as (r & self2 & Hrun2 & _ & _ & _ & _ & Hyes).
  destruct Hyes as (Hr & Hcnt2 & Hit2 & _).
  { split; [done|]. apply elem_of_keys. by exists v. }
  assert (r = v) as -> by apply (items_functional self1 key r v HI1 Hs Hr Hin1).
  exists self1, self2. split_and!; [done..| |lia].
  intros [k' v']. rewrite Hit2, Hit1, elem_of_cons.
  destruct (decide (k' = key)) as [->|Hne].
  - split; [by intros [? _]|]. intros Hin. destruct Hnin.
    apply elem_of_keys. by exists v'.
  - split; [intros [_ [[= ? ?]|?]]; done|]. intros ?. split; [done|by right].
Qed.

(** X23.  A freshly constructed table is empty: [len] is 0, and for every
    hashable key [get] returns the default, the membership test is false
    and [delete] returns [None] and changes nothing. *)
Theorem fresh_table_is_empty initial_size lf self key default h :
  __init__ initial_size lf = Ok self ->
  hash key = Some h ->
  __len__ self = 0 /\
  get self key default = Ok default /\
  __contains__ self key = Ok false /\
  delete key self = Some (Ok PyNone, self).
Proof.
  intros Hinit Hk.
  destruct (__init___Inv _ _ _ Hinit) as (HI & Hi & _ & _ & _ & Hcnt & Hempty).
  assert (~ matched self key) as Hnm.
  { intros [_ Hin]. unfold keys in Hin. rewrite Hempty in Hin.
    by apply elem_of_nil in Hin. }
  split_and!.
  - done.
  - by apply (get_absent self key default h).
  - unfold __contains__. by rewrite (get_absent self key PyNone h).
  - destruct (delete_ok self key h HI Hi Hk) as (r & s & Hrun & _ & _ & _ & Hno & _).
    by destruct (Hno Hnm) as [-> ->].
Qed.

(** X24.  The table stays intact until a resize raises [OverflowError]:
    the constructor returns an intact table; a [put] on an intact table,
    with any key, leaves it intact exactly when it does not raise
    [OverflowError]; a [delete] on an intact table never raises
    [OverflowError] and leaves it intact. *)
Theorem intact_until_overflow initial_size lf self key v :
  reachable initial_size lf self ->
  intact self ->
  (exists r self',
     put key v self = Some (r, self') /\
     (intact self' <-> r ≠ Raise OverflowError)) /\
  (exists r self',
     delete key self = Some (r, self') /\
     intact self' /\ r ≠ Raise OverflowError).
Proof.
  intros [HI _]%reachable_Inv Hi. split.
  - destruct (put_fuel_spec _ self key v HI (Nat.lt_succ_diag_r _))
      as (r & self' & Hrun & _ & _ & _ & _ & Hlt & Hge).
    change (put key v self = Some (r, self')) in Hrun.
    exists r, self'. split; [done|].
    destruct (Z.lt_ge_cases (count self) (threshold self)) as [Hc|Hc].
    + destruct (Hlt Hc) as (Hsz & _ & Hch & Hnone & Hout & Hin).
      assert (intact self') as Hi'.
      { unfold intact in *. fold (chains self) in Hi. fold (chains self'). lia. }
      split; [|done]. intros _.
      destruct (hash key) as [h|] eqn:Hk; [|by destruct Hnone as [-> _]].
      destruct (Hin h eq_refl (intact_in_range _ _ HI Hi)) as [-> _]. done.
    + destruct (Hge Hc) as (_ & _ & [[-> Hni]|(Hi' & Hnone & Hsome)] & _).
      * split; [done|]. by intros [].
      * split; [|done]. intros _.
        destruct (hash key) as [h|] eqn:Hk.
        -- by destruct (Hsome h eq_refl) as [-> _].
        -- by destruct Hnone as [-> _].
  - destruct (delete_fuel_spec _ self key HI (Nat.le_refl _))
      as (r & self' & Hrun & _ & _ & _ & Hnone & _ & _).
    change (delete key self = Some (r, self')) in Hrun.
    exists r, self'. split; [done|].
    destruct (hash key) as [h|] eqn:Hk.
    + destruct (delete_ok self key h HI Hi Hk) as (w & s & Hs & _ & Hi' & _).
      rewrite Hrun in Hs. injection Hs as -> ->. done.
    + by destruct Hnone as [-> ->].
Qed.

(** X25.  A hashable key that is not equal to itself, such as
    [float('nan')], is stored but never found: on an intact table [get]
    returns the default, the membership test is false and [delete] returns
    [None] and changes nothing, whether or not the key is stored; and a
    [put] that fits always adds one more entry, which the following [get]
    does not find. *)
Theorem unequal_key_is_never_found initial_size lf self key v default h :
  reachable initial_size lf self ->
  intact self ->
  hash key = Some h ->
  self_equal key = false ->
  get self key default = Ok default /\
  __contains__ self key = Ok false /\
  delete key self = Some (Ok PyNone, self) /\
  (put_fits self ->
   exists self',
     put key v self = Some (Ok tt, self') /\
     count self' = count self + 1 /\
     items self' ≡ₚ (key, v) :: items self /\
     get self' key default = Ok default).
Proof.
  intros [HI _]%reachable_Inv Hi Hk Hs.
  assert (forall s, ~ matched s key) as Hnm by (intros s [? _]; congruence).
  split_and!.
  - by apply (get_absent self key default h).
  - unfold __contains__. by rewrite (get_absent self key PyNone h).
  - destruct (delete_ok self key h HI Hi Hk) as (r & s & Hrun & _ & _ & _ & Hno & _).
    by destruct (Hno (Hnm self)) as [-> ->].
  - intros Hfits.
    destruct (put_ok self key v h HI Hi Hfits Hk)
      as (self' & Hrun & HI' & Hi' & _ & Hres & _).
    destruct (proj2 Hres (Hnm self)) as [Hcnt Hit].
    exists self'. split_and!; [done..|].
    by apply (get_absent self' key default h).
Qed.

(** X26.  A resize that fails changes the size and nothing else: when a
    [put], with any key, has to grow the table and the threshold of the
    doubled size cannot be computed, it raises [OverflowError], and the
    container is left with the doubled [size] but with its old threshold,
    count and chains, so that it is no longer intact. *)
Theorem failed_resize_changes_size_only initial_size lf self key v :
  reachable initial_size lf self ->
  threshold self <= count self ->
  compute_threshold (size self * 2) (load_factor self) = Raise OverflowError ->
  put key v self = Some (Raise OverflowError, set_size (size self * 2) self) /\
  ~ intact (set_size (size self * 2) self).
Proof.
  intros [HI _]%reachable_Inv Hc Hover.
  destruct (put_fuel_spec _ self key v HI (Nat.lt_succ_diag_r _))
    as (r & self' & Hrun & _ & _ & _ & _ & _ & Hge).
  change (put key v self = Some (r, self')) in Hrun.
  destruct (Hge Hc) as (_ & Ho & _). destruct (Ho Hover) as [-> ->].
  split; [done|].
  by apply (Inv_set_size self (size self * 2) HI (pow2_double _ (inv_pow2 _ HI))).
Qed.

(** X27.  A [put] never repairs a table that a failed resize has left
    with fewer chains than [size]: however the call ends, the number of
    chains is unchanged and the table is still not intact. *)
Theorem put_cannot_repair initial_size lf self key v r self' :
  reachable initial_size lf self ->
  ~ intact self ->
  put key v self = Some (r, self') ->
  length (table self') = length (table self) /\ ~ intact self'.
Proof.
  intros [HI _]%reachable_Inv Hni Hrun.
  destruct (put_fuel_spec _ self key v HI (Nat.lt_succ_diag_r _))
    as (r0 & s & Hs & _ & _ & _ & _ & Hlt & Hge).
  change (put key v self = Some (r0, s)) in Hs. rewrite Hrun in Hs.
  injection Hs as <- <-.
  destruct (Z.lt_ge_cases (count self) (threshold self)) as [Hc|Hc].
  - destruct (Hlt Hc) as (Hsz & _ & Hch & _). unfold chains in Hch. split; [lia|].
    unfold intact in *. lia.
  - destruct (Hge Hc) as (_ & Hover & _).
    destruct (Hover (torn_cannot_grow _ HI Hni)) as [_ ->]. split; [done|].
    by apply (Inv_set_size self (size self * 2) HI (pow2_double _ (inv_pow2 _ HI))),
      torn_cannot_grow.
Qed.

End HashTable.

(** * The properties on concrete tables

    Keys are [pykey] with CPython's integer hash, values are integers. *)

Ltac by_evaluation := vm_compute; reflexivity.

Ltac holds_by_evaluation := apply (bool_decide_unpack _); vm_compute; exact I.

Ltac sparse_table_is_reachable :=
  apply (run_reachable pyhash py_self_equal 8 (Finite (3 # 4))
           (((fun n => Put (KInt n) (PyObj n)) <$> [0; 1; 2; 3; 4; 5; 6])
            ++ ((fun n => Delete (KInt n)) <$> [0; 1; 2; 3]))
           default_table (Ok tt));
  [apply reach_init; by_evaluation | by_evaluation].

Lemma steep_one_table_reachable :
  reachable pyhash py_self_equal 8 steep steep_one_table.
Proof.
  apply (reach_put pyhash py_self_equal 8 steep steep_table
           (KInt 1) (PyObj 1) (Ok tt)).
  - apply reach_init. by_evaluation.
  - by_evaluation.
Qed.

Lemma torn_table_reachable :
  reachable pyhash py_self_equal 8 steep torn_table.
Proof.
  apply (reach_put pyhash py_self_equal 8 steep steep_one_table
           (KInt 17) (PyObj 17) (Raise OverflowError)).
  - apply steep_one_table_reachable.
  - by_evaluation.
Qed.

(** C1 at the key [42] of the source's own test. *)
Lemma put_get_roundtrip_witness :
  exists r self',
    put pyhash py_self_equal (KInt 42) (PyObj 7) default_table = Some (r, self') /\
    (r = Ok tt ->
     get pyhash py_self_equal self' (KInt 42) PyNone = Ok (PyObj 7)) /\
    (intact default_table -> put_fits default_table -> r = Ok tt).
Proof.
  apply (put_get_roundtrip pyhash py_self_equal 8 (Finite (3 # 4)) default_table
           (KInt 42) (PyObj 7) PyNone 42).
  - apply reach_init. by_evaluation.
  - reflexivity.
  - reflexivity.
Defined.

(** C1 as stated fails: a NaN is hashable, and after [put(nan, 1)] on a
    fresh default table [get(nan)] returns the default, not 1. *)
Lemma nan_roundtrip_counterexample :
  __init__ 8 (Finite (3 # 4)) = Ok default_table /\
  pyhash (KNaN 0) = Some 0 /\
  exists self',
    put pyhash py_self_equal (KNaN 0) (PyObj 1) default_table = Some (Ok tt, self') /\
    items self' = [(KNaN 0, PyObj 1)] /\
    get pyhash py_self_equal self' (KNaN 0) PyNone = Ok PyNone.
Proof.
  split; [by_evaluation|]. split; [reflexivity|].
  eexists. split; [by_evaluation|]. split; by_evaluation.
Qed.

(** C2 on a short history with a collision (1 and 9 share a bucket), a
    delete and a negative key, observed after its third operation. *)
Lemma items_refine_reference_mapping_witness :
  exists self,
    run pyhash py_self_equal
      (take 3 [Put (KInt 1) (PyObj 10); Put (KInt 9) (PyObj 90);
               Delete (KInt 1); Put (KInt (-3)) PyNone])
      default_table = Some (Ok tt, self) /\
    forall k v,
      (k, v) ∈ items self <->
      replay (take 3 [Put (KInt 1) (PyObj 10); Put (KInt 9) (PyObj 90);
                      Delete (KInt 1); Put (KInt (-3)) PyNone]) !! k = Some v.
Proof.
  apply (items_refine_reference_mapping pyhash py_self_equal
           [Put (KInt 1) (PyObj 10); Put (KInt 9) (PyObj 90);
            Delete (KInt 1); Put (KInt (-3)) PyNone] 3 default_table).
  - by_evaluation.
  - repeat (apply Forall_cons; split; [split; [by eexists|reflexivity]|]).
    apply Forall_nil_2.
  - by vm_compute.
Defined.

(** C2 as stated fails: two puts of the same NaN object, which is
    hashable, leave two entries, while a dictionary, which finds a key by
    identity, maps the NaN to the second value only. *)
Lemma nan_items_counterexample :
  __init__ 8 (Finite (3 # 4)) = Ok default_table /\
  pyhash (KNaN 0) = Some 0 /\
  exists self,
    run pyhash py_self_equal
      [Put (KNaN 0) (PyObj 1); Put (KNaN 0) (PyObj 2)] default_table
      = Some (Ok tt, self) /\
    items self = [(KNaN 0, PyObj 1); (KNaN 0, PyObj 2)] /\
    replay [Put (KNaN 0) (PyObj 1); Put (KNaN 0) (PyObj 2)] !! KNaN 0
      = Some (PyObj 2) /\
    ~ ((KNaN 0, PyObj 1) ∈ items self <->
       replay [Put (KNaN 0) (PyObj 1); Put (KNaN 0) (PyObj 2)] !! KNaN 0
         = Some (PyObj 1)).
Proof.
  split; [by_evaluation|]. split; [reflexivity|].
  eexists. split; [by_evaluation|]. split; [by_evaluation|].
  assert (replay [Put (KNaN 0) (PyObj 1); Put (KNaN 0) (PyObj 2)] !! KNaN 0
          = Some (PyObj 2)) as Hlook by by_evaluation.
  split; [exact Hlook|]. rewrite Hlook. intros [Himp _].
  assert (Some (PyObj 2) = Some (PyObj 1)) as Heq; [|discriminate Heq].
  apply Himp. holds_by_evaluation.
Qed.

(** C3 as stated fails: [HashTable(initial_size=4)], which the source's
    collision test constructs, is accepted and has size 4. *)
Lemma size_at_least_8_counterexample :
  __init__ 4 (Finite (3 # 4)) = Ok small_table /\
  reachable pyhash py_self_equal 4 (Finite (3 # 4)) small_table /\
  ~ (pow2 (size small_table) /\ 8 <= size small_table /\
     count small_table = Z.of_nat (sum_list (length <$> table small_table))).
Proof.
  split; [by_evaluation|]. split; [apply reach_init; by_evaluation|].
  simpl. lia.
Qed.

Lemma size_count_invariant_witness :
  pow2 (size sparse_table) /\
  Z.min 8 8 <= size sparse_table /\
  (8 <= 8 -> 8 <= size sparse_table) /\
  count sparse_table = Z.of_nat (sum_list (length <$> table sparse_table)).
Proof.
  apply (size_count_invariant pyhash py_self_equal 8 (Finite (3 # 4)) sparse_table).
  sparse_table_is_reachable.
Defined.

(** C4 as stated fails: on a default table holding six entries, a [put]
    with a list as key raises [TypeError] with the table already grown from
    8 to 16 buckets. *)
Lemma unhashable_put_counterexample :
  exists self self',
    put_all pyhash py_self_equal (entry_of <$> [0; 1; 2; 3; 4; 5]) default_table
      = Some (Ok tt, self) /\
    pyhash (KList []) = None /\
    put pyhash py_self_equal (KList []) (PyObj 0) self
      = Some (Raise TypeError, self') /\
    size self = 8 /\ size self' = 16 /\ self' ≠ self.
Proof.
  eexists _, _. split; [by_evaluation|]. split; [reflexivity|].
  split; [by_evaluation|]. split; [reflexivity|]. split; [reflexivity|].
  intros Heq. apply (f_equal size) in Heq. simpl in Heq. lia.
Qed.

Lemma unhashable_key_raises_witness :
  get pyhash py_self_equal sparse_table (KList [1]) PyNone = Raise TypeError /\
  __contains__ pyhash py_self_equal sparse_table (KList [1]) = Raise TypeError /\
  delete pyhash py_self_equal (KList [1]) sparse_table
    = Some (Raise TypeError, sparse_table) /\
  exists r self',
    put pyhash py_self_equal (KList [1]) (PyObj 5) sparse_table = Some (r, self') /\
    load_factor self' = load_factor sparse_table /\
    (count sparse_table < threshold sparse_table ->
     r = Raise TypeError /\ self' = sparse_table) /\
    (threshold sparse_table <= count sparse_table ->
     (exists j : nat, size self' = size sparse_table * 2 * 2 ^ Z.of_nat j) /\
     (r = Raise TypeError /\
      Z.of_nat (length (table self')) = size self' /\
      compute_threshold (size self') (load_factor self') = Ok (threshold self') /\
      items self' ≡ₚ items sparse_table /\
      count self' = count sparse_table
      \/
      r = Raise OverflowError /\
      Z.of_nat (length (table self')) < size self') /\
     (forall t,
        compute_threshold (size sparse_table * 2) (load_factor sparse_table) = Ok t ->
        count sparse_table <= t ->
        r = Raise TypeError /\ size self' = size sparse_table * 2 /\
        threshold self' = t) /\
     (compute_threshold (size sparse_table * 2) (load_factor sparse_table)
        = Raise OverflowError ->
      r = Raise OverflowError /\ self' = set_size (size sparse_table * 2) sparse_table)).
Proof.
  apply (unhashable_key_raises pyhash py_self_equal 8 (Finite (3 # 4)) sparse_table
           (KList [1]) (PyObj 5) PyNone).
  - sparse_table_is_reachable.
  - reflexivity.
Defined.

(** C5 at the keys 0 to 6. *)
Lemma growth_trigger_witness :
  exists self6 self7,
    put_all pyhash py_self_equal
      (take 6 (entry_of <$> [0; 1; 2; 3; 4; 5; 6])) default_table
      = Some (Ok tt, self6) /\
    size self6 = 8 /\
    put_all pyhash py_self_equal
      (drop 6 (entry_of <$> [0; 1; 2; 3; 4; 5; 6])) self6
      = Some (Ok tt, self7) /\
    size self7 = 16.
Proof.
  apply (growth_trigger pyhash py_self_equal
           (entry_of <$> [0; 1; 2; 3; 4; 5; 6]) default_table).
  - by_evaluation.
  - holds_by_evaluation.
  - repeat (apply Forall_cons; split; [by eexists|]). apply Forall_nil_2.
  - reflexivity.
Defined.



(** C8 fails on the code: after [put(1, None)] the key 1 is stored, as
    [items()] shows, but [1 in table] is [False], against the docstring of
    [__contains__] ("checks the presence of the key in the table"). *)
Theorem contains_misses_key_with_None_value :
  exists self,
    put pyhash py_self_equal (KInt 1) PyNone default_table = Some (Ok tt, self) /\
    items self = [(KInt 1, PyNone)] /\
    KInt 1 ∈ keys self /\
    get pyhash py_self_equal self (KInt 1) (PyObj 0) = Ok PyNone /\
    __contains__ pyhash py_self_equal self (KInt 1) = Ok false.
Proof.
  eexists. split; [by_evaluation|]. split; [by_evaluation|].
  split; [|split; by_evaluation]. holds_by_evaluation.
Qed.

(** C9 at a key with a negative hash. *)
Lemma operations_total_witness :
  (exists r self',
     put pyhash py_self_equal (KInt (-5)) (PyObj 1) sparse_table = Some (r, self') /\
     (forall fuel, (length (items sparse_table) < fuel)%nat ->
                   put_fuel pyhash py_self_equal fuel (KInt (-5)) (PyObj 1) sparse_table
                     = Some (r, self')) /\
     (r = Ok tt \/ r = Raise OverflowError \/ r = Raise IndexError) /\
     (intact sparse_table -> r ≠ Raise IndexError) /\
     (intact sparse_table -> put_fits sparse_table -> r = Ok tt)) /\
  (exists r self',
     delete pyhash py_self_equal (KInt (-5)) sparse_table = Some (r, self') /\
     (forall fuel, (length (items sparse_table) <= fuel)%nat ->
                   delete_fuel pyhash py_self_equal fuel (KInt (-5)) sparse_table
                     = Some (r, self')) /\
     ((exists w, r = Ok w) \/ r = Raise OverflowError \/ r = Raise IndexError) /\
     (intact sparse_table -> exists w, r = Ok w)) /\
  ((exists w, get pyhash py_self_equal sparse_table (KInt (-5)) PyNone = Ok w) \/
   get pyhash py_self_equal sparse_table (KInt (-5)) PyNone = Raise IndexError) /\
  (intact sparse_table ->
   exists w, get pyhash py_self_equal sparse_table (KInt (-5)) PyNone = Ok w) /\
  (intact sparse_table ->
   exists b, __contains__ pyhash py_self_equal sparse_table (KInt (-5)) = Ok b) /\
  __len__ sparse_table = Z.of_nat (length (keys sparse_table)) /\
  __len__ sparse_table = Z.of_nat (length (values sparse_table)).
Proof.
  apply (operations_total pyhash py_self_equal 8 (Finite (3 # 4)) sparse_table
           (KInt (-5)) (PyObj 1) PyNone (-5)).
  - sparse_table_is_reachable.
  - reflexivity.
Defined.

(** C9 as stated fails: the constructor accepts the load factor
    [-2.0**1019]; the first put grows the table to 16 buckets, and the
    second put, with the hashable key 17, raises [OverflowError] from the
    [int(32 * load_factor)] of its resize, leaving [size] at 32 over 16
    chains. *)
Lemma overflow_put_counterexample :
  __init__ 8 steep = Ok steep_table /\
  pyhash (KInt 1) = Some 1 /\
  pyhash (KInt 17) = Some 17 /\
  put pyhash py_self_equal (KInt 1) (PyObj 1) steep_table
    = Some (Ok tt, steep_one_table) /\
  put pyhash py_self_equal (KInt 17) (PyObj 17) steep_one_table
    = Some (Raise OverflowError, torn_table) /\
  size torn_table = 32 /\
  length (table torn_table) = 16%nat.
Proof.
  split; [by_evaluation|]. split; [reflexivity|]. split; [reflexivity|].
  split; [by_evaluation|]. split; [by_evaluation|]. split; reflexivity.
Qed.

(** C10 at the key [-5]: the hash is [-5], the index [(-5) % 8 = 3]. *)
Lemma bucket_index_in_range_witness :
  exists index,
    _hash pyhash default_table (KInt (-5)) = Ok index /\
    0 <= index < size default_table /\
    (intact default_table \/
     Z.of_nat (length (table default_table)) < size default_table /\
     compute_threshold (size default_table) (load_factor default_table)
       = Raise OverflowError) /\
    (index < Z.of_nat (length (table default_table)) ->
     exists b, list_getitem (table default_table) index = Ok (Z.to_nat index, b) /\
               table default_table !! Z.to_nat index = Some b) /\
    (Z.of_nat (length (table default_table)) <= index ->
     list_getitem (table default_table) index = Raise IndexError) /\
    (intact default_table -> index < Z.of_nat (length (table default_table))).
Proof.
  apply (bucket_index_in_range pyhash py_self_equal 8 (Finite (3 # 4)) default_table
           (KInt (-5)) (-5)).
  - apply reach_init. by_evaluation.
  - reflexivity.
Defined.

(** C10 as stated fails: in the reachable state [torn_table], which a
    resize that raised [OverflowError] has left with size 32 over 16
    chains, the hashable key 17 has index 17, and the bucket lookup of
    [get] and [delete] at that index is out of range. *)
Lemma torn_lookup_counterexample :
  reachable pyhash py_self_equal 8 steep torn_table /\
  pyhash (KInt 17) = Some 17 /\
  _hash pyhash torn_table (KInt 17) = Ok 17 /\
  length (table torn_table) = 16%nat /\
  list_getitem (table torn_table) 17 = Raise IndexError /\
  get pyhash py_self_equal torn_table (KInt 17) PyNone = Raise IndexError /\
  delete pyhash py_self_equal (KInt 17) torn_table
    = Some (Raise IndexError, torn_table).
Proof.
  split; [apply torn_table_reachable|]. split; [reflexivity|].
  split; [by_evaluation|]. split; [reflexivity|].
  split; [by_evaluation|]. split; by_evaluation.
Qed.

(** * The further properties on concrete tables *)

Lemma put_count_witness :
  exists self',
    put pyhash py_self_equal (KInt 5) (PyObj 50) sparse_table = Some (Ok tt, self') /\
    (matched py_self_equal sparse_table (KInt 5) -> count self' = count sparse_table) /\
    (~ matched py_self_equal sparse_table (KInt 5) ->
     count self' = count sparse_table + 1) /\
    KInt 5 ∈ keys self'.
Proof.
  apply (put_count pyhash py_self_equal 8 (Finite (3 # 4)) sparse_table
           (KInt 5) (PyObj 50) 5).
  - sparse_table_is_reachable.
  - reflexivity.
  - left. reflexivity.
  - reflexivity.
Defined.

Lemma put_put_update_witness :
  exists self1,
    put pyhash py_self_equal (KInt 7) (PyObj 1) default_table = Some (Ok tt, self1) /\
    (put_fits self1 ->
     exists self2,
       put pyhash py_self_equal (KInt 7) (PyObj 2) self1 = Some (Ok tt, self2) /\
       get pyhash py_self_equal self2 (KInt 7) PyNone = Ok (PyObj 2) /\
       count self2 = count self1).
Proof.
  apply (put_put_update pyhash py_self_equal 8 (Finite (3 # 4)) default_table
           (KInt 7) (PyObj 1) (PyObj 2) PyNone 7).
  - apply reach_init. by_evaluation.
  - reflexivity.
  - left. reflexivity.
  - reflexivity.
  - reflexivity.
Defined.

Lemma delete_removes_witness :
  exists self',
    delete pyhash py_self_equal (KInt 5) sparse_table = Some (Ok (PyObj 5), self') /\
    (KInt 5 ∉ keys self') /\
    get pyhash py_self_equal self' (KInt 5) PyNone = Ok PyNone /\
    __contains__ pyhash py_self_equal self' (KInt 5) = Ok false /\
    count self' = count sparse_table - 1.
Proof.
  apply (delete_removes pyhash py_self_equal 8 (Finite (3 # 4)) sparse_table
           (KInt 5) (PyObj 5) PyNone 5).
  - sparse_table_is_reachable.
  - reflexivity.
  - reflexivity.
  - reflexivity.
  - holds_by_evaluation.
Defined.

(** 20 and 4 share a chain of [sparse_table]. *)
Lemma put_preserves_other_keys_witness :
  exists self',
    put pyhash py_self_equal (KInt 20) (PyObj 0) sparse_table = Some (Ok tt, self') /\
    get pyhash py_self_equal self' (KInt 4) PyNone
      = get pyhash py_self_equal sparse_table (KInt 4) PyNone.
Proof.
  apply (put_preserves_other_keys pyhash py_self_equal 8 (Finite (3 # 4)) sparse_table
           (KInt 20) (PyObj 0) (KInt 4) PyNone 20 4).
  - sparse_table_is_reachable.
  - reflexivity.
  - left. reflexivity.
  - reflexivity.
  - reflexivity.
  - discriminate.
Defined.

(** This delete halves [sparse_table]. *)
Lemma delete_preserves_other_keys_witness :
  exists r self',
    delete pyhash py_self_equal (KInt 4) sparse_table = Some (Ok r, self') /\
    get pyhash py_self_equal self' (KInt 5) PyNone
      = get pyhash py_self_equal sparse_table (KInt 5) PyNone.
Proof.
  apply (delete_preserves_other_keys pyhash py_self_equal 8 (Finite (3 # 4))
           sparse_table (KInt 4) (KInt 5) PyNone 4 5).
  - sparse_table_is_reachable.
  - reflexivity.
  - reflexivity.
  - reflexivity.
  - discriminate.
Defined.

Lemma get_agrees_with_items_witness :
  (forall v, py_self_equal (KInt 6) = true -> (KInt 6, v) ∈ items sparse_table ->
             get pyhash py_self_equal sparse_table (KInt 6) PyNone = Ok v) /\
  (~ matched py_self_equal sparse_table (KInt 6) ->
   get pyhash py_self_equal sparse_table (KInt 6) PyNone = Ok PyNone).
Proof.
  apply (get_agrees_with_items pyhash py_self_equal 8 (Finite (3 # 4)) sparse_table
           (KInt 6) PyNone 6).
  - sparse_table_is_reachable.
  - reflexivity.
  - reflexivity.
Defined.

Lemma keys_no_duplicates_witness :
  NoDup (self_equal_keys py_self_equal (keys sparse_table)).
Proof.
  apply (keys_no_duplicates pyhash py_self_equal 8 (Finite (3 # 4)) sparse_table).
  sparse_table_is_reachable.
Defined.

Lemma contains_iff_stored_non_None_witness :
  exists b,
    __contains__ pyhash py_self_equal sparse_table (KInt 4) = Ok b /\
    (b = true <-> exists v, (KInt 4, PyObj v) ∈ items sparse_table).
Proof.
  apply (contains_iff_stored_non_None pyhash py_self_equal 8 (Finite (3 # 4))
           sparse_table (KInt 4) 4).
  - sparse_table_is_reachable.
  - reflexivity.
  - reflexivity.
  - reflexivity.
Defined.

Lemma resize_rejects_bad_size_witness :
  _resize pyhash py_self_equal 3 6 sparse_table
    = Some (Raise ValueError, sparse_table).
Proof.
  apply (resize_rejects_bad_size pyhash py_self_equal 3 6 sparse_table).
  intros Hp. apply _is_power_of_two_pow2 in Hp. vm_compute in Hp. discriminate Hp.
Defined.

Lemma resize_preserves_content_witness :
  exists self',
    _resize pyhash py_self_equal 3 32 sparse_table = Some (Ok tt, self') /\
    items self' ≡ₚ items sparse_table /\
    count self' = count sparse_table /\
    load_factor self' = load_factor sparse_table /\
    threshold self' = 24 /\
    size self' = 32 /\
    Z.of_nat (length (table self')) = 32 /\
    (intact sparse_table ->
     forall k default, is_Some (pyhash k) ->
                       get pyhash py_self_equal self' k default
                         = get pyhash py_self_equal sparse_table k default).
Proof.
  apply (resize_preserves_content pyhash py_self_equal 8 (Finite (3 # 4))
           sparse_table 3 32 24).
  - sparse_table_is_reachable.
  - exists 5%nat. reflexivity.
  - simpl. lia.
  - by_evaluation.
  - simpl. lia.
Defined.

Lemma threshold_follows_size_witness :
  load_factor sparse_table = Finite (3 # 4) /\
  compute_threshold (Z.of_nat (length (table sparse_table))) (Finite (3 # 4))
    = Ok (threshold sparse_table) /\
  (intact sparse_table ->
   compute_threshold (size sparse_table) (Finite (3 # 4))
     = Ok (threshold sparse_table)).
Proof.
  apply (threshold_follows_size pyhash py_self_equal 8 (Finite (3 # 4)) sparse_table).
  sparse_table_is_reachable.
Defined.

(** In [torn_table] the key 1 is in chain 1 of 16, under a size of 32. *)
Lemma entries_in_their_chain_witness :
  (Z.of_nat (length (table torn_table)) = size torn_table \/
   Z.of_nat (length (table torn_table)) < size torn_table /\
   compute_threshold (size torn_table) (load_factor torn_table)
     = Raise OverflowError) /\
  forall i b k v,
    table torn_table !! i = Some b -> (k, v) ∈ b ->
    exists h, pyhash k = Some h /\
              h mod Z.of_nat (length (table torn_table)) = Z.of_nat i.
Proof.
  apply (entries_in_their_chain pyhash py_self_equal 8 steep torn_table).
  apply torn_table_reachable.
Defined.

(** The first put into a table of one chain grows it. *)
Lemma put_never_shrinks_witness :
  exists self',
    put pyhash py_self_equal (KInt 3) (PyObj 3) single_table = Some (Ok tt, self') /\
    size single_table <= size self' /\
    exists j : nat, size self' = size single_table * 2 ^ Z.of_nat j.
Proof.
  eexists. split; [by_evaluation|].
  apply (put_never_shrinks pyhash py_self_equal 1 (Finite (3 # 4)) single_table
           (KInt 3) (PyObj 3) (Ok tt)).
  - apply reach_init. by_evaluation.
  - by_evaluation.
Defined.

Lemma delete_never_grows_witness :
  exists self',
    delete pyhash py_self_equal (KInt 4) sparse_table = Some (Ok (PyObj 4), self') /\
    (size self' = size sparse_table \/
     (8 < size sparse_table /\ size self' = size sparse_table / 2 /\ 8 <= size self')).
Proof.
  eexists. split; [by_evaluation|].
  apply (delete_never_grows pyhash py_self_equal 8 (Finite (3 # 4)) sparse_table
           (KInt 4) (Ok (PyObj 4))).
  - sparse_table_is_reachable.
  - by_evaluation.
Defined.

Lemma count_within_threshold_witness :
  count sparse_table <= threshold sparse_table.
Proof.
  apply (count_within_threshold pyhash py_self_equal 8 (3 # 4) sparse_table).
  - unfold Qle. simpl. lia.
  - sparse_table_is_reachable.
Defined.

Lemma put_doubles_at_most_once_witness :
  exists r self',
    put pyhash py_self_equal (KInt 3) (PyObj 3) single_table = Some (r, self') /\
    (count single_table < threshold single_table -> size self' = size single_table) /\
    (threshold single_table <= count single_table ->
     size self' = size single_table * 2) /\
    (intact single_table -> put_fits single_table -> r = Ok tt).
Proof.
  apply (put_doubles_at_most_once pyhash py_self_equal 1 (3 # 4) single_table
           (KInt 3) (PyObj 3) 3).
  - unfold Qle. simpl. lia.
  - apply reach_init. by_evaluation.
  - reflexivity.
Defined.

Lemma put_updates_in_place_or_appends_witness :
  exists b self',
    table sparse_table !! Z.to_nat (20 mod size sparse_table) = Some b /\
    put pyhash py_self_equal (KInt 20) (PyObj 0) sparse_table = Some (Ok tt, self') /\
    size self' = size sparse_table /\
    ((exists i v0,
        py_self_equal (KInt 20) = true /\
        b !! i = Some (KInt 20, v0) /\
        table self' =
          <[Z.to_nat (20 mod size sparse_table) := <[i := (KInt 20, PyObj 0)]> b]>
            (table sparse_table) /\
        keys self' = keys sparse_table /\
        count self' = count sparse_table) \/
     ((py_self_equal (KInt 20) = false \/ KInt 20 ∉ b.*1) /\
      table self' =
        <[Z.to_nat (20 mod size sparse_table) := b ++ [(KInt 20, PyObj 0)]]>
          (table sparse_table) /\
      count self' = count sparse_table + 1)).
Proof.
  apply (put_updates_in_place_or_appends pyhash py_self_equal 8 (Finite (3 # 4))
           sparse_table (KInt 20) (PyObj 0) 20).
  - sparse_table_is_reachable.
  - reflexivity.
  - reflexivity.
  - simpl. lia.
Defined.

Lemma shrink_trigger_witness :
  exists self7 self4 self5,
    put_all pyhash py_self_equal (entry_of <$> [0; 1; 2; 3; 4; 5; 6]) default_table
      = Some (Ok tt, self7) /\
    size self7 = 16 /\
    run pyhash py_self_equal (Delete <$> take 4 (KInt <$> [6; 0; 3; 5; 1])) self7
      = Some (Ok tt, self4) /\
    size self4 = 16 /\
    run pyhash py_self_equal (Delete <$> drop 4 (KInt <$> [6; 0; 3; 5; 1])) self4
      = Some (Ok tt, self5) /\
    size self5 = 8.
Proof.
  apply (shrink_trigger pyhash py_self_equal (entry_of <$> [0; 1; 2; 3; 4; 5; 6])
           (KInt <$> [6; 0; 3; 5; 1]) default_table).
  - by_evaluation.
  - holds_by_evaluation.
  - repeat (apply Forall_cons; split; [by eexists|]). apply Forall_nil_2.
  - repeat (apply Forall_cons; split; [reflexivity|]). apply Forall_nil_2.
  - reflexivity.
  - holds_by_evaluation.
  - apply Forall_forall. holds_by_evaluation.
  - reflexivity.
Defined.

Lemma len_and_get_refine_reference_mapping_witness :
  exists r self,
    run pyhash py_self_equal
      [Put (KInt 1) (PyObj 10); Put (KInt 5) (PyObj 50);
       Put (KInt 9) PyNone; Delete (KInt 1); Put (KInt 5) (PyObj 51)]
      small_table = Some (r, self) /\
    (r = Ok tt \/ r = Raise OverflowError) /\
    (r = Ok tt ->
     __len__ self =
       Z.of_nat (base.size
         (replay [Put (KInt 1) (PyObj 10); Put (KInt 5) (PyObj 50);
                  Put (KInt 9) PyNone; Delete (KInt 1); Put (KInt 5) (PyObj 51)])) /\
     forall k default,
       is_Some (pyhash k) ->
       get pyhash py_self_equal self k default =
         Ok (match replay [Put (KInt 1) (PyObj 10); Put (KInt 5) (PyObj 50);
                           Put (KInt 9) PyNone; Delete (KInt 1);
                           Put (KInt 5) (PyObj 51)] !! k with
             | Some v => v
             | None => default
             end)).
Proof.
  apply (len_and_get_refine_reference_mapping pyhash py_self_equal
           [Put (KInt 1) (PyObj 10); Put (KInt 5) (PyObj 50);
            Put (KInt 9) PyNone; Delete (KInt 1); Put (KInt 5) (PyObj 51)]
           4 (Finite (3 # 4)) small_table).
  - by_evaluation.
  - repeat (apply Forall_cons; split; [split; [by eexists|reflexivity]|]).
    apply Forall_nil_2.
Defined.

Lemma put_then_delete_restores_witness :
  exists self1 self2,
    put pyhash py_self_equal (KInt 20) (PyObj 0) sparse_table = Some (Ok tt, self1) /\
    delete pyhash py_self_equal (KInt 20) self1 = Some (Ok (PyObj 0), self2) /\
    (forall x, x ∈ items self2 <-> x ∈ items sparse_table) /\
    count self2 = count sparse_table.
Proof.
  apply (put_then_delete_restores pyhash py_self_equal 8 (Finite (3 # 4)) sparse_table
           (KInt 20) (PyObj 0) 20).
  - sparse_table_is_reachable.
  - reflexivity.
  - left. reflexivity.
  - reflexivity.
  - reflexivity.
  - holds_by_evaluation.
Defined.

Lemma fresh_table_is_empty_witness :
  __len__ small_table = 0 /\
  get pyhash py_self_equal small_table (KInt (-1)) (PyObj 0) = Ok (PyObj 0) /\
  __contains__ pyhash py_self_equal small_table (KInt (-1)) = Ok false /\
  delete pyhash py_self_equal (KInt (-1)) small_table = Some (Ok PyNone, small_table).
Proof.
  apply (fresh_table_is_empty pyhash py_self_equal 4 (Finite (3 # 4)) small_table
           (KInt (-1)) (PyObj 0) (-2)).
  - by_evaluation.
  - reflexivity.
Defined.

(** The put that overflows: [steep_one_table] is intact, [torn_table] is
    not. *)
Lemma intact_until_overflow_witness :
  (exists r self',
     put pyhash py_self_equal (KInt 17) (PyObj 17) steep_one_table = Some (r, self') /\
     (intact self' <-> r ≠ Raise OverflowError)) /\
  (exists r self',
     delete pyhash py_self_equal (KInt 17) steep_one_table = Some (r, self') /\
     intact self' /\ r ≠ Raise OverflowError).
Proof.
  apply (intact_until_overflow pyhash py_self_equal 8 steep steep_one_table
           (KInt 17) (PyObj 17)).
  - apply steep_one_table_reachable.
  - reflexivity.
Defined.

Lemma unequal_key_is_never_found_witness :
  get pyhash py_self_equal sparse_table (KNaN 4) PyNone = Ok PyNone /\
  __contains__ pyhash py_self_equal sparse_table (KNaN 4) = Ok false /\
  delete pyhash py_self_equal (KNaN 4) sparse_table = Some (Ok PyNone, sparse_table) /\
  (put_fits sparse_table ->
   exists self',
     put pyhash py_self_equal (KNaN 4) (PyObj 1) sparse_table = Some (Ok tt, self') /\
     count self' = count sparse_table + 1 /\
     items self' ≡ₚ (KNaN 4, PyObj 1) :: items sparse_table /\
     get pyhash py_self_equal self' (KNaN 4) PyNone = Ok PyNone).
Proof.
  apply (unequal_key_is_never_found pyhash py_self_equal 8 (Finite (3 # 4))
           sparse_table (KNaN 4) (PyObj 1) PyNone 4).
  - sparse_table_is_reachable.
  - reflexivity.
  - reflexivity.
  - reflexivity.
Defined.

Lemma failed_resize_changes_size_only_witness :
  put pyhash py_self_equal (KInt 17) (PyObj 17) steep_one_table
    = Some (Raise OverflowError,
            set_size (size steep_one_table * 2) steep_one_table) /\
  ~ intact (set_size (size steep_one_table * 2) steep_one_table).
Proof.
  apply (failed_resize_changes_size_only pyhash py_self_equal 8 steep
           steep_one_table (KInt 17) (PyObj 17)).
  - apply steep_one_table_reachable.
  - by vm_compute.
  - by_evaluation.
Defined.

Lemma put_cannot_repair_witness :
  length (table (set_size 64 torn_table)) = length (table torn_table) /\
  ~ intact (set_size 64 torn_table).
Proof.
  apply (put_cannot_repair pyhash py_self_equal 8 steep torn_table
           (KInt 2) (PyObj 2) (Raise OverflowError) (set_size 64 torn_table)).
  - apply torn_table_reachable.
  - unfold intact. simpl. lia.
  - by_evaluation.
Defined.
